(** * Verification of the v2 license classifier document index (v2/document.go)

    Part I embeds the Go source, top-down:
    - [Dictionary] and its methods [add], [getIndex], [getWord];
    - tokens, documents, indexed documents;
    - the session state: the receiver [*Classifier] and the heap cell that
      holds the one [Dictionary] every [IndexedDocument] points to;
    - [normalized], [generateIndexedDocument], [addDocument], [AddContent],
      [createTargetIndexedDocument], [generateDocName], [getIndexedDocument];
    - [computeQ] and [max] over IEEE-754 binary64 values.

    Part II states and proves the properties. *)

From Stdlib Require Import ZArith Lia Bool QArith Qround.
From Stdlib Require Import Floats.SpecFloat.
From stdpp Require Import base option list gmap strings fin_maps.

Local Open Scope Z_scope.

(** * Part I: the program *)

(** ** Token identifiers

    [type tokenID int].  Identifiers come from [len] of a map plus one, far
    below the bound of a 64-bit [int]; they are modelled as integers without
    wrap-around. *)
Abbreviation tokenID := Z (only parsing).

(** [var unknownWord = "UNKNOWN"] and [var unknownIndex = tokenID(0)];
    nothing in the file assigns to them. *)
Definition unknownWord : string := "UNKNOWN".
Definition unknownIndex : tokenID := 0.

(** ** Dictionary

    Both maps are the ones [newDictionary] creates with [make]; [Words] is
    keyed by identifier, [Indices] by word. *)
Record Dictionary := mkDictionary {
  Words : gmap Z string;
  Indices : gmap string Z
}.

Definition newDictionary : Dictionary :=
  {| Words := ∅; Indices := ∅ |}.

(** A method with receiver [*Dictionary] is a transformer of the receiver's
    state that also yields the returned value. *)
Definition method (A : Type) : Type := Dictionary → A * Dictionary.

(** [getIndex]: comma-ok lookup in [Indices]. *)
Definition getIndex (word : string) : method tokenID := λ d,
  match Indices d !! word with
  | Some idx => (idx, d)
  | None => (unknownIndex, d)
  end.

(** [getWord]: comma-ok lookup in [Words]. *)
Definition getWord (index : tokenID) : method string := λ d,
  match Words d !! index with
  | Some word => (word, d)
  | None => (unknownWord, d)
  end.

(** [add]: early return on a known word, else [len(d.Words) + 1] is stored
    in both maps. *)
Definition add (word : string) : method tokenID := λ d,
  let '(idx, d) := getIndex word d in
  if decide (idx ≠ unknownIndex) then (idx, d)
  else
    let idx := Z.of_nat (size (Words d)) + 1 in
    let d := {| Words := <[idx := word]> (Words d); Indices := Indices d |} in
    let d := {| Words := Words d; Indices := <[word := idx]> (Indices d) |} in
    (idx, d).

(** ** Tokens and documents *)

Module token.
Record t := mk {
  Text : string;      (* normalized text of the token *)
  Index : Z;          (* the token's location in the tokenized document *)
  Line : Z;           (* line position of this token in the source *)
  Previous : string   (* for the first token in a line, any previous text *)
}.
End token.

Module document.
(** [Tokens []*token]: the slice holds no nil pointer, so it is a list of
    token values. *)
Record t := mk { Tokens : list token.t }.
End document.

Module indexedToken.
Record t := mk {
  Index : Z;
  Line : Z;
  ID : tokenID
}.
End indexedToken.

(** [FrequencyTable] and [SearchSet] are declared in other files of the
    package.  Their representation is left open; of [SearchSet] this file
    only touches the field [origin]. *)
Class Artifacts := {
  FrequencyTable : Type;
  SearchSetData : Type
}.

Module SearchSet.
Section WithArtifacts.
Context `{Artifacts}.

Record t := mk { data : SearchSetData; origin : string }.

Definition setOrigin (ss : t) (o : string) : t :=
  {| data := data ss; origin := o |}.

End WithArtifacts.
End SearchSet.

(** A pointer to a [Dictionary].  The heap is partial: dereferencing an
    address it does not hold (the nil pointer among them) is a panic. *)
Definition loc := positive.

Module IndexedDocument.
Section WithArtifacts.
Context `{Artifacts}.

Record t := mk {
  Tokens : list indexedToken.t;   (* ordered tokens of the document *)
  f : option FrequencyTable;      (* *FrequencyTable, nil until computed *)
  dict : loc;                     (* *Dictionary: the corpus dictionary *)
  s : option SearchSet.t;         (* *SearchSet, nil until computed *)
  runes : list Z;                 (* []rune *)
  norm : string                   (* the normalized token sequence *)
}.

(** [size]: [len(d.Tokens)]. *)
Definition size (d : t) : Z := Z.of_nat (length (Tokens d)).

(** Field assignments [d.X = v]. *)
Definition setTokens (d : t) (v : list indexedToken.t) : t :=
  {| Tokens := v; f := f d; dict := dict d; s := s d; runes := runes d; norm := norm d |}.

Definition setF (d : t) (v : option FrequencyTable) : t :=
  {| Tokens := Tokens d; f := v; dict := dict d; s := s d; runes := runes d; norm := norm d |}.

Definition setS (d : t) (v : option SearchSet.t) : t :=
  {| Tokens := Tokens d; f := f d; dict := dict d; s := v; runes := runes d; norm := norm d |}.

Definition setRunes (d : t) (v : list Z) : t :=
  {| Tokens := Tokens d; f := f d; dict := dict d; s := s d; runes := v; norm := norm d |}.

Definition setNorm (d : t) (v : string) : t :=
  {| Tokens := Tokens d; f := f d; dict := dict d; s := s d; runes := runes d; norm := v |}.

(** The identifiers of the tokens, in order. *)
Definition ids (d : t) : list tokenID := indexedToken.ID <$> Tokens d.

End WithArtifacts.
End IndexedDocument.

(** Functions of the package that live outside document.go. *)
Class Collaborators `{Artifacts} := {
  (** the tokenizer: raw bytes to a document *)
  tokenize : list Byte.byte → document.t;
  (** content of the frequency table built from a token identifier sequence *)
  frequenciesOf : list tokenID → FrequencyTable;
  (** [newSearchSet(d, q)] *)
  newSearchSet : IndexedDocument.t → Z → SearchSet.t;
  (** [diffWordsToRunes(doc, start, end)] *)
  diffWordsToRunes : IndexedDocument.t → Z → Z → list Z
}.

(** What the Go implementation and the operating system fix. *)
Class Platform := {
  (** [os.PathSeparator] *)
  PathSeparator : Ascii.ascii;
  (** the value of [int(x)] for a float64 [x] that an [int] cannot
      represent: "the conversion succeeds but the result value is
      implementation-dependent" *)
  intOfUnrepresentable : spec_float → Z
}.

(** ** The classifier session *)

Section Session.
Context `{Collaborators}.

(** The fields of [Classifier] that document.go reads or writes. *)
Record Classifier := mkClassifier {
  Dict : loc;                               (* *Dictionary *)
  Docs : gmap string IndexedDocument.t;     (* map[string]*IndexedDocument *)
  Q : Z
}.

Definition setDocs (c : Classifier) (v : gmap string IndexedDocument.t) : Classifier :=
  {| Dict := Dict c; Docs := v; Q := Q c |}.

(** The state a method of [*Classifier] runs in: the receiver and the heap
    of dictionaries.  Each [IndexedDocument] has one owner (the local
    variable that built it, then the [Docs] entry), so it is kept by value;
    the [Dictionary] is reached through [c.Dict] and through the [dict]
    field of every document, so it lives on the heap. *)
Record session := mkSession {
  this : Classifier;
  heap : gmap loc Dictionary
}.

(** Computations over a session; [None] is a run-time panic. *)
Definition M (A : Type) : Type := session → option (A * session).

Definition ret {A} (a : A) : M A := λ σ, Some (a, σ).

Definition bind {A B} (m : M A) (k : A → M B) : M B := λ σ,
  match m σ with
  | Some (a, σ') => k a σ'
  | None => None
  end.

Definition panic {A} : M A := λ _, None.

(** Read the receiver [c]. *)
Definition receiver : M Classifier := λ σ, Some (this σ, σ).

(** Assign to the receiver. *)
Definition setReceiver (c : Classifier) : M unit := λ σ,
  Some (tt, {| this := c; heap := heap σ |}).

(** [p.m(args)]: run a [Dictionary] method on the object [p] points to. *)
Definition call {A} (p : loc) (m : method A) : M A := λ σ,
  match heap σ !! p with
  | Some d => let '(a, d') := m d in
              Some (a, {| this := this σ; heap := <[p := d']> (heap σ) |})
  | None => None
  end.

End Session.

Notation "'do' x <- c1 ; c2" := (bind c1 (λ x, c2))
  (at level 10, x name, c1 at level 100, c2 at level 200,
   format "'[v' 'do'  x  <-  c1 ; '/' c2 ']'").

Section Operations.
Context `{Collaborators} `{Platform}.

(** [for i, x := range xs { body }] with the loop-carried state [a]. *)
Fixpoint forRange {X A} (xs : list X) (i : Z) (body : Z → X → A → M A) (a : A) : M A :=
  match xs with
  | [] => ret a
  | x :: xs => do a <- body i x a; forRange xs (i + 1) body a
  end.

(** Body of the loop of [normalized]; the builder [w] is the loop-carried
    state. *)
Definition writeWord (d : IndexedDocument.t) (i : Z) (t : indexedToken.t) (w : string)
  : M string :=
  do word <- call (IndexedDocument.dict d) (getWord (indexedToken.ID t));
  let w := w +:+ word in
  if decide (i + 1 ≠ IndexedDocument.size d) then ret (w +:+ " ") else ret w.

(** [normalized] *)
Definition normalized (d : IndexedDocument.t) : M string :=
  forRange (IndexedDocument.Tokens d) 0 (writeWord d) "".

(** Modelled from the spec: [generateFrequencies] is declared in another
    file of the package.  The spec has the frequency table "constructed from
    an IndexedDocument's token identifier sequence" and "attached as an
    opaque owned artifact"; [addDocument] calls this method for the step the
    spec describes as "eagerly computes and attaches the frequency table". *)
Definition generateFrequencies (d : IndexedDocument.t) : IndexedDocument.t :=
  IndexedDocument.setF d (Some (frequenciesOf (IndexedDocument.ids d))).

(** [generateSearchSet]: [d.s = newSearchSet(d, q)]. *)
Definition generateSearchSet (d : IndexedDocument.t) (q : Z) : IndexedDocument.t :=
  IndexedDocument.setS d (Some (newSearchSet d q)).

(** Body of the loop of [generateIndexedDocument]; the document under
    construction is the loop-carried state. *)
Definition appendToken (addWords : bool) (t : token.t) (id : IndexedDocument.t)
  : M IndexedDocument.t :=
  do tokID <- (if addWords
               then call (IndexedDocument.dict id) (add (token.Text t))
               else call (IndexedDocument.dict id) (getIndex (token.Text t)));
  ret (IndexedDocument.setTokens id
         (IndexedDocument.Tokens id ++
            [ {| indexedToken.Index := token.Index t;
                 indexedToken.Line := token.Line t;
                 indexedToken.ID := tokID |} ])).

(** [generateIndexedDocument] *)
Definition generateIndexedDocument (d : document.t) (addWords : bool) : M IndexedDocument.t :=
  do c <- receiver;
  let id := {| IndexedDocument.Tokens := [];
               IndexedDocument.f := None;
               IndexedDocument.dict := Dict c;
               IndexedDocument.s := None;
               IndexedDocument.runes := [];
               IndexedDocument.norm := "" |} in
  do id <- forRange (document.Tokens d) 0 (λ _, appendToken addWords) id;
  let id := generateFrequencies id in
  let id := IndexedDocument.setRunes id (diffWordsToRunes id 0 (IndexedDocument.size id)) in
  do n <- normalized id;
  ret (IndexedDocument.setNorm id n).

(** [generateDocName]: [fmt.Sprintf("%s%c%s%c%s", category,
    os.PathSeparator, name, os.PathSeparator, variant)]. *)
Definition generateDocName (category name variant : string) : string :=
  category +:+ String PathSeparator (name +:+ String PathSeparator variant).

(** [id.s.origin = indexName]: a panic on a nil [id.s]. *)
Definition assignOrigin (id : IndexedDocument.t) (indexName : string) : M IndexedDocument.t :=
  match IndexedDocument.s id with
  | Some ss => ret (IndexedDocument.setS id (Some (SearchSet.setOrigin ss indexName)))
  | None => panic
  end.

(** [addDocument] *)
Definition addDocument (category name variant : string) (doc : document.t) : M unit :=
  let indexName := generateDocName category name variant in
  do id <- generateIndexedDocument doc true;
  let id := generateFrequencies id in
  do c <- receiver;
  let id := generateSearchSet id (Q c) in
  do id <- assignOrigin id indexName;
  do c <- receiver;
  setReceiver (setDocs c (<[indexName := id]> (Docs c))).

(** [AddContent] *)
Definition AddContent (category name variant : string) (content : list Byte.byte) : M unit :=
  let doc := tokenize content in
  addDocument category name variant doc.

(** [createTargetIndexedDocument] *)
Definition createTargetIndexedDocument (content : list Byte.byte) : M IndexedDocument.t :=
  let doc := tokenize content in
  generateIndexedDocument doc false.

(** [getIndexedDocument]: a map read; a missing key gives the nil pointer. *)
Definition getIndexedDocument (category name variant : string) : M (option IndexedDocument.t) :=
  do c <- receiver;
  ret (Docs c !! generateDocName category name variant).

End Operations.

(** ** float64 and the threshold policy *)

(** IEEE-754 binary64, through the reference operations of the standard
    library ([prec = 53], [emax = 1024]; round to nearest, ties to even). *)
Module F64.

Definition prec : Z := 53.
Definition emax : Z := 1024.

Definition sub : spec_float → spec_float → spec_float := SFsub prec emax.
Definition div : spec_float → spec_float → spec_float := SFdiv prec emax.
Definition eqb : spec_float → spec_float → bool := SFeqb.
Definition ltb : spec_float → spec_float → bool := SFltb.

(** The values a float64 variable can hold. *)
Definition valid : spec_float → bool := valid_binary prec emax.

Definition is_finite (x : spec_float) : bool :=
  match x with
  | S754_zero _ | S754_finite _ _ _ => true
  | _ => false
  end.

(** The exact value of a finite [x] is [num x / den x]. *)
Definition num (x : spec_float) : Z :=
  match x with
  | S754_finite s m e => cond_Zopp s (Z.pos m) * 2 ^ Z.max e 0
  | _ => 0
  end.

Definition den (x : spec_float) : Z :=
  match x with
  | S754_finite _ _ e => 2 ^ Z.max (- e) 0
  | _ => 1
  end.

(** The exact value as a rational number. *)
Definition toQ (x : spec_float) : QArith_base.Q := (num x # Z.to_pos (den x))%Q.

(** The constants of the source and of the spec's examples:
    [1.0] and [0.5] are exact, [0.8] and [0.3] are the doubles nearest to
    the decimal literals. *)
Definition zero : spec_float := S754_zero false.
Definition one : spec_float := S754_finite false 4503599627370496 (-52).
Definition lit_0_5 : spec_float := S754_finite false 4503599627370496 (-53).
Definition lit_0_8 : spec_float := S754_finite false 7205759403792794 (-53).
Definition lit_0_3 : spec_float := S754_finite false 5404319552844595 (-54).

(** [x] is a float64 within half a unit in the last place of [n / d]
    (for an [x] with a negative exponent, as all values below [2 ^ 53]
    have; closer still otherwise). *)
Definition rounds (n d : Z) (x : spec_float) : bool :=
  valid x && is_finite x &&
  (2 * Z.abs (num x * d - n * den x) <=? d).

(** Round toward zero and toward minus infinity. *)
Definition truncate (x : spec_float) : option Z :=
  if is_finite x then Some (Z.quot (num x) (den x)) else None.

Definition floor (x : spec_float) : option Z :=
  if is_finite x then Some (num x / den x) else None.

(** [int] is 64 bits wide, as on every 64-bit platform. *)
Definition int_min : Z := - 2 ^ 63.
Definition int_max : Z := 2 ^ 63 - 1.

Section Conversion.
Context `{Platform}.

(** [int(x)]: "the fraction is discarded (truncation towards zero)"; a
    value the result type cannot represent converts to an
    implementation-dependent one. *)
Definition toInt (x : spec_float) : Z :=
  match truncate x with
  | Some z => if (int_min <=? z) && (z <=? int_max) then z else intOfUnrepresentable x
  | None => intOfUnrepresentable x
  end.

End Conversion.
End F64.

Section Policy.
Context `{Platform}.

(** [max] *)
Definition max (a b : Z) : Z :=
  if a >? b then a else b.

(** [computeQ] *)
Definition computeQ (threshold : spec_float) : Z :=
  if F64.eqb threshold F64.one then 10 (* avoid divide by 0 *)
  else max 1 (F64.toInt (F64.div threshold (F64.sub F64.one threshold))).

End Policy.

(** ** Definitions used to state the properties *)

(** The dictionary reached from [d] by adding the words of [ws] in order. *)
Definition addAll (ws : list string) (d : Dictionary) : Dictionary :=
  foldl (λ d w, (add w d).2) d ws.

(** The invariant of the two correlated maps: "words and indices form an
    inverse mapping relationship" (comment on the type), together with the
    density of the identifiers, which [add] relies on when it takes
    [len(d.Words) + 1] for a fresh key. *)
Record dict_inv (d : Dictionary) : Prop := {
  inv_indices_words : ∀ w i, Indices d !! w = Some i → Words d !! i = Some w;
  inv_words_indices : ∀ i w, Words d !! i = Some w → Indices d !! w = Some i;
  inv_dense : ∀ i, is_Some (Words d !! i) ↔ 1 ≤ i ≤ Z.of_nat (size (Words d))
}.

(** The sum of a measure over a list of strings. *)
Definition total (μ : string → nat) (l : list string) : nat :=
  foldr (λ w n, (μ w + n)%nat) 0%nat l.

(** The number of space characters in a string. *)
Definition space : Ascii.ascii :=
  Ascii.Ascii false false false false false true false false.

Fixpoint spaces (s : string) : nat :=
  match s with
  | EmptyString => 0%nat
  | String c s => ((if Ascii.eqb c space then 1 else 0) + spaces s)%nat
  end.

(** What the token loop of [generateIndexedDocument] computes, as a function
    of the dictionary the document points to. *)
Fixpoint indexTokens (addWords : bool) (ts : list token.t) (d : Dictionary)
  : list indexedToken.t * Dictionary :=
  match ts with
  | [] => ([], d)
  | t :: ts =>
      let r := if addWords then add (token.Text t) d else getIndex (token.Text t) d in
      let rs := indexTokens addWords ts r.2 in
      ({| indexedToken.Index := token.Index t;
          indexedToken.Line := token.Line t;
          indexedToken.ID := r.1 |} :: rs.1, rs.2)
  end.

(** The words [normalized] writes for a token sequence. *)
Definition wordsOf (d : Dictionary) (ts : list indexedToken.t) : list string :=
  (λ t, (getWord (indexedToken.ID t) d).1) <$> ts.

(** What [binary_round_aux] does once the mantissa is rounded. *)
Definition finish (s : bool) (m e : Z) : spec_float :=
  let '(mrs, e') := shr_fexp F64.prec F64.emax m e loc_Exact in
  match shr_m mrs with
  | Z0 => S754_zero s
  | Zpos m => if e' <=? F64.emax - F64.prec then S754_finite s m e' else S754_infinity s
  | _ => S754_nan
  end.

Section Shapes.
Context `{Collaborators}.

(** The document [generateIndexedDocument] returns once the loop has left
    the tokens [its] and [normalized] has produced [n]. *)
Definition indexedOf (p : loc) (its : list indexedToken.t) (n : string) : IndexedDocument.t :=
  let id := {| IndexedDocument.Tokens := its;
               IndexedDocument.f := None;
               IndexedDocument.dict := p;
               IndexedDocument.s := None;
               IndexedDocument.runes := [];
               IndexedDocument.norm := "" |} in
  let id := generateFrequencies id in
  let id := IndexedDocument.setRunes id (diffWordsToRunes id 0 (IndexedDocument.size id)) in
  IndexedDocument.setNorm id n.

(** The entry [addDocument] stores for a document that
    [generateIndexedDocument] returned as [id]. *)
Definition corpusEntry (id : IndexedDocument.t) (q : Z) (indexName : string) : IndexedDocument.t :=
  let id := generateFrequencies id in
  IndexedDocument.setS (generateSearchSet id q)
    (Some (SearchSet.setOrigin (newSearchSet id q) indexName)).

End Shapes.

(** ** Concrete collaborators and inputs

    Stand-ins for the parts outside document.go, used to run the model:
    a tokenizer that splits on white space, a frequency table and a search
    set that keep what they were built from. *)
Module Demo.

Definition artifacts : Artifacts :=
  {| FrequencyTable := list Z; SearchSetData := list Z * Z |}.

Definition collaborators : @Collaborators artifacts :=
  @Build_Collaborators artifacts
    (λ content,
       document.mk
         (imap (λ k w, token.mk w (Z.of_nat k) 1 "")
               (String.words (String.string_of_list_byte content))))
    (λ l, l)
    (λ d q, @SearchSet.mk artifacts (IndexedDocument.ids d, q) "")
    (λ d _ _, IndexedDocument.ids d).

Definition platform : Platform :=
  {| PathSeparator := Ascii.Ascii true true true true false true false false;
     intOfUnrepresentable := λ _, F64.int_min |}.

(** A fresh classifier: an empty dictionary at address 1, no documents. *)
Definition fresh : @session artifacts :=
  {| this := {| Dict := 1%positive; Docs := ∅; Q := 4 |};
     heap := {[ 1%positive := newDictionary ]} |}.

(** The documents of the spec's end-to-end scenario. *)
Definition aba : document.t :=
  document.mk [token.mk "a" 0 1 ""; token.mk "b" 1 1 ""; token.mk "a" 2 1 ""].

Definition ac : document.t :=
  document.mk [token.mk "a" 0 1 ""; token.mk "c" 1 1 ""].

Definition empty : document.t := document.mk [].

(** The dictionary after the corpus document "a b a". *)
Definition dict_ab : Dictionary :=
  {| Words := {[ 1 := "a"; 2 := "b" ]}; Indices := {[ "a" := 1; "b" := 2 ]} |}.

(** The session after [generateIndexedDocument aba true] on [fresh]. *)
Definition grown : @session artifacts :=
  {| this := this fresh; heap := {[ 1%positive := dict_ab ]} |}.

(** The indexed form of "a b a" against [dict_ab]. *)
Definition aba_indexed : @IndexedDocument.t artifacts :=
  @IndexedDocument.mk artifacts
    [indexedToken.mk 0 1 1; indexedToken.mk 1 1 2; indexedToken.mk 2 1 1]
    (Some [1; 2; 1]) 1%positive None [1; 2; 1] "a b a".

(** The indexed form of the target "a c" against [dict_ab]. *)
Definition ac_indexed : @IndexedDocument.t artifacts :=
  @IndexedDocument.mk artifacts
    [indexedToken.mk 0 1 1; indexedToken.mk 1 1 0]
    (Some [1; 0]) 1%positive None [1; 0] "a UNKNOWN".

(** The indexed form of the empty document. *)
Definition empty_indexed : @IndexedDocument.t artifacts :=
  @IndexedDocument.mk artifacts
    []
    (Some []) 1%positive None [] "".

End Demo.

(** ** Definitions used to state further properties *)

(** The word [normalized] shows for a token text that [getIndex] resolved. *)
Definition rendered (d : Dictionary) (w : string) : string :=
  match Indices d !! w with
  | Some _ => w
  | None => unknownWord
  end.

(** The character [c] occurs in [s]. *)
Fixpoint occurs (c : Ascii.ascii) (s : string) : bool :=
  match s with
  | EmptyString => false
  | String x s => Ascii.eqb x c || occurs c s
  end.

Section RegistryInvariant.
Context `{Collaborators}.

(** A stored corpus entry is complete: it points to the dictionary [dd] at
    [p], carries a search set tagged with its own key, uses only
    identifiers [dd] has assigned, and its cached [norm] is what
    [normalized] computes against [dd]. *)
Definition entry_ok (dd : Dictionary) (p : loc) (key : string) (e : IndexedDocument.t) : Prop :=
  IndexedDocument.dict e = p ∧
  (∃ ss, IndexedDocument.s e = Some ss ∧ SearchSet.origin ss = key) ∧
  (∀ it, it ∈ IndexedDocument.Tokens e →
     1 ≤ indexedToken.ID it ≤ Z.of_nat (size (Words dd))) ∧
  IndexedDocument.norm e = String.concat " " (wordsOf dd (IndexedDocument.Tokens e)).

(** The registry and its dictionary are consistent. *)
Definition registry_ok (σ : session) : Prop :=
  ∃ dd, heap σ !! Dict (this σ) = Some dd ∧ dict_inv dd ∧
    ∀ key e, Docs (this σ) !! key = Some e → entry_ok dd (Dict (this σ)) key e.

End RegistryInvariant.

(** * Part II: properties *)

(** ** The dictionary *)

Section DictionaryFacts.

Lemma newDictionary_inv : dict_inv newDictionary.
Proof.
  split; simpl.
  - intros w i H. by rewrite lookup_empty in H.
  - intros i w H. by rewrite lookup_empty in H.
  - intros i. rewrite lookup_empty, map_size_empty. split.
    + intros [x Hx]. discriminate.
    + lia.
Qed.

Lemma getIndex_state word d : (getIndex word d).2 = d.
Proof. unfold getIndex. by destruct (Indices d !! word). Qed.

Lemma getWord_state index d : (getWord index d).2 = d.
Proof. unfold getWord. by destruct (Words d !! index). Qed.

Lemma inv_no_zero d w : dict_inv d → Indices d !! w ≠ Some 0.
Proof.
  intros Hd H0. apply (inv_indices_words _ Hd) in H0.
  assert (is_Some (Words d !! 0)) as Hs by eauto.
  apply (inv_dense _ Hd) in Hs. lia.
Qed.

Lemma inv_next_fresh d : dict_inv d → Words d !! (Z.of_nat (size (Words d)) + 1) = None.
Proof.
  intros Hd. apply eq_None_not_Some. intros Hs.
  apply (inv_dense _ Hd) in Hs. lia.
Qed.

(** [add] on a word that is present. *)
Lemma add_present d w i :
  Indices d !! w = Some i → i ≠ 0 → add w d = (i, d).
Proof.
  intros Hw Hi. unfold add, getIndex. rewrite Hw.
  destruct (decide (i ≠ unknownIndex)) as [_|Hn]; [done|].
  exfalso. apply Hn. exact Hi.
Qed.

(** [add] on a word that is absent. *)
Lemma add_absent d w :
  Indices d !! w = None →
  add w d = (Z.of_nat (size (Words d)) + 1,
             {| Words := <[Z.of_nat (size (Words d)) + 1 := w]> (Words d);
                Indices := <[w := Z.of_nat (size (Words d)) + 1]> (Indices d) |}).
Proof.
  intros Hw. unfold add, getIndex. rewrite Hw.
  destruct (decide (unknownIndex ≠ unknownIndex)) as [Hn|_]; [by destruct Hn|].
  reflexivity.
Qed.

Lemma add_inv d w : dict_inv d → dict_inv (add w d).2.
Proof.
  intros Hd. destruct (Indices d !! w) as [i|] eqn:Hw.
  - rewrite (add_present d w i Hw); [exact Hd|].
    intros ->. by apply (inv_no_zero d w Hd).
  - rewrite (add_absent d w Hw). simpl.
    pose proof (inv_next_fresh d Hd) as Hfresh.
    set (n := Z.of_nat (size (Words d)) + 1) in *.
    split; simpl.
    + intros w' i. rewrite lookup_insert. case_decide as Hww.
      * intros [= <-]. subst w'. by rewrite lookup_insert_eq.
      * intros Hi. pose proof (inv_indices_words _ Hd _ _ Hi) as Hwi.
        rewrite lookup_insert_ne; [done|]. intros <-. congruence.
    + intros i w'. rewrite lookup_insert. case_decide as Hni.
      * intros [= <-]. subst i. by rewrite lookup_insert_eq.
      * intros Hi. pose proof (inv_words_indices _ Hd _ _ Hi) as Hwi.
        rewrite lookup_insert_ne; [done|]. intros <-. congruence.
    + intros i. rewrite (map_size_insert_None _ _ _ Hfresh).
      rewrite lookup_insert. case_decide as Hni.
      * subst i. split; [intros _; unfold n; lia | eauto].
      * rewrite (inv_dense _ Hd i). unfold n in Hni. lia.
Qed.

Lemma addAll_inv ws d : dict_inv d → dict_inv (addAll ws d).
Proof.
  revert d. induction ws as [|w ws IH]; intros d Hd; simpl; [done|].
  apply IH. by apply add_inv.
Qed.

Lemma addAll_app ws1 ws2 d : addAll (ws1 ++ ws2) d = addAll ws2 (addAll ws1 d).
Proof. unfold addAll. by rewrite foldl_app. Qed.

(** The identifier [add] returns is the one [getIndex] reports afterwards. *)
Lemma add_getIndex d w :
  (getIndex w (add w d).2).1 = (add w d).1.
Proof.
  unfold add, getIndex.
  destruct (Indices d !! w) as [i|] eqn:Hw.
  - destruct (decide (i ≠ unknownIndex)); cbn [fst snd Indices].
    + by rewrite Hw.
    + by rewrite lookup_insert_eq.
  - destruct (decide (unknownIndex ≠ unknownIndex)); cbn [fst snd Indices].
    + by rewrite Hw.
    + by rewrite lookup_insert_eq.
Qed.

Lemma add_pos d w : dict_inv d → 1 ≤ (add w d).1.
Proof.
  intros Hd. destruct (Indices d !! w) as [i|] eqn:Hw.
  - assert (i ≠ 0) as Hi by (intros ->; by apply (inv_no_zero d w Hd)).
    rewrite (add_present d w i Hw Hi). simpl.
    assert (is_Some (Words d !! i)) as Hs
      by (rewrite (inv_indices_words _ Hd _ _ Hw); eauto).
    apply (inv_dense _ Hd) in Hs. lia.
  - rewrite (add_absent d w Hw). simpl. lia.
Qed.

(** Entries already present survive [add] unchanged. *)
Lemma add_preserves_indices d w w' i :
  dict_inv d → Indices d !! w' = Some i → Indices (add w d).2 !! w' = Some i.
Proof.
  intros Hd Hi. destruct (Indices d !! w) as [j|] eqn:Hw.
  - assert (j ≠ 0) as Hj by (intros ->; by apply (inv_no_zero d w Hd)).
    by rewrite (add_present d w j Hw Hj).
  - rewrite (add_absent d w Hw). simpl.
    rewrite lookup_insert_ne; [done|]. intros <-. congruence.
Qed.

Lemma add_preserves_words d w i w' :
  dict_inv d → Words d !! i = Some w' → Words (add w d).2 !! i = Some w'.
Proof.
  intros Hd Hi. destruct (Indices d !! w) as [j|] eqn:Hw.
  - assert (j ≠ 0) as Hj by (intros ->; by apply (inv_no_zero d w Hd)).
    by rewrite (add_present d w j Hw Hj).
  - rewrite (add_absent d w Hw). simpl.
    rewrite lookup_insert_ne; [done|]. intros <-.
    rewrite (inv_next_fresh d Hd) in Hi. discriminate.
Qed.

Lemma add_indices_dom d a w :
  dict_inv d →
  is_Some (Indices (add a d).2 !! w) ↔ w = a ∨ is_Some (Indices d !! w).
Proof.
  intros Hd. destruct (Indices d !! a) as [j|] eqn:Ha.
  - assert (j ≠ 0) as Hj by (intros ->; by apply (inv_no_zero d a Hd)).
    rewrite (add_present d a j Ha Hj). simpl.
    split; [by right|]. intros [->|H]; [|done]. rewrite Ha. eauto.
  - rewrite (add_absent d a Ha). simpl.
    rewrite lookup_insert. case_decide as Haw.
    + subst a. split; [by left | eauto].
    + split; [by right|]. intros [->|H]; [done|done].
Qed.

(** A word is in [Indices] after a batch of adds iff it was there before
    or belongs to the batch. *)
Lemma addAll_indices ws d w :
  dict_inv d →
  is_Some (Indices (addAll ws d) !! w) ↔ w ∈ ws ∨ is_Some (Indices d !! w).
Proof.
  revert d. induction ws as [|a ws IH]; intros d Hd; simpl.
  - split; [by right|]. intros [H|H]; [|done]. by apply elem_of_nil in H.
  - rewrite (IH _ (add_inv d a Hd)), (add_indices_dom d a w Hd), elem_of_cons.
    tauto.
Qed.

Lemma newDictionary_indices w : Indices newDictionary !! w = None.
Proof. apply lookup_empty. Qed.

Lemma addAll_preserves_indices ws d w i :
  dict_inv d → Indices d !! w = Some i → Indices (addAll ws d) !! w = Some i.
Proof.
  revert d. induction ws as [|a ws IH]; intros d Hd Hi; [done|].
  cbn. apply IH; [by apply add_inv | by apply add_preserves_indices].
Qed.

(** The number of entries is the number of distinct words added so far. *)
Lemma addAll_size ws :
  size (Words (addAll ws newDictionary)) = size (list_to_set ws : gset string).
Proof.
  induction ws as [|w ws IH] using rev_ind; [done|].
  rewrite addAll_app. cbn.
  pose proof (addAll_inv ws _ newDictionary_inv) as Hd.
  pose proof (addAll_indices ws newDictionary w newDictionary_inv) as Hdom.
  rewrite list_to_set_app_L. cbn. rewrite union_empty_r_L.
  destruct (Indices (addAll ws newDictionary) !! w) as [j|] eqn:Hw.
  - assert (j ≠ 0) as Hj by (intros ->; by apply (inv_no_zero _ w Hd)).
    rewrite (add_present _ w j Hw Hj). cbn. rewrite IH.
    assert (w ∈ ws) as Hin.
    { destruct Hdom as [[?|[x Hx]] _]; [eauto|done|].
      by rewrite newDictionary_indices in Hx. }
    f_equal. rewrite union_comm_L. symmetry. apply subseteq_union_1_L.
    apply singleton_subseteq_l. by apply elem_of_list_to_set.
  - rewrite (add_absent _ w Hw). cbn.
    rewrite (map_size_insert_None _ _ _ (inv_next_fresh _ Hd)), IH.
    assert (w ∉ ws) as Hin.
    { intros Hin. destruct Hdom as [_ Hdom]. destruct Hdom as [x Hx]; [by left|].
      congruence. }
    rewrite size_union.
    + rewrite size_singleton. lia.
    + apply disjoint_singleton_r. by rewrite elem_of_list_to_set.
Qed.

(** Identifiers follow the order of first occurrence: the word first seen
    at position [k] gets one more than the number of distinct words before
    it. *)
Lemma addAll_first_seen ws k w :
  ws !! k = Some w → w ∉ take k ws →
  Indices (addAll ws newDictionary) !! w =
  Some (Z.of_nat (size (list_to_set (take k ws) : gset string)) + 1).
Proof.
  intros Hk Hnew.
  rewrite <- (take_drop_middle ws k w Hk) at 1.
  rewrite addAll_app. cbn.
  pose proof (addAll_inv (take k ws) _ newDictionary_inv) as Hd.
  apply addAll_preserves_indices; [by apply add_inv|].
  assert (Indices (addAll (take k ws) newDictionary) !! w = None) as Hw.
  { apply eq_None_not_Some. intros Hs.
    apply (addAll_indices _ _ _ newDictionary_inv) in Hs as [?|[x Hx]]; [done|].
    by rewrite newDictionary_indices in Hx. }
  rewrite (add_absent _ w Hw). cbn.
  by rewrite lookup_insert_eq, addAll_size.
Qed.

(** The invariant singles out the dictionaries [newDictionary] and [add]
    can build, and no others. *)
Lemma inv_reachable (d : Dictionary) :
  dict_inv d → ∃ ws, d = addAll ws newDictionary.
Proof.
  remember (size (Words d)) as n eqn:Hn. revert d Hn.
  induction n as [|k IH]; intros d Hn Hd.
  - exists []. destruct d as [W I]. cbn in *.
    symmetry in Hn. apply map_size_empty_inv in Hn. subst W.
    unfold newDictionary. f_equal. apply map_eq. intros w.
    rewrite lookup_empty. apply eq_None_not_Some. intros [i Hi].
    apply (inv_indices_words _ Hd) in Hi. cbn in Hi. by rewrite lookup_empty in Hi.
  - assert (is_Some (Words d !! (Z.of_nat k + 1))) as [w Hw].
    { apply (inv_dense _ Hd). lia. }
    pose proof (inv_words_indices _ Hd _ _ Hw) as Hi.
    set (d' := {| Words := delete (Z.of_nat k + 1) (Words d);
                  Indices := delete w (Indices d) |}).
    assert (size (Words d') = k) as Hsize.
    { cbn. rewrite map_size_delete_Some by eauto. lia. }
    assert (dict_inv d') as Hd'.
    { split; cbn [d' Words Indices].
      - intros w' i. rewrite lookup_delete. case_decide as Hww; [done|].
        intros Hi'. pose proof (inv_indices_words _ Hd _ _ Hi') as Hw'.
        rewrite lookup_delete_ne; [done|]. intros <-. congruence.
      - intros i w'. rewrite lookup_delete. case_decide as Hii; [done|].
        intros Hw'. pose proof (inv_words_indices _ Hd _ _ Hw') as Hi'.
        rewrite lookup_delete_ne; [done|]. intros <-. congruence.
      - intros i. change (delete (Z.of_nat k + 1) (Words d)) with (Words d') at 2.
        rewrite Hsize, lookup_delete. case_decide as Hii.
        + subst i. split; [by intros [? ?]|lia].
        + rewrite (inv_dense _ Hd i). lia. }
    destruct (IH d' (eq_sym Hsize) Hd') as [ws Hws].
    exists (ws ++ [w]). rewrite addAll_app, <- Hws. cbn.
    rewrite (add_absent d' w); [|cbn; apply lookup_delete_eq].
    cbn [snd]. rewrite Hsize. cbn [d' Words Indices].
    rewrite insert_delete_eq, insert_delete_eq.
    rewrite (insert_id _ _ _ Hw), (insert_id _ _ _ Hi). by destruct d.
Qed.

End DictionaryFacts.

(** ** Strings *)

Section StringFacts.

Lemma string_app_cons (x : Ascii.ascii) (a b : string) :
  String x a +:+ b = String x (a +:+ b).
Proof. reflexivity. Qed.

Lemma string_app_nil_r (a : string) : a +:+ "" = a.
Proof. induction a as [|c a IH]; [done|]. by rewrite string_app_cons, IH. Qed.

Lemma string_app_assoc (a b c : string) : (a +:+ b) +:+ c = a +:+ (b +:+ c).
Proof. induction a as [|x a IH]; [done|]. by rewrite !string_app_cons, IH. Qed.

Lemma string_length_app (a b : string) :
  String.length (a +:+ b) = (String.length a + String.length b)%nat.
Proof.
  induction a as [|x a IH]; [done|].
  rewrite string_app_cons. cbn [String.length]. by rewrite IH.
Qed.

Lemma spaces_app (a b : string) : spaces (a +:+ b) = (spaces a + spaces b)%nat.
Proof.
  induction a as [|x a IH]; [done|].
  rewrite string_app_cons. cbn [spaces]. rewrite IH. lia.
Qed.

(** A measure that is additive over concatenation gives a joined string
    the sum over its parts plus one separator between each two
    neighbours. *)
Lemma measure_concat (μ : string → nat) (sep : string) (l : list string) :
  μ "" = 0%nat → (∀ a b, μ (a +:+ b) = (μ a + μ b)%nat) →
  μ (String.concat sep l) = (total μ l + μ sep * (length l - 1))%nat.
Proof.
  intros Hnil Happ. induction l as [|x l IH]; [cbn; lia|].
  destruct l as [|y l].
  - cbn. lia.
  - change (String.concat sep (x :: y :: l))
      with (x +:+ sep +:+ String.concat sep (y :: l)).
    rewrite !Happ, IH. cbn [total foldr length]. lia.
Qed.

End StringFacts.

(** ** Running the operations *)

Section OperationFacts.
Context `{Collaborators} `{Platform}.

Lemma call_Some {A} (p : loc) (m : method A) (σ : session) (d : Dictionary) :
  heap σ !! p = Some d →
  call p m σ = Some ((m d).1, {| this := this σ; heap := <[p := (m d).2]> (heap σ) |}).
Proof. intros Hp. unfold call. rewrite Hp. by destruct (m d). Qed.

Lemma call_None {A} (p : loc) (m : method A) (σ : session) :
  heap σ !! p = None → call p m σ = None.
Proof. intros Hp. unfold call. by rewrite Hp. Qed.

(** A method that leaves its receiver alone leaves the session alone. *)
Lemma call_readonly {A} (p : loc) (m : method A) (σ : session) (d : Dictionary) :
  heap σ !! p = Some d → (m d).2 = d → call p m σ = Some ((m d).1, σ).
Proof.
  intros Hp Hm. rewrite (call_Some p m σ d Hp), Hm.
  rewrite (insert_id _ _ _ Hp). by destruct σ.
Qed.

Lemma indexTokens_length addWords ts d :
  length (indexTokens addWords ts d).1 = length ts.
Proof.
  revert d. induction ts as [|t ts IH]; intros d; [done|].
  cbn. by rewrite IH.
Qed.

Lemma indexTokens_resolve_state ts d : (indexTokens false ts d).2 = d.
Proof.
  induction ts as [|t ts IH]; [done|].
  cbn. by rewrite getIndex_state.
Qed.

Lemma indexTokens_resolve ts d :
  (indexTokens false ts d).1 =
  (λ t, {| indexedToken.Index := token.Index t;
           indexedToken.Line := token.Line t;
           indexedToken.ID := (getIndex (token.Text t) d).1 |}) <$> ts.
Proof.
  induction ts as [|t ts IH]; [done|].
  cbn. rewrite getIndex_state. by rewrite IH.
Qed.

Lemma indexTokens_grow_state ts d :
  (indexTokens true ts d).2 = addAll (token.Text <$> ts) d.
Proof.
  revert d. induction ts as [|t ts IH]; intros d; [done|].
  cbn. by rewrite IH.
Qed.

Lemma indexTokens_inv addWords ts d :
  dict_inv d → dict_inv (indexTokens addWords ts d).2.
Proof.
  destruct addWords.
  - rewrite indexTokens_grow_state. apply addAll_inv.
  - by rewrite indexTokens_resolve_state.
Qed.

(** The [k]-th indexed token in grow mode: the identifier is what [add]
    returns on the dictionary left by the tokens before it. *)
Lemma indexTokens_grow_lookup ts d k t :
  ts !! k = Some t →
  (indexTokens true ts d).1 !! k =
  Some {| indexedToken.Index := token.Index t;
          indexedToken.Line := token.Line t;
          indexedToken.ID :=
            (add (token.Text t) (addAll (token.Text <$> take k ts) d)).1 |}.
Proof.
  revert d k. induction ts as [|a ts IH]; intros d k Hk; [done|].
  destruct k as [|k].
  - injection Hk as ->. reflexivity.
  - cbn in Hk. cbn. by rewrite (IH _ _ Hk).
Qed.

Lemma indexTokens_resolve_lookup ts d k t :
  ts !! k = Some t →
  (indexTokens false ts d).1 !! k =
  Some {| indexedToken.Index := token.Index t;
          indexedToken.Line := token.Line t;
          indexedToken.ID := (getIndex (token.Text t) d).1 |}.
Proof.
  intros Hk. rewrite indexTokens_resolve, list_lookup_fmap, Hk. reflexivity.
Qed.

(** The token loop, run on a session whose heap holds the dictionary. *)
Lemma appendToken_loop addWords ts i id σ d :
  heap σ !! IndexedDocument.dict id = Some d →
  forRange ts i (λ _, appendToken addWords) id σ =
  Some (IndexedDocument.setTokens id
          (IndexedDocument.Tokens id ++ (indexTokens addWords ts d).1),
        {| this := this σ;
           heap := <[IndexedDocument.dict id := (indexTokens addWords ts d).2]> (heap σ) |}).
Proof.
  revert i id σ d. induction ts as [|t ts IH]; intros i id σ d Hd.
  - cbn. unfold ret. rewrite app_nil_r, (insert_id _ _ _ Hd).
    by destruct id, σ.
  - cbn [forRange]. unfold bind at 1. unfold appendToken at 1. unfold bind at 1.
    set (r := if addWords then add (token.Text t) d else getIndex (token.Text t) d).
    assert ((if addWords
             then call (IndexedDocument.dict id) (add (token.Text t))
             else call (IndexedDocument.dict id) (getIndex (token.Text t))) σ
            = Some (r.1, {| this := this σ;
                            heap := <[IndexedDocument.dict id := r.2]> (heap σ) |})) as ->.
    { unfold r. destruct addWords; by apply call_Some. }
    unfold ret at 1.
    rewrite (IH _ _ _ r.2); [|cbn; by rewrite lookup_insert_eq].
    cbn [indexTokens fst snd]. fold r. cbn.
    rewrite insert_insert_eq, <- app_assoc. reflexivity.
Qed.

(** Without tokens the loop touches nothing, allocated dictionary or not. *)
Lemma appendToken_loop_nil addWords i id σ :
  forRange [] i (λ _, appendToken addWords) id σ = Some (id, σ).
Proof. reflexivity. Qed.

Lemma writeWord_loop doc ts i w σ d :
  heap σ !! IndexedDocument.dict doc = Some d →
  i + Z.of_nat (length ts) = IndexedDocument.size doc →
  forRange ts i (writeWord doc) w σ =
  Some (w +:+ String.concat " " (wordsOf d ts), σ).
Proof.
  revert i w. induction ts as [|t ts IH]; intros i w Hd Hlen.
  - cbn. unfold ret. by rewrite string_app_nil_r.
  - cbn [forRange]. unfold bind at 1. unfold writeWord at 1. unfold bind at 1.
    rewrite (call_readonly _ _ _ d Hd (getWord_state _ d)).
    cbn [length] in Hlen.
    destruct ts as [|t' ts].
    + destruct (decide (i + 1 ≠ IndexedDocument.size doc)) as [Hne|_].
      { exfalso. apply Hne. cbn [length] in Hlen. lia. }
      unfold ret. cbn. reflexivity.
    + destruct (decide (i + 1 ≠ IndexedDocument.size doc)) as [_|He].
      2:{ exfalso. cbn [length] in Hlen. lia. }
      unfold ret at 1.
      rewrite (IH (i + 1) _ Hd); [|cbn [length] in *; lia].
      change (wordsOf d (t :: t' :: ts))
        with ((getWord (indexedToken.ID t) d).1 :: wordsOf d (t' :: ts)).
      change (String.concat " " (?x :: wordsOf d (t' :: ts)))
        with (x +:+ " " +:+ String.concat " " (wordsOf d (t' :: ts))).
      by rewrite !string_app_assoc.
Qed.

Lemma normalized_run doc σ d :
  heap σ !! IndexedDocument.dict doc = Some d →
  normalized doc σ = Some (String.concat " " (wordsOf d (IndexedDocument.Tokens doc)), σ).
Proof.
  intros Hd. unfold normalized.
  rewrite (writeWord_loop doc _ 0 "" σ d Hd); [done|].
  unfold IndexedDocument.size. lia.
Qed.

Lemma normalized_nil doc σ :
  IndexedDocument.Tokens doc = [] → normalized doc σ = Some ("", σ).
Proof. intros Ht. unfold normalized. by rewrite Ht. Qed.

Lemma generateIndexedDocument_run d addWords σ dd :
  heap σ !! Dict (this σ) = Some dd →
  generateIndexedDocument d addWords σ =
  Some (indexedOf (Dict (this σ)) (indexTokens addWords (document.Tokens d) dd).1
          (String.concat " "
             (wordsOf (indexTokens addWords (document.Tokens d) dd).2
                      (indexTokens addWords (document.Tokens d) dd).1)),
        {| this := this σ;
           heap := <[Dict (this σ) := (indexTokens addWords (document.Tokens d) dd).2]> (heap σ) |}).
Proof.
  intros Hd. unfold generateIndexedDocument.
  unfold bind at 1. unfold receiver at 1.
  unfold bind at 1.
  rewrite (appendToken_loop addWords _ 0 _ σ dd); [|exact Hd].
  cbn [IndexedDocument.Tokens IndexedDocument.dict app].
  unfold bind at 1.
  erewrite normalized_run; [reflexivity|].
  cbn. by rewrite lookup_insert_eq.
Qed.

Lemma generateIndexedDocument_empty d addWords σ :
  document.Tokens d = [] →
  generateIndexedDocument d addWords σ = Some (indexedOf (Dict (this σ)) [] "", σ).
Proof.
  intros Hd. unfold generateIndexedDocument. rewrite Hd. reflexivity.
Qed.

(** On a dangling [c.Dict] the first token already panics. *)
Lemma generateIndexedDocument_dangling d addWords σ :
  heap σ !! Dict (this σ) = None → document.Tokens d ≠ [] →
  generateIndexedDocument d addWords σ = None.
Proof.
  intros Hd Hts. unfold generateIndexedDocument.
  destruct (document.Tokens d) as [|t ts]; [done|].
  unfold bind at 1. unfold receiver at 1.
  unfold bind at 1. cbn [forRange]. unfold bind at 1.
  unfold appendToken at 1. unfold bind at 1.
  cbn [IndexedDocument.dict].
  destruct addWords; by rewrite call_None.
Qed.

(** Every successful run returns a document of the shape [indexedOf]. *)
Lemma generateIndexedDocument_shape d addWords σ id σ' :
  generateIndexedDocument d addWords σ = Some (id, σ') →
  ∃ its n, id = indexedOf (Dict (this σ)) its n ∧ length its = length (document.Tokens d).
Proof.
  intros Hrun. destruct (heap σ !! Dict (this σ)) as [dd|] eqn:Hd.
  - rewrite (generateIndexedDocument_run d addWords σ dd Hd) in Hrun.
    injection Hrun as <- _. eexists _, _. split; [reflexivity|].
    apply indexTokens_length.
  - destruct (document.Tokens d) as [|t ts] eqn:Hts.
    + rewrite (generateIndexedDocument_empty d addWords σ Hts) in Hrun.
      injection Hrun as <- _. by eexists _, _.
    + rewrite generateIndexedDocument_dangling in Hrun; [done|done|].
      by rewrite Hts.
Qed.

End OperationFacts.

(** ** Properties of the dictionary *)

Section DictionaryProperties.
Context `{Collaborators}.

(** C4. Round trip and stability of [add]: on every dictionary (one that
    satisfies the invariant of the type, as every dictionary built from
    [newDictionary] by [add] does) and for every word [w], non-empty ones
    in particular, the identifier [add w] returns is the one [getIndex w]
    returns afterwards, [getWord] maps it back to [w], and a second [add w]
    returns it again and leaves the dictionary as it is. *)
Theorem add_round_trip (d : Dictionary) (w : string) :
  dict_inv d →
  (getIndex w (add w d).2).1 = (add w d).1 ∧
  (getWord (add w d).1 (add w d).2).1 = w ∧
  add w (add w d).2 = ((add w d).1, (add w d).2).
Proof.
  intros Hd. split; [apply add_getIndex|].
  destruct (Indices d !! w) as [i|] eqn:Hw.
  - assert (i ≠ 0) as Hi by (intros ->; by apply (inv_no_zero d w Hd)).
    rewrite (add_present d w i Hw Hi). cbn [fst snd]. split.
    + unfold getWord. by rewrite (inv_indices_words _ Hd _ _ Hw).
    + by apply add_present.
  - rewrite (add_absent d w Hw). cbn [fst snd]. split.
    + unfold getWord. cbn [Words]. by rewrite lookup_insert_eq.
    + apply add_present; [cbn; by rewrite lookup_insert_eq | lia].
Qed.

(** C5. Allocation by [add]: a word that is present keeps its identifier
    and the dictionary is untouched; an absent word gets the number of
    existing entries plus one, recorded in both maps.  Hence the first
    identifier is 1, the identifiers in use are always exactly
    [1 .. len(Words)], every existing entry survives an [add] with its
    identifier, which is below the one a new word gets, and over a sequence
    of adds the word first seen at position [k] has one more than the number
    of distinct words before it. *)
Theorem add_allocates (d : Dictionary) (w : string) :
  dict_inv d →
  (∀ i, Indices d !! w = Some i → add w d = (i, d)) ∧
  (Indices d !! w = None →
   add w d = (Z.of_nat (size (Words d)) + 1,
              {| Words := <[Z.of_nat (size (Words d)) + 1 := w]> (Words d);
                 Indices := <[w := Z.of_nat (size (Words d)) + 1]> (Indices d) |})) ∧
  (add w newDictionary).1 = 1 ∧
  dict_inv (add w d).2 ∧
  (∀ w' i, Indices d !! w' = Some i →
     1 ≤ i ≤ Z.of_nat (size (Words d)) ∧
     (Indices d !! w = None → i < (add w d).1) ∧
     Indices (add w d).2 !! w' = Some i ∧
     Words (add w d).2 !! i = Some w') ∧
  (∀ ws k w', ws !! k = Some w' → w' ∉ take k ws →
     Indices (addAll ws newDictionary) !! w' =
     Some (Z.of_nat (size (list_to_set (take k ws) : gset string)) + 1)).
Proof.
  intros Hd. split; [|split; [|split; [|split; [|split]]]].
  - intros i Hi. apply add_present; [done|].
    intros ->. by apply (inv_no_zero d w Hd).
  - apply add_absent.
  - rewrite (add_absent newDictionary w (newDictionary_indices w)).
    cbn [fst newDictionary Words]. by rewrite map_size_empty.
  - by apply add_inv.
  - intros w' i Hi.
    assert (1 ≤ i ≤ Z.of_nat (size (Words d))) as Hrange.
    { apply (inv_dense _ Hd). rewrite (inv_indices_words _ Hd _ _ Hi). eauto. }
    split; [exact Hrange|]. split; [|split].
    + intros Hw. rewrite (add_absent d w Hw). cbn [fst]. lia.
    + by apply add_preserves_indices.
    + apply add_preserves_words; [done|]. by apply (inv_indices_words _ Hd).
  - intros ws k w'. apply addAll_first_seen.
Qed.

(** C6. Sentinels: [getIndex] of a word that is not in the dictionary (a
    word that was never added, for a dictionary built by adds) returns 0
    and leaves the dictionary as it is; [getWord] of 0 and of every
    identifier outside the assigned range [1 .. len(Words)] returns
    "UNKNOWN"; called through a pointer to an allocated dictionary both
    lookups return and leave the session as it is. *)
Theorem lookup_sentinels (d : Dictionary) :
  dict_inv d →
  (∀ w, Indices d !! w = None → getIndex w d = (0, d)) ∧
  (∀ ws w, w ∉ ws →
     getIndex w (addAll ws newDictionary) = (0, addAll ws newDictionary)) ∧
  getWord 0 d = ("UNKNOWN", d) ∧
  (∀ i, ¬ (1 ≤ i ≤ Z.of_nat (size (Words d))) → getWord i d = ("UNKNOWN", d)) ∧
  (∀ (σ : session) p w i, heap σ !! p = Some d →
     call p (getIndex w) σ = Some ((getIndex w d).1, σ) ∧
     call p (getWord i) σ = Some ((getWord i d).1, σ)).
Proof.
  intros Hd.
  assert (∀ i, ¬ (1 ≤ i ≤ Z.of_nat (size (Words d))) → getWord i d = ("UNKNOWN", d))
    as Hout.
  { intros i Hi. unfold getWord.
    destruct (Words d !! i) as [x|] eqn:Hx; [|done].
    exfalso. apply Hi. apply (inv_dense _ Hd). eauto. }
  split; [|split; [|split; [|split]]].
  - intros w Hw. unfold getIndex. by rewrite Hw.
  - intros ws w Hw. unfold getIndex.
    destruct (Indices (addAll ws newDictionary) !! w) as [i|] eqn:Hi; [|done].
    exfalso.
    assert (is_Some (Indices (addAll ws newDictionary) !! w)) as Hs by eauto.
    apply (addAll_indices _ _ _ newDictionary_inv) in Hs as [?|[x Hx]]; [done|].
    by rewrite newDictionary_indices in Hx.
  - apply Hout. lia.
  - exact Hout.
  - intros σ p w i Hp. split.
    + apply call_readonly; [done|apply getIndex_state].
    + apply call_readonly; [done|apply getWord_state].
Qed.

End DictionaryProperties.

(** ** Properties of indexing *)

Section IndexingProperties.
Context `{Collaborators} `{Platform}.

Lemma indexedOf_Tokens p its n : IndexedDocument.Tokens (indexedOf p its n) = its.
Proof. reflexivity. Qed.

Lemma indexedOf_norm p its n : IndexedDocument.norm (indexedOf p its n) = n.
Proof. reflexivity. Qed.

Lemma indexedOf_f p its n :
  IndexedDocument.f (indexedOf p its n) = Some (frequenciesOf (indexedToken.ID <$> its)).
Proof. reflexivity. Qed.

Lemma indexedOf_s p its n : IndexedDocument.s (indexedOf p its n) = None.
Proof. reflexivity. Qed.

(** C7. Token sequence of the result: with the dictionary [dd] behind
    [c.Dict], [generateIndexedDocument] returns a document with one indexed
    token per input token, in input order; the token at position [k] carries
    the [Index] and [Line] of the input token at [k], and its [ID] is what
    [add] returns for the token's text on the dictionary left by the tokens
    before it (grow mode), or what [getIndex] returns for it on [dd]
    (resolve mode).  A document without tokens gives a result without
    tokens and an empty normalized string, on every session. *)
Theorem generateIndexedDocument_tokens
    (d : document.t) (addWords : bool) (σ : session) (dd : Dictionary) :
  heap σ !! Dict (this σ) = Some dd →
  (∃ id σ', generateIndexedDocument d addWords σ = Some (id, σ') ∧
     length (IndexedDocument.Tokens id) = length (document.Tokens d) ∧
     ∀ k t, document.Tokens d !! k = Some t →
       IndexedDocument.Tokens id !! k =
       Some {| indexedToken.Index := token.Index t;
               indexedToken.Line := token.Line t;
               indexedToken.ID :=
                 if addWords
                 then (add (token.Text t)
                         (addAll (token.Text <$> take k (document.Tokens d)) dd)).1
                 else (getIndex (token.Text t) dd).1 |}) ∧
  (∀ (σ0 : session), ∃ id,
     generateIndexedDocument (document.mk []) addWords σ0 = Some (id, σ0) ∧
     IndexedDocument.Tokens id = [] ∧ IndexedDocument.norm id = "").
Proof.
  intros Hd. split.
  - rewrite (generateIndexedDocument_run d addWords σ dd Hd).
    eexists _, _. split; [reflexivity|].
    rewrite indexedOf_Tokens. split; [apply indexTokens_length|].
    intros k t Hk. destruct addWords.
    + by apply indexTokens_grow_lookup.
    + by apply indexTokens_resolve_lookup.
  - intros σ0. eexists. split; [by apply generateIndexedDocument_empty|].
    by rewrite indexedOf_Tokens, indexedOf_norm.
Qed.

(** C3. Resolve mode changes nothing: whenever [generateIndexedDocument]
    with [addWords = false], or [createTargetIndexedDocument], returns, the
    session after the call is the session before it, so the dictionary has
    the same [Words], the same [Indices] and the same size, whatever words
    the document holds, and [Docs] has no new entry; with a dictionary
    behind [c.Dict] both calls do return. *)
Theorem resolve_mode_frame (d : document.t) (content : list Byte.byte) (σ : session) :
  (∀ id σ', generateIndexedDocument d false σ = Some (id, σ') →
     σ' = σ ∧ heap σ' !! Dict (this σ') = heap σ !! Dict (this σ) ∧
     Docs (this σ') = Docs (this σ)) ∧
  (∀ id σ', createTargetIndexedDocument content σ = Some (id, σ') →
     σ' = σ ∧ heap σ' !! Dict (this σ') = heap σ !! Dict (this σ) ∧
     Docs (this σ') = Docs (this σ)) ∧
  (∀ dd, heap σ !! Dict (this σ) = Some dd →
     (∃ id, generateIndexedDocument d false σ = Some (id, σ)) ∧
     (∃ id, createTargetIndexedDocument content σ = Some (id, σ))).
Proof.
  assert (∀ d0 id σ', generateIndexedDocument d0 false σ = Some (id, σ') → σ' = σ)
    as Hframe.
  { intros d0 id σ' Hrun.
    destruct (heap σ !! Dict (this σ)) as [dd|] eqn:Hd.
    - rewrite (generateIndexedDocument_run d0 false σ dd Hd) in Hrun.
      rewrite indexTokens_resolve_state, (insert_id _ _ _ Hd) in Hrun.
      injection Hrun as _ <-. by destruct σ.
    - destruct (document.Tokens d0) as [|t ts] eqn:Hts.
      + rewrite (generateIndexedDocument_empty d0 false σ Hts) in Hrun.
        by injection Hrun as _ <-.
      + rewrite generateIndexedDocument_dangling in Hrun; [done|done|].
        by rewrite Hts. }
  assert (∀ d0 dd, heap σ !! Dict (this σ) = Some dd →
            ∃ id, generateIndexedDocument d0 false σ = Some (id, σ)) as Htotal.
  { intros d0 dd Hd. rewrite (generateIndexedDocument_run d0 false σ dd Hd).
    rewrite indexTokens_resolve_state, (insert_id _ _ _ Hd).
    eexists. by destruct σ. }
  split; [|split].
  - intros id σ' Hrun. by rewrite (Hframe _ _ _ Hrun).
  - intros id σ' Hrun. unfold createTargetIndexedDocument in Hrun.
    by rewrite (Hframe _ _ _ Hrun).
  - intros dd Hd. split; [by eapply Htotal|].
    unfold createTargetIndexedDocument. by eapply Htotal.
Qed.

(** C1, as the code has it.  Whenever [generateIndexedDocument] returns, in
    either mode, the result has its frequency table attached (the function
    calls [generateFrequencies] itself, on the finished token sequence) and
    has no search set; the search set appears with a call of
    [generateSearchSet]. *)
Theorem generateIndexedDocument_artifacts
    (d : document.t) (addWords : bool) (σ σ' : session) (id : IndexedDocument.t) :
  generateIndexedDocument d addWords σ = Some (id, σ') →
  IndexedDocument.f id = Some (frequenciesOf (IndexedDocument.ids id)) ∧
  IndexedDocument.s id = None ∧
  ∀ q, IndexedDocument.s (generateSearchSet id q) = Some (newSearchSet id q).
Proof.
  intros Hrun.
  destruct (generateIndexedDocument_shape d addWords σ id σ' Hrun) as (its & n & -> & _).
  split; [apply indexedOf_f|]. split; [apply indexedOf_s|]. reflexivity.
Qed.

End IndexingProperties.

(** ** Properties of the normalized string *)

Section NormalizedProperties.
Context `{Collaborators} `{Platform}.

(** C8. [normalized] returns the words of the token identifiers, in token
    order, joined by single spaces, where the word of an identifier is the
    text the dictionary's [Words] map holds for it, and "UNKNOWN" when the
    map holds none (so, on a well-formed dictionary, the word whose stored
    identifier it is): the empty string without tokens (on every session);
    with [tokenCount] tokens, [tokenCount - 1] separators beyond the
    characters of the words themselves (counted in spaces and in length);
    the word "UNKNOWN" for the sentinel identifier 0; and the same string
    again, with the session untouched, when computed a second time. *)
Theorem normalized_spec (doc : IndexedDocument.t) (σ : session) (d : Dictionary) :
  heap σ !! IndexedDocument.dict doc = Some d →
  ∃ n, normalized doc σ = Some (n, σ) ∧
    n = String.concat " " (wordsOf d (IndexedDocument.Tokens doc)) ∧
    n = String.concat " "
          ((λ t, default "UNKNOWN" (Words d !! indexedToken.ID t))
             <$> IndexedDocument.Tokens doc) ∧
    (∀ k t w, IndexedDocument.Tokens doc !! k = Some t →
       Words d !! indexedToken.ID t = Some w →
       wordsOf d (IndexedDocument.Tokens doc) !! k = Some w) ∧
    (∀ k t, IndexedDocument.Tokens doc !! k = Some t →
       Words d !! indexedToken.ID t = None →
       wordsOf d (IndexedDocument.Tokens doc) !! k = Some "UNKNOWN") ∧
    (dict_inv d → ∀ k t w, IndexedDocument.Tokens doc !! k = Some t →
       Indices d !! w = Some (indexedToken.ID t) →
       wordsOf d (IndexedDocument.Tokens doc) !! k = Some w) ∧
    (IndexedDocument.Tokens doc = [] → n = "") ∧
    spaces n = (total spaces (wordsOf d (IndexedDocument.Tokens doc)) +
                (length (IndexedDocument.Tokens doc) - 1))%nat ∧
    String.length n = (total String.length (wordsOf d (IndexedDocument.Tokens doc)) +
                       (length (IndexedDocument.Tokens doc) - 1))%nat ∧
    (dict_inv d → ∀ k t, IndexedDocument.Tokens doc !! k = Some t →
       indexedToken.ID t = 0 →
       wordsOf d (IndexedDocument.Tokens doc) !! k = Some "UNKNOWN") ∧
    (do n1 <- normalized doc; do n2 <- normalized doc; ret (n1, n2)) σ
      = Some ((n, n), σ) ∧
    (∀ (doc0 : IndexedDocument.t) (σ0 : session),
       IndexedDocument.Tokens doc0 = [] → normalized doc0 σ0 = Some ("", σ0)).
Proof.
  intros Hd. eexists. split; [by apply normalized_run|].
  split; [reflexivity|].
  assert (∀ k t w, IndexedDocument.Tokens doc !! k = Some t →
            Words d !! indexedToken.ID t = Some w →
            wordsOf d (IndexedDocument.Tokens doc) !! k = Some w) as Hword.
  { intros k t w Hk Hw. unfold wordsOf. rewrite list_lookup_fmap, Hk. cbn.
    unfold getWord. by rewrite Hw. }
  split.
  { f_equal. unfold wordsOf. apply list_fmap_ext. intros k t _.
    unfold getWord. by destruct (Words d !! indexedToken.ID t). }
  split; [exact Hword|].
  split.
  { intros k t Hk Hw. unfold wordsOf. rewrite list_lookup_fmap, Hk. cbn.
    unfold getWord. by rewrite Hw. }
  split.
  { intros Hinv k t w Hk Hw. apply (Hword k t w Hk).
    by apply (inv_indices_words _ Hinv). }
  split; [by intros ->|].
  assert (length (wordsOf d (IndexedDocument.Tokens doc))
          = length (IndexedDocument.Tokens doc)) as Hlen
    by (unfold wordsOf; by rewrite length_fmap).
  split; [|split; [|split]].
  - rewrite (measure_concat spaces); [|done|apply spaces_app].
    rewrite Hlen. cbn. lia.
  - rewrite (measure_concat String.length); [|done|apply string_length_app].
    rewrite Hlen. cbn. lia.
  - intros Hinv k t Hk Hid. unfold wordsOf.
    rewrite list_lookup_fmap, Hk. cbn. rewrite Hid.
    unfold getWord.
    destruct (Words d !! 0) as [x|] eqn:Hx; [|done].
    exfalso. assert (is_Some (Words d !! 0)) as Hs by eauto.
    apply (inv_dense _ Hinv) in Hs. lia.
  - split; [|intros doc0 σ0; apply normalized_nil].
    unfold bind. rewrite (normalized_run doc σ d Hd).
    by rewrite (normalized_run doc σ d Hd).
Qed.

End NormalizedProperties.

(** ** Properties of the registry *)

Section RegistryProperties.
Context `{Collaborators} `{Platform}.

Lemma addDocument_run category name variant doc (σ : session) dd :
  heap σ !! Dict (this σ) = Some dd →
  addDocument category name variant doc σ =
  Some (tt,
        {| this :=
             setDocs (this σ)
               (<[generateDocName category name variant :=
                    corpusEntry
                      (indexedOf (Dict (this σ))
                         (indexTokens true (document.Tokens doc) dd).1
                         (String.concat " "
                            (wordsOf (indexTokens true (document.Tokens doc) dd).2
                                     (indexTokens true (document.Tokens doc) dd).1)))
                      (Q (this σ))
                      (generateDocName category name variant)]>
                  (Docs (this σ)));
           heap := <[Dict (this σ) := (indexTokens true (document.Tokens doc) dd).2]>
                     (heap σ) |}).
Proof.
  intros Hd. unfold addDocument. unfold bind at 1.
  rewrite (generateIndexedDocument_run doc true σ dd Hd).
  reflexivity.
Qed.

Lemma getIndexedDocument_run category name variant (σ : session) :
  getIndexedDocument category name variant σ =
  Some (Docs (this σ) !! generateDocName category name variant, σ).
Proof. reflexivity. Qed.

Lemma corpusEntry_Tokens id q indexName :
  IndexedDocument.Tokens (corpusEntry id q indexName) = IndexedDocument.Tokens id.
Proof. reflexivity. Qed.

(** C9. Add, then look up: with a dictionary behind [c.Dict], [addDocument]
    returns, and [getIndexedDocument] with the same triple then finds an
    entry whose tokens, identifiers included, are those
    [generateIndexedDocument] in grow mode yields for the same document on
    the session before the add.  A second [addDocument] with the same
    triple leaves the registry as if the first had never stored its entry:
    the key now holds the entry built from the second document. *)
Theorem addDocument_lookup
    (category name variant : string) (doc doc2 : document.t)
    (σ : session) (dd : Dictionary) :
  heap σ !! Dict (this σ) = Some dd →
  ∃ σ1 e1 id1 σg1,
    addDocument category name variant doc σ = Some (tt, σ1) ∧
    getIndexedDocument category name variant σ1 = Some (Some e1, σ1) ∧
    generateIndexedDocument doc true σ = Some (id1, σg1) ∧
    IndexedDocument.Tokens e1 = IndexedDocument.Tokens id1 ∧
    IndexedDocument.ids e1 = IndexedDocument.ids id1 ∧
    ∃ σ2 e2 id2 σg2,
      addDocument category name variant doc2 σ1 = Some (tt, σ2) ∧
      getIndexedDocument category name variant σ2 = Some (Some e2, σ2) ∧
      generateIndexedDocument doc2 true σ1 = Some (id2, σg2) ∧
      IndexedDocument.Tokens e2 = IndexedDocument.Tokens id2 ∧
      IndexedDocument.ids e2 = IndexedDocument.ids id2 ∧
      Docs (this σ2) =
        <[generateDocName category name variant := e2]> (Docs (this σ)).
Proof.
  intros Hd.
  eexists _, _, _, _.
  split; [by apply addDocument_run|].
  split; [rewrite getIndexedDocument_run; cbn; by rewrite lookup_insert_eq|].
  split; [by apply generateIndexedDocument_run|].
  split; [reflexivity|]. split; [reflexivity|].
  set (d1 := (indexTokens true (document.Tokens doc) dd).2).
  eexists _, _, _, _.
  split; [apply (addDocument_run _ _ _ _ _ d1); cbn; by rewrite lookup_insert_eq|].
  split; [rewrite getIndexedDocument_run; cbn; by rewrite lookup_insert_eq|].
  split; [apply (generateIndexedDocument_run _ _ _ d1); cbn; by rewrite lookup_insert_eq|].
  split; [reflexivity|]. split; [reflexivity|].
  cbn. by rewrite insert_insert_eq.
Qed.

Lemma generateDocName_shift (a b c v : string) :
  generateDocName (a +:+ String PathSeparator b) c v =
  generateDocName a (b +:+ String PathSeparator c) v.
Proof.
  unfold generateDocName.
  by rewrite !string_app_assoc, !string_app_cons.
Qed.

Lemma string_app_cons_ne (a b : string) (x : Ascii.ascii) : a +:+ String x b ≠ a.
Proof.
  intros Heq. apply (f_equal String.length) in Heq.
  rewrite string_length_app in Heq. cbn in Heq. lia.
Qed.

(** C10. [generateDocName] is not injective: moving the path separator
    from inside the category to inside the name gives a different triple
    with the same key, for all strings [a], [b], [c], [v].  With a
    dictionary behind [c.Dict], adding a document under the second triple
    after one under the first leaves a single entry for the shared key, the
    one built from the second document, and lookups by either triple return
    it. *)
Theorem generateDocName_not_injective (a b c v : string) :
  (a +:+ String PathSeparator b, c, v) ≠ (a, b +:+ String PathSeparator c, v) ∧
  generateDocName (a +:+ String PathSeparator b) c v =
  generateDocName a (b +:+ String PathSeparator c) v ∧
  ∀ (doc1 doc2 : document.t) (σ : session) (dd : Dictionary),
    heap σ !! Dict (this σ) = Some dd →
    ∃ σ1 σ2 e1 e2 id2 σg2,
      addDocument (a +:+ String PathSeparator b) c v doc1 σ = Some (tt, σ1) ∧
      getIndexedDocument (a +:+ String PathSeparator b) c v σ1 = Some (Some e1, σ1) ∧
      addDocument a (b +:+ String PathSeparator c) v doc2 σ1 = Some (tt, σ2) ∧
      getIndexedDocument (a +:+ String PathSeparator b) c v σ2 = Some (Some e2, σ2) ∧
      getIndexedDocument a (b +:+ String PathSeparator c) v σ2 = Some (Some e2, σ2) ∧
      generateIndexedDocument doc2 true σ1 = Some (id2, σg2) ∧
      IndexedDocument.Tokens e2 = IndexedDocument.Tokens id2 ∧
      Docs (this σ2) =
        <[generateDocName a (b +:+ String PathSeparator c) v := e2]> (Docs (this σ)).
Proof.
  split; [|split; [apply generateDocName_shift|]].
  - intros [= Heq _]. by apply string_app_cons_ne in Heq.
  - intros doc1 doc2 σ dd Hd.
    set (d1 := (indexTokens true (document.Tokens doc1) dd).2).
    eexists _, _, _, _, _, _.
    split; [by apply addDocument_run|].
    split; [rewrite getIndexedDocument_run; cbn; by rewrite lookup_insert_eq|].
    split; [apply (addDocument_run _ _ _ _ _ d1); cbn; by rewrite lookup_insert_eq|].
    split; [rewrite getIndexedDocument_run, generateDocName_shift; cbn;
            by rewrite lookup_insert_eq|].
    split; [rewrite getIndexedDocument_run; cbn; by rewrite lookup_insert_eq|].
    split; [apply (generateIndexedDocument_run _ _ _ d1); cbn; by rewrite lookup_insert_eq|].
    split; [reflexivity|].
    cbn. by rewrite generateDocName_shift, insert_insert_eq.
Qed.

End RegistryProperties.

(** ** binary64 arithmetic *)

Section Binary64.


Section Digits.

Lemma digits2_size (m : positive) : digits2_pos m = Pos.size m.
Proof. induction m; cbn; congruence. Qed.

Lemma digits2_bounds (m : positive) :
  2 ^ (Z.pos (digits2_pos m) - 1) <= Z.pos m < 2 ^ Z.pos (digits2_pos m).
Proof.
  rewrite digits2_size. split.
  - pose proof (Pos.size_le m) as H.
    assert (Z.pos (2 ^ Pos.size m) <= Z.pos (m~0)) as H' by exact H.
    rewrite Pos2Z.inj_pow in H'.
    replace (Z.pos (Pos.size m)) with (Z.succ (Z.pos (Pos.size m) - 1)) in H' by lia.
    rewrite Z.pow_succ_r in H' by lia. lia.
  - pose proof (Pos.size_gt m) as H.
    assert (Z.pos m < Z.pos (2 ^ Pos.size m)) as H' by exact H.
    by rewrite Pos2Z.inj_pow in H'.
Qed.

End Digits.

Section Rounding.

Lemma shr_1_m (r : shr_record) : 0 <= shr_m r -> shr_m (shr_1 r) = shr_m r / 2.
Proof.
  destruct r as [m r s]. cbn [shr_m]. intros Hm.
  destruct m as [|[p|p|]|p]; cbn [shr_1 shr_m]; try lia.
  - reflexivity.
  - rewrite Pos2Z.inj_xI. apply Z.div_unique with (r := 1); lia.
  - rewrite Pos2Z.inj_xO. apply Z.div_unique with (r := 0); lia.
  - reflexivity.
Qed.

Lemma iter_shr_1_m (p : positive) (r : shr_record) :
  0 <= shr_m r ->
  shr_m (SpecFloat.iter_pos shr_1 p r) = shr_m r / 2 ^ Z.pos p.
Proof.
  revert r. induction p as [p IH|p IH|]; intros r Hr; cbn [SpecFloat.iter_pos].
  - assert (0 <= shr_m (shr_1 r)) as H1
      by (rewrite shr_1_m by done; apply Z.div_pos; lia).
    assert (0 <= shr_m (SpecFloat.iter_pos shr_1 p (shr_1 r))) as H2
      by (rewrite IH by done; apply Z.div_pos; lia).
    rewrite IH, IH, shr_1_m by done.
    rewrite !Z.div_div by lia.
    f_equal. rewrite <- Z.pow_add_r by lia.
    change 2 with (2 ^ 1) at 1. rewrite <- Z.pow_add_r by lia.
    f_equal. lia.
  - assert (0 <= shr_m (SpecFloat.iter_pos shr_1 p r)) as H2
      by (rewrite IH by done; apply Z.div_pos; lia).
    rewrite IH, IH by done.
    rewrite !Z.div_div by lia.
    f_equal. rewrite <- Z.pow_add_r by lia. f_equal. lia.
  - by apply shr_1_m.
Qed.

Lemma shr_record_of_loc_m (m : Z) (l : location) : shr_m (shr_record_of_loc m l) = m.
Proof. by destruct l as [|[]]. Qed.

Lemma loc_of_shr_record_of_loc (m : Z) (l : location) :
  loc_of_shr_record (shr_record_of_loc m l) = l.
Proof. by destruct l as [|[]]. Qed.

(** The first component of [shr_fexp]: the mantissa is shifted right by the
    number of bits it exceeds the format by. *)
Lemma shr_fexp_m (m e : Z) (l : location) :
  0 <= m ->
  let k := Z.max 0 (fexp F64.prec F64.emax (Zdigits2 m + e) - e) in
  shr_m (shr_fexp F64.prec F64.emax m e l).1 = m / 2 ^ k /\
  (shr_fexp F64.prec F64.emax m e l).2 = e + k.
Proof.
  intros Hm k. unfold shr_fexp, shr. subst k.
  destruct (fexp F64.prec F64.emax (Zdigits2 m + e) - e) as [|p|p] eqn:Hk; cbn [fst snd].
  - rewrite shr_record_of_loc_m. change (Z.max 0 0) with 0.
    rewrite Z.pow_0_r, Z.div_1_r. lia.
  - rewrite iter_shr_1_m by (by rewrite shr_record_of_loc_m).
    rewrite shr_record_of_loc_m.
    replace (Z.max 0 (Z.pos p)) with (Z.pos p) by lia. done.
  - rewrite shr_record_of_loc_m.
    replace (Z.max 0 (Z.neg p)) with 0 by lia.
    rewrite Z.pow_0_r, Z.div_1_r. lia.
Qed.

Lemma round_nearest_even_bounds (m : Z) (l : location) :
  m <= round_nearest_even m l <= m + 1.
Proof. destruct l as [|[]]; cbn; try lia. destruct (Z.even m); lia. Qed.

Lemma binary_round_aux_finish (s : bool) (m e : Z) (l : location) :
  binary_round_aux F64.prec F64.emax s m e l =
  finish s (round_nearest_even (shr_m (shr_fexp F64.prec F64.emax m e l).1)
              (loc_of_shr_record (shr_fexp F64.prec F64.emax m e l).1))
           (shr_fexp F64.prec F64.emax m e l).2.
Proof.
  unfold binary_round_aux, finish.
  by destruct (shr_fexp F64.prec F64.emax m e l) as [mrs e'].
Qed.

Lemma finish_spec (s : bool) (m e : Z) :
  0 <= m ->
  let k := Z.max 0 (fexp F64.prec F64.emax (Zdigits2 m + e) - e) in
  finish s m e =
  match m / 2 ^ k with
  | Z0 => S754_zero s
  | Zpos mf => if e + k <=? F64.emax - F64.prec then S754_finite s mf (e + k) else S754_infinity s
  | _ => S754_nan
  end.
Proof.
  intros Hm k. unfold finish.
  destruct (shr_fexp_m m e loc_Exact Hm) as [H1 H2]. fold k in H1, H2.
  destruct (shr_fexp F64.prec F64.emax m e loc_Exact) as [mrs e']. cbn [fst snd] in *.
  by rewrite H1, H2.
Qed.

End Rounding.

Section Format.

Lemma fexp_eq (x : Z) : fexp F64.prec F64.emax x = Z.max (x - 53) (-1074).
Proof. reflexivity. Qed.

Lemma digits2_unique (m : positive) (d : Z) :
  2 ^ (d - 1) <= Z.pos m < 2 ^ d -> Z.pos (digits2_pos m) = d.
Proof.
  intros [Hlo Hhi]. pose proof (digits2_bounds m) as [Hlo' Hhi'].
  destruct (Z.lt_trichotomy (Z.pos (digits2_pos m)) d) as [Hlt|[Heq|Hgt]]; [|done|].
  - exfalso.
    assert (2 ^ Z.pos (digits2_pos m) <= 2 ^ (d - 1)) by (apply Z.pow_le_mono_r; lia).
    lia.
  - exfalso.
    assert (0 <= d).
    { destruct (Z.le_gt_cases 0 d) as [?|Hneg]; [done|].
      rewrite (Z.pow_neg_r 2 d) in Hhi by lia. lia. }
    assert (2 ^ d <= 2 ^ (Z.pos (digits2_pos m) - 1)) by (apply Z.pow_le_mono_r; lia).
    lia.
Qed.

Lemma Zdigits2_pos (m : positive) : Zdigits2 (Z.pos m) = Z.pos (digits2_pos m).
Proof. reflexivity. Qed.

Lemma Zdigits2_nonneg (m : Z) : 0 <= Zdigits2 m.
Proof. destruct m; cbn; lia. Qed.

(** For a natural number below [2 ^ d] the digit count is at most [d]. *)
Lemma Zdigits2_le (m d : Z) : 0 <= d -> 0 <= m < 2 ^ d -> Zdigits2 m <= d.
Proof.
  intros Hd [Hm Hlt]. destruct m as [|p|p]; [cbn; lia| |lia].
  rewrite Zdigits2_pos. pose proof (digits2_bounds p) as [Hlo _].
  destruct (Z.le_gt_cases (Z.pos (digits2_pos p)) d) as [?|Hgt]; [done|].
  exfalso.
  assert (2 ^ d <= 2 ^ (Z.pos (digits2_pos p) - 1)) by (apply Z.pow_le_mono_r; lia).
  lia.
Qed.

Lemma iter_xO (m d : positive) : Z.pos (Pos.iter xO m d) = Z.pos m * 2 ^ Z.pos d.
Proof.
  induction d as [|d IH] using Pos.peano_ind.
  - cbn. lia.
  - rewrite Pos.iter_succ, Pos2Z.inj_xO, IH, Pos2Z.inj_succ, Z.pow_succ_r by lia. lia.
Qed.

Lemma shl_align_spec (m : positive) (e e' : Z) :
  (shl_align m e e').2 = Z.min e e' /\
  Z.pos (shl_align m e e').1 = Z.pos m * 2 ^ (e - Z.min e e').
Proof.
  unfold shl_align. destruct (e' - e) as [|p|p] eqn:Hd; cbn [fst snd].
  - replace (Z.min e e') with e by lia. rewrite Z.sub_diag. lia.
  - replace (Z.min e e') with e by lia. rewrite Z.sub_diag. lia.
  - replace (Z.min e e') with e' by lia. rewrite iter_xO.
    split; [done|]. f_equal. f_equal. lia.
Qed.

(** A positive float64 below [1.0]. *)
Lemma below_one_shape (t : spec_float) :
  F64.valid t = true -> SFltb F64.zero t = true -> SFltb t F64.one = true ->
  exists m e, t = S754_finite false m e /\
    -1074 <= e <= -53 /\ Z.pos (digits2_pos m) <= 53 /\
    (e = -53 -> Z.pos (digits2_pos m) = 53).
Proof.
  intros Hv H0 H1. destruct t as [s|s| |s m e]; try (by destruct s); try done.
  destruct s; [done|].
  exists m, e. split; [done|].
  unfold F64.valid, valid_binary, bounded, canonical_mantissa in Hv.
  apply andb_true_iff in Hv as [Hc _]. apply Z.eqb_eq in Hc.
  rewrite fexp_eq in Hc.
  assert (e < -52) as He.
  { unfold SFltb, SFcompare, F64.one in H1.
    destruct (Z.compare_spec e (-52)) as [He|He|He]; [|done|done].
    subst e. exfalso.
    assert (Z.pos (digits2_pos m) = 53) as Hd by lia.
    pose proof (digits2_bounds m) as [Hlo _]. rewrite Hd in Hlo.
    rewrite Pos.compare_cont_spec in H1. cbn [Pos.switch_Eq] in H1.
    destruct (Pos.compare_spec m 4503599627370496) as [Hm|Hm|Hm];
      try discriminate H1.
    apply Pos2Z.pos_lt_pos in Hm.
    change (2 ^ (53 - 1)) with 4503599627370496 in Hlo. lia. }
  lia.
Qed.

End Format.

Section Subtraction.

Lemma shr_fexp_noshift (m e : Z) (l : location) :
  fexp F64.prec F64.emax (Zdigits2 m + e) - e <= 0 ->
  shr_fexp F64.prec F64.emax m e l = (shr_record_of_loc m l, e).
Proof.
  intros Hk. unfold shr_fexp, shr.
  destruct (fexp F64.prec F64.emax (Zdigits2 m + e) - e) as [|p|p]; [done|lia|done].
Qed.

(** A mantissa that already fits the format passes through unchanged. *)
Lemma binary_round_aux_canonical (s : bool) (m : positive) (e : Z) :
  fexp F64.prec F64.emax (Z.pos (digits2_pos m) + e) <= e -> e <= 971 ->
  binary_round_aux F64.prec F64.emax s (Z.pos m) e loc_Exact = S754_finite s m e.
Proof.
  intros Hk He.
  rewrite binary_round_aux_finish, shr_fexp_noshift by (rewrite Zdigits2_pos; lia).
  cbn [fst snd shr_record_of_loc shr_m loc_of_shr_record round_nearest_even].
  rewrite finish_spec by lia. rewrite Zdigits2_pos.
  replace (Z.max 0 (fexp F64.prec F64.emax (Z.pos (digits2_pos m) + e) - e)) with 0 by lia.
  rewrite Z.pow_0_r, Z.div_1_r, Z.add_0_r.
  destruct (Z.leb_spec e (F64.emax - F64.prec)) as [_|Hgt]; [done|].
  unfold F64.emax, F64.prec in Hgt. lia.
Qed.

Lemma binary_round_unfold (s : bool) (m : positive) (e : Z) :
  binary_round F64.prec F64.emax s m e =
  binary_round_aux F64.prec F64.emax s
    (Z.pos (shl_align m e (fexp F64.prec F64.emax (Z.pos (digits2_pos m) + e))).1)
    (shl_align m e (fexp F64.prec F64.emax (Z.pos (digits2_pos m) + e))).2 loc_Exact.
Proof.
  unfold binary_round.
  by destruct (shl_align m e (fexp F64.prec F64.emax (Z.pos (digits2_pos m) + e))).
Qed.

Lemma sub_one_unfold (m : positive) (e : Z) :
  e <= -53 -> Z.pos m < 2 ^ (- e) ->
  F64.sub F64.one (S754_finite false m e) =
  binary_round F64.prec F64.emax false (Z.to_pos (2 ^ (- e) - Z.pos m)) e.
Proof.
  intros He Hm. unfold F64.sub, SFsub, F64.one.
  replace (Z.min (-52) e) with e by lia.
  destruct (shl_align_spec 4503599627370496 (-52) e) as [_ H1].
  destruct (shl_align_spec m e e) as [_ H2].
  rewrite H1, H2. cbn [cond_Zopp].
  replace (Z.min (-52) e) with e by lia.
  rewrite Z.min_id, Z.sub_diag, Z.pow_0_r, Z.mul_1_r.
  replace (4503599627370496 * 2 ^ (-52 - e)) with (2 ^ (- e)).
  2:{ change 4503599627370496 with (2 ^ 52). rewrite <- Z.pow_add_r by lia.
      f_equal. lia. }
  unfold binary_normalize.
  destruct (2 ^ (- e) - Z.pos m) as [|p|p] eqn:HM; [lia| |lia].
  reflexivity.
Qed.

End Subtraction.

Section SubtractionCases.

(** [1.0 - t] for [t] in [[1/2, 1)]: the difference is exact. *)
Lemma sub_one_exact (m : positive) :
  Z.pos (digits2_pos m) = 53 ->
  let M := 2 ^ 53 - Z.pos m in
  let dM := Zdigits2 M in
  exists mz,
    F64.sub F64.one (S754_finite false m (-53)) = S754_finite false mz (dM - 106) /\
    Z.pos mz = M * 2 ^ (53 - dM) /\
    1 <= dM <= 53 /\ 2 ^ (dM - 1) <= M < 2 ^ dM.
Proof.
  intros Hd M dM.
  pose proof (digits2_bounds m) as [Hlo Hhi]. rewrite Hd in Hlo, Hhi.
  assert (0 < M <= 2 ^ 52) as HM.
  { unfold M. change (2 ^ (53 - 1)) with (2 ^ 52) in Hlo.
    change (2 ^ 53) with (2 * 2 ^ 52) in *. lia. }
  destruct M as [|pM|pM] eqn:HMeq; [lia| |lia].
  assert (dM = Z.pos (digits2_pos pM)) as HdM by reflexivity.
  pose proof (digits2_bounds pM) as [HloM HhiM]. rewrite <- HdM in HloM, HhiM.
  assert (1 <= dM <= 53) as Hrange.
  { split; [rewrite HdM; lia|].
    destruct (Z.le_gt_cases dM 53) as [?|Hgt]; [done|]. exfalso.
    assert (2 ^ 53 <= 2 ^ (dM - 1)) by (apply Z.pow_le_mono_r; lia).
    change (2 ^ 53) with (2 * 2 ^ 52) in *. lia. }
  rewrite sub_one_unfold by (change (- -53) with 53; lia).
  change (- -53) with 53. fold M. rewrite HMeq. cbn [Z.to_pos].
  rewrite binary_round_unfold.
  destruct (shl_align_spec pM (-53) (fexp F64.prec F64.emax (Z.pos (digits2_pos pM) + -53)))
    as [He Hm].
  rewrite <- HdM in He, Hm. rewrite <- HdM.
  rewrite fexp_eq in He, Hm. rewrite fexp_eq.
  replace (Z.min (-53) (Z.max (dM + -53 - 53) (-1074))) with (dM - 106) in He, Hm by lia.
  replace (-53 - (dM - 106)) with (53 - dM) in Hm by lia.
  set (mz := (shl_align pM (-53) (Z.max (dM + -53 - 53) (-1074))).1) in *.
  rewrite He.
  assert (2 ^ 52 <= Z.pos mz < 2 ^ 53) as Hmz.
  { rewrite Hm. split.
    - replace 52 with ((dM - 1) + (53 - dM)) by lia.
      rewrite Z.pow_add_r by lia. apply Z.mul_le_mono_nonneg_r; lia.
    - replace 53 with (dM + (53 - dM)) at 2 by lia.
      rewrite Z.pow_add_r by lia. apply Z.mul_lt_mono_pos_r; lia. }
  assert (Z.pos (digits2_pos mz) = 53) as Hdz by (apply digits2_unique; exact Hmz).
  exists mz. split; [|done].
  apply binary_round_aux_canonical; [|lia].
  rewrite Hdz, fexp_eq. lia.
Qed.

(** [1.0 - t] for a positive [t] below [1/2]: a normal number in
    [[1/2, 1]]. *)
Lemma sub_one_rounded (m : positive) (e : Z) :
  -1074 <= e <= -54 -> Z.pos (digits2_pos m) <= 53 ->
  exists m2 e2,
    F64.sub F64.one (S754_finite false m e) = S754_finite false m2 e2 /\
    Z.pos (digits2_pos m2) = 53 /\ -53 <= e2 <= -52.
Proof.
  intros He Hd.
  pose proof (digits2_bounds m) as [_ Hhi].
  assert (Z.pos m < 2 ^ 53) as Hm.
  { eapply Z.lt_le_trans; [exact Hhi|]. apply Z.pow_le_mono_r; lia. }
  assert (2 ^ 53 <= 2 ^ (- e - 1)) as Hpow by (apply Z.pow_le_mono_r; lia).
  assert (2 ^ (- e) = 2 * 2 ^ (- e - 1)) as Hsplit.
  { rewrite <- Z.pow_succ_r by lia. f_equal. lia. }
  set (M := 2 ^ (- e) - Z.pos m).
  assert (2 ^ (- e - 1) <= M < 2 ^ (- e)) as HM by (unfold M; lia).
  rewrite sub_one_unfold by lia. fold M.
  destruct M as [|pM|pM] eqn:HMeq; [lia| |lia]. cbn [Z.to_pos].
  assert (Z.pos (digits2_pos pM) = - e) as HdM by (apply digits2_unique; exact HM).
  rewrite binary_round_unfold, HdM.
  destruct (shl_align_spec pM e (fexp F64.prec F64.emax (- e + e))) as [He' Hm'].
  rewrite fexp_eq in He', Hm'. rewrite fexp_eq.
  replace (Z.min e (Z.max (- e + e - 53) (-1074))) with e in He', Hm' by lia.
  rewrite Z.sub_diag, Z.pow_0_r, Z.mul_1_r in Hm'.
  rewrite He'. injection Hm' as ->.
  rewrite binary_round_aux_finish.
  destruct (shr_fexp_m (Z.pos pM) e loc_Exact ltac:(lia)) as [H1 H2].
  rewrite Zdigits2_pos, HdM, fexp_eq in H1, H2.
  replace (Z.max 0 (Z.max (- e + e - 53) (-1074) - e)) with (-53 - e) in H1, H2 by lia.
  rewrite H1, H2. replace (e + (-53 - e)) with (-53) by lia.
  set (m3 := Z.pos pM / 2 ^ (-53 - e)).
  assert (2 ^ 52 <= m3 < 2 ^ 53) as Hm3.
  { unfold m3. split.
    - apply Z.div_le_lower_bound; [lia|].
      rewrite <- Z.pow_add_r by lia. replace (-53 - e + 52) with (- e - 1) by lia. lia.
    - apply Z.div_lt_upper_bound; [lia|].
      rewrite <- Z.pow_add_r by lia. replace (-53 - e + 53) with (- e) by lia. lia. }
  set (l := loc_of_shr_record _).
  pose proof (round_nearest_even_bounds m3 l) as Hm4.
  set (m4 := round_nearest_even m3 l) in *.
  rewrite finish_spec by lia. rewrite fexp_eq.
  destruct (Z.eq_dec m4 (2 ^ 53)) as [Hc|Hc].
  - rewrite Hc. change (Zdigits2 (2 ^ 53)) with 54.
    change (Z.max 0 (Z.max (54 + -53 - 53) (-1074) - -53)) with 1.
    change (2 ^ 53 / 2 ^ 1) with (Z.pos 4503599627370496).
    cbn. eexists _, _. split; [reflexivity|]. split; [reflexivity|lia].
  - destruct m4 as [|p4|p4] eqn:Hm4eq; [lia| |lia].
    assert (Z.pos (digits2_pos p4) = 53) as Hd4 by (apply digits2_unique; lia).
    rewrite Zdigits2_pos, Hd4.
    change (Z.max 0 (Z.max (53 + -53 - 53) (-1074) - -53)) with 0.
    rewrite Z.pow_0_r, Z.div_1_r. cbn.
    eexists _, _. split; [reflexivity|]. split; [exact Hd4|lia].
Qed.

End SubtractionCases.

Section Division.

Lemma div_unfold (m1 m2 : positive) (e1 e2 : Z) :
  let e' := Z.min (fexp F64.prec F64.emax (Z.pos (digits2_pos m1) + e1 - (Z.pos (digits2_pos m2) + e2)))
                  (e1 - e2) in
  let s := e1 - e2 - e' in
  F64.div (S754_finite false m1 e1) (S754_finite false m2 e2) =
  binary_round_aux F64.prec F64.emax false
    (Z.pos m1 * 2 ^ s / Z.pos m2) e'
    (new_location (Z.pos m2) (Z.pos m1 * 2 ^ s mod Z.pos m2)).
Proof.
  intros e' s. unfold F64.div, SFdiv, SFdiv_core_binary.
  rewrite !Zdigits2_pos. fold e'. fold s. cbn [xorb].
  assert (0 <= s) as Hs by (unfold s, e'; lia).
  assert (match s with
          | 0 => Z.pos m1
          | Z.pos _ => Z.shiftl (Z.pos m1) s
          | Z.neg _ => 0
          end = Z.pos m1 * 2 ^ s) as ->.
  { destruct s as [|p|p] eqn:Hp; [lia| |lia].
    by rewrite Z.shiftl_mul_pow2 by lia. }
  unfold Z.div, Z.modulo.
  by destruct (Z.div_eucl (Z.pos m1 * 2 ^ s) (Z.pos m2)).
Qed.

(** The integer part survives the final normalisation. *)
Lemma finish_truncate (m e : Z) :
  0 <= m -> e <= 0 -> Zdigits2 m + e <= 53 ->
  (finish false m e = S754_zero false /\ m / 2 ^ (- e) = 0) \/
  (exists mf ef, finish false m e = S754_finite false mf ef /\ ef <= 0 /\
     Z.pos mf / 2 ^ (- ef) = m / 2 ^ (- e)).
Proof.
  intros Hm He Hd. rewrite finish_spec by done. rewrite fexp_eq.
  set (k := Z.max 0 (Z.max (Zdigits2 m + e - 53) (-1074) - e)).
  assert (0 <= k /\ e + k <= 0) as [Hk Hek] by (unfold k; lia).
  assert (m / 2 ^ k / 2 ^ (- (e + k)) = m / 2 ^ (- e)) as Hdiv.
  { rewrite Z.div_div by lia. rewrite <- Z.pow_add_r by lia.
    f_equal. f_equal. lia. }
  destruct (m / 2 ^ k) as [|mf|mf] eqn:Hmf.
  - left. split; [done|]. rewrite <- Hdiv. apply Z.div_0_l. lia.
  - right. exists mf, (e + k).
    destruct (Z.leb_spec (e + k) (F64.emax - F64.prec)) as [_|Hgt].
    2:{ unfold F64.emax, F64.prec in Hgt. lia. }
    done.
  - exfalso. assert (0 <= m / 2 ^ k) by (apply Z.div_pos; lia). lia.
Qed.

(** [t / (1.0 - t)] for a positive [t] below [1/2]: the quotient stays
    below 2. *)
Lemma div_small (m m2 : positive) (e e2 : Z) :
  -1074 <= e <= -54 -> Z.pos (digits2_pos m) <= 53 ->
  Z.pos (digits2_pos m2) = 53 -> -53 <= e2 <= -52 ->
  F64.div (S754_finite false m e) (S754_finite false m2 e2) = S754_zero false \/
  exists mf ef,
    F64.div (S754_finite false m e) (S754_finite false m2 e2) = S754_finite false mf ef /\
    ef <= 0 /\ 0 <= Z.pos mf / 2 ^ (- ef) <= 1.
Proof.
  intros He Hd Hd2 He2.
  pose proof (digits2_bounds m) as [_ Hhi].
  pose proof (digits2_bounds m2) as [Hlo2 _]. rewrite Hd2 in Hlo2.
  change (2 ^ (53 - 1)) with (2 ^ 52) in Hlo2.
  assert (Z.pos m < 2 ^ 53) as Hm.
  { eapply Z.lt_le_trans; [exact Hhi|]. apply Z.pow_le_mono_r; lia. }
  rewrite div_unfold. rewrite Hd2, fexp_eq.
  set (e' := Z.min _ (e - e2)).
  set (s := e - e2 - e').
  assert (e' <= -1 /\ 0 <= s) as [He' Hs] by (unfold s, e'; lia).
  set (qq := Z.pos m * 2 ^ s / Z.pos m2).
  assert (0 <= qq < 2 ^ (- e')) as Hqq.
  { unfold qq. split; [apply Z.div_pos; lia|].
    apply Z.div_lt_upper_bound; [lia|].
    replace (- e') with (s + (e2 - e)) by (unfold s; lia).
    rewrite Z.pow_add_r by lia.
    assert (2 <= 2 ^ (e2 - e)).
    { change 2 with (2 ^ 1) at 1. apply Z.pow_le_mono_r; lia. }
    assert (0 < 2 ^ s) by (apply Z.pow_pos_nonneg; lia).
    apply Z.lt_le_trans with (2 ^ 53 * 2 ^ s).
    - apply Z.mul_lt_mono_pos_r; lia.
    - replace (Z.pos m2 * (2 ^ s * 2 ^ (e2 - e)))
        with (Z.pos m2 * 2 ^ (e2 - e) * 2 ^ s) by ring.
      apply Z.mul_le_mono_nonneg_r; [lia|].
      change (2 ^ 53) with (2 ^ 52 * 2). apply Z.mul_le_mono_nonneg; lia. }
  rewrite binary_round_aux_finish.
  set (l := new_location _ _).
  destruct (shr_fexp_m qq e' l ltac:(lia)) as [H1 H2].
  rewrite fexp_eq in H1, H2. rewrite H1, H2.
  assert (Zdigits2 qq <= - e') as Hdq by (apply Zdigits2_le; lia).
  set (k := Z.max 0 (Z.max (Zdigits2 qq + e' - 53) (-1074) - e')) in *.
  assert (0 <= k /\ e' + k <= -1) as [Hk Hek] by (unfold k; lia).
  set (m3 := qq / 2 ^ k).
  assert (0 <= m3 < 2 ^ (- (e' + k))) as Hm3.
  { unfold m3. split; [apply Z.div_pos; lia|].
    apply Z.div_lt_upper_bound; [lia|].
    rewrite <- Z.pow_add_r by lia. replace (k + - (e' + k)) with (- e') by lia. lia. }
  set (l3 := loc_of_shr_record _).
  pose proof (round_nearest_even_bounds m3 l3) as Hm4.
  set (m4 := round_nearest_even m3 l3) in *.
  assert (Zdigits2 m4 + (e' + k) <= 53) as Hd4.
  { assert (Zdigits2 m4 <= - (e' + k) + 1); [|lia].
    apply Zdigits2_le; [lia|]. rewrite Z.pow_add_r, Z.pow_1_r by lia. lia. }
  assert (0 <= m4 / 2 ^ (- (e' + k)) <= 1) as Hint.
  { split; [apply Z.div_pos; lia|].
    apply Z.div_le_upper_bound; lia. }
  destruct (finish_truncate m4 (e' + k) ltac:(lia) ltac:(lia) Hd4)
    as [[Hz _]|(mf & ef & Hf & Hef & Htr)].
  - by left.
  - right. exists mf, ef. rewrite Htr. done.
Qed.

End Division.

Section DivisionLarge.

Lemma shr_fexp_shift1 (m e : Z) (l : location) :
  fexp F64.prec F64.emax (Zdigits2 m + e) - e = 1 ->
  shr_fexp F64.prec F64.emax m e l = (shr_1 (shr_record_of_loc m l), e + 1).
Proof. intros Hk. unfold shr_fexp, shr. by rewrite Hk. Qed.

(** After a shift by one bit, rounding up needs the bit shifted out. *)
Lemma round_up_odd (m : Z) (l : location) :
  0 < m ->
  round_nearest_even (shr_m (shr_1 (shr_record_of_loc m l)))
    (loc_of_shr_record (shr_1 (shr_record_of_loc m l)))
  <> shr_m (shr_1 (shr_record_of_loc m l)) ->
  Z.odd m = true.
Proof.
  intros Hm. destruct m as [|[p|p|]|p]; try lia; try done.
  by destruct l as [|[]].
Qed.

(** The quotient [m * 2^d / M] never ends in [d] one bits. *)
Lemma quotient_not_all_ones (m M d : Z) :
  0 <= m -> 0 <= d -> 0 < M < 2 ^ d ->
  (m * 2 ^ d / M) / 2 ^ d = m / M /\
  (m * 2 ^ d / M) mod 2 ^ d <> 2 ^ d - 1.
Proof.
  intros Hm Hd HM.
  set (P := 2 ^ d) in *.
  assert (0 < P) as HP by (apply Z.pow_pos_nonneg; lia).
  assert ((m * P / M) / P = m / M) as Hn.
  { rewrite Z.div_div by lia. apply Z.div_mul_cancel_r; lia. }
  split; [exact Hn|]. intros Hones.
  set (qq := m * P / M) in *.
  pose proof (Z.div_mod qq P ltac:(lia)) as Hqq. rewrite Hn, Hones in Hqq.
  pose proof (Z.div_mod m M ltac:(lia)) as Hm'.
  pose proof (Z.mod_pos_bound m M ltac:(lia)) as Hr.
  set (n := m / M) in *. set (r := m mod M) in *.
  assert (M * qq <= m * P) as Hle by (apply Z.mul_div_le; lia).
  rewrite Hqq in Hle. rewrite Hm' in Hle.
  assert (P * 1 <= P * (M - r)) as Hmul by (apply Z.mul_le_mono_nonneg_l; lia).
  lia.
Qed.

End DivisionLarge.

Section DivisionLargeCase.

(** [t / (1.0 - t)] for [t] in [[1/2, 1)]: the integer part of the rounded
    quotient is the integer part of the exact one. *)
Lemma div_large (m mz : positive) (M dM : Z) :
  Z.pos (digits2_pos m) = 53 ->
  M = 2 ^ 53 - Z.pos m ->
  1 <= dM <= 53 -> 2 ^ (dM - 1) <= M < 2 ^ dM ->
  Z.pos mz = M * 2 ^ (53 - dM) ->
  exists mf ef,
    F64.div (S754_finite false m (-53)) (S754_finite false mz (dM - 106))
      = S754_finite false mf ef /\
    ef <= 0 /\ Z.pos mf / 2 ^ (- ef) = Z.pos m / M.
Proof.
  intros Hd HM HdM HMb Hmz.
  pose proof (digits2_bounds m) as [Hlo Hhi]. rewrite Hd in Hlo, Hhi.
  change (2 ^ (53 - 1)) with (2 ^ 52) in Hlo.
  assert (0 < 2 ^ (dM - 1)) as HP' by (apply Z.pow_pos_nonneg; lia).
  assert (2 ^ dM = 2 * 2 ^ (dM - 1)) as HP.
  { rewrite <- Z.pow_succ_r by lia. f_equal. lia. }
  assert (0 < 2 ^ (53 - dM)) as HPc by (apply Z.pow_pos_nonneg; lia).
  assert (2 ^ 53 = 2 ^ dM * 2 ^ (53 - dM)) as H53.
  { rewrite <- Z.pow_add_r by lia. f_equal. lia. }
  assert (M <= 2 ^ 52) as HM52 by (change (2 ^ 53) with (2 * 2 ^ 52) in HM; lia).
  assert (2 ^ 52 <= Z.pos mz < 2 ^ 53) as Hmzb.
  { rewrite Hmz. split.
    - replace 52 with ((dM - 1) + (53 - dM)) by lia.
      rewrite Z.pow_add_r by lia. apply Z.mul_le_mono_nonneg_r; lia.
    - rewrite H53. apply Z.mul_lt_mono_pos_r; lia. }
  assert (Z.pos (digits2_pos mz) = 53) as Hdz by (apply digits2_unique; exact Hmzb).
  rewrite div_unfold. rewrite Hd, Hdz, fexp_eq.
  replace (Z.min (Z.max (53 + -53 - (53 + (dM - 106)) - 53) (-1074)) (-53 - (dM - 106)))
    with (- dM) by lia.
  replace (-53 - (dM - 106) - - dM) with 53 by lia.
  set (n := Z.pos m / M).
  assert (Z.pos m * 2 ^ 53 / Z.pos mz = Z.pos m * 2 ^ dM / M) as Hqq.
  { rewrite Hmz, H53, Z.mul_assoc. apply Z.div_mul_cancel_r; lia. }
  rewrite Hqq.
  set (qq := Z.pos m * 2 ^ dM / M).
  destruct (quotient_not_all_ones (Z.pos m) M dM ltac:(lia) ltac:(lia) ltac:(lia))
    as [Hn Hones].
  fold qq in Hn, Hones. fold n in Hn.
  assert (1 <= n) as Hn1.
  { unfold n. apply Z.div_le_lower_bound; lia. }
  assert (2 ^ 52 <= qq < 2 ^ 54) as Hqqb.
  { unfold qq. split.
    - apply Z.div_le_lower_bound; [lia|].
      rewrite Z.mul_comm. apply Z.mul_le_mono_nonneg; lia.
    - apply Z.div_lt_upper_bound; [lia|].
      apply Z.lt_le_trans with (2 ^ 53 * 2 ^ dM).
      + apply Z.mul_lt_mono_pos_r; [apply Z.pow_pos_nonneg|]; lia.
      + change (2 ^ 54) with (2 ^ 53 * 2). rewrite HP. lia. }
  pose proof (Z.div_mod qq (2 ^ dM) ltac:(lia)) as Hdm. rewrite Hn in Hdm.
  pose proof (Z.mod_pos_bound qq (2 ^ dM) ltac:(lia)) as Hrb.
  set (ρ := qq mod 2 ^ dM) in *.
  rewrite binary_round_aux_finish.
  set (l := new_location _ _).
  destruct (Z.lt_ge_cases qq (2 ^ 53)) as [Hsmall|Hbig].
  - (* 53 bits: no shift *)
    destruct qq as [|pq|pq] eqn:Hqeq; [lia| |lia].
    assert (Z.pos (digits2_pos pq) = 53) as Hdq by (apply digits2_unique; lia).
    rewrite shr_fexp_noshift by (rewrite Zdigits2_pos, Hdq, fexp_eq; lia).
    cbn [fst snd]. rewrite shr_record_of_loc_m, loc_of_shr_record_of_loc.
    pose proof (round_nearest_even_bounds (Z.pos pq) l) as Hm4.
    set (m4 := round_nearest_even (Z.pos pq) l) in *.
    assert (m4 / 2 ^ dM = n) as Htr.
    { symmetry. apply Z.div_unique with (r := m4 - 2 ^ dM * n); lia. }
    assert (Zdigits2 m4 + - dM <= 53) as Hd4.
    { assert (Zdigits2 m4 <= 54); [|lia].
      apply Zdigits2_le; [lia|]. change (2 ^ 54) with (2 * 2 ^ 53). lia. }
    destruct (finish_truncate m4 (- dM) ltac:(lia) ltac:(lia) Hd4)
      as [[_ Hz]|(mf & ef & Hf & Hef & Htr')].
    + rewrite Z.opp_involutive in Hz. lia.
    + exists mf, ef. rewrite Z.opp_involutive in Htr'. by rewrite Htr', Htr.
  - (* 54 bits: one bit is shifted out *)
    destruct qq as [|pq|pq] eqn:Hqeq; [lia| |lia].
    assert (Z.pos (digits2_pos pq) = 54) as Hdq by (apply digits2_unique; lia).
    rewrite shr_fexp_shift1 by (rewrite Zdigits2_pos, Hdq, fexp_eq; lia).
    cbn [fst snd].
    set (r := shr_1 (shr_record_of_loc (Z.pos pq) l)).
    assert (shr_m r = Z.pos pq / 2) as Hm3
      by (unfold r; rewrite shr_1_m, shr_record_of_loc_m; rewrite ?shr_record_of_loc_m; lia).
    pose proof (Z.div_mod (Z.pos pq) 2 ltac:(lia)) as Hq2.
    pose proof (Z.mod_pos_bound (Z.pos pq) 2 ltac:(lia)) as Hq2b.
    pose proof (round_nearest_even_bounds (shr_m r) (loc_of_shr_record r)) as Hm4.
    assert (round_nearest_even (shr_m r) (loc_of_shr_record r) <> shr_m r ->
            Z.pos pq mod 2 = 1) as Hup.
    { intros Hne. apply (round_up_odd (Z.pos pq) l ltac:(lia)) in Hne.
      rewrite Zodd_mod in Hne. apply Z.eqb_eq in Hne. exact Hne. }
    set (m4 := round_nearest_even (shr_m r) (loc_of_shr_record r)) in *.
    rewrite Hm3 in Hm4, Hup. set (m3 := Z.pos pq / 2) in *.
    assert (m4 / 2 ^ (dM - 1) = n) as Htr.
    { symmetry. apply Z.div_unique with (r := m4 - 2 ^ (dM - 1) * n).
      - left. destruct (Z.eq_dec m4 m3) as [Heq|Hne]; [lia|].
        specialize (Hup Hne). lia.
      - lia. }
    assert (m4 < 2 ^ 53) as Hm4b.
    { destruct (Z.lt_ge_cases m4 (2 ^ 53)) as [?|Hge]; [done|]. exfalso.
      assert (m4 = 2 ^ 53) as Hm4eq by (change (2 ^ 54) with (2 * 2 ^ 53) in Hqqb; lia).
      assert (n = 2 ^ (54 - dM)) as Hneq.
      { rewrite <- Htr, Hm4eq. replace 53 with ((54 - dM) + (dM - 1)) at 1 by lia.
        rewrite Z.pow_add_r by lia. apply Z.div_mul. lia. }
      assert (M * n <= Z.pos m) as Hmn by (apply Z.mul_div_le; lia).
      assert (2 ^ (dM - 1) * n <= M * n) by (apply Z.mul_le_mono_nonneg_r; lia).
      assert (2 ^ (dM - 1) * n = 2 ^ 53).
      { rewrite Hneq, <- Z.pow_add_r by lia. f_equal. lia. }
      lia. }
    assert (Zdigits2 m4 + (- dM + 1) <= 53) as Hd4.
    { assert (Zdigits2 m4 <= 53); [|lia]. apply Zdigits2_le; lia. }
    destruct (finish_truncate m4 (- dM + 1) ltac:(lia) ltac:(lia) Hd4)
      as [[_ Hz]|(mf & ef & Hf & Hef & Htr')].
    + replace (- (- dM + 1)) with (dM - 1) in Hz by lia. lia.
    + exists mf, ef. replace (- (- dM + 1)) with (dM - 1) in Htr' by lia.
      by rewrite Htr', Htr.
Qed.

End DivisionLargeCase.

Section Quotient.
Context `{Platform}.

Lemma truncate_finite_nonpos_exp (m : positive) (e : Z) :
  e <= 0 ->
  F64.truncate (S754_finite false m e) = Some (Z.pos m / 2 ^ (- e)) /\
  F64.floor (S754_finite false m e) = Some (Z.pos m / 2 ^ (- e)).
Proof.
  intros He. unfold F64.truncate, F64.floor, F64.is_finite, F64.num, F64.den.
  cbn [cond_Zopp].
  replace (Z.max e 0) with 0 by lia. replace (Z.max (- e) 0) with (- e) by lia.
  rewrite Z.pow_0_r, Z.mul_1_r.
  rewrite Z.quot_div_nonneg by lia. done.
Qed.

(** The float64 quotient [t / (1.0 - t)] of a threshold in (0, 1) is
    finite, and under [max(1, _)] its integer part is that of the exact
    quotient. *)
Lemma quotient_integer_part (t : spec_float) :
  F64.valid t = true -> F64.ltb F64.zero t = true -> F64.ltb t F64.one = true ->
  exists z,
    F64.truncate (F64.div t (F64.sub F64.one t)) = Some z /\
    F64.floor (F64.div t (F64.sub F64.one t)) = Some z /\
    0 <= z < 2 ^ 53 /\
    Z.max 1 z = Z.max 1 (F64.num t / (F64.den t - F64.num t)).
Proof.
  intros Hv H0 H1.
  destruct (below_one_shape t Hv H0 H1) as (m & e & -> & He & Hd & Hd53).
  pose proof (digits2_bounds m) as [Hlo Hhi].
  assert (Z.pos m < 2 ^ 53) as Hm.
  { eapply Z.lt_le_trans; [exact Hhi|]. apply Z.pow_le_mono_r; lia. }
  assert (F64.num (S754_finite false m e) = Z.pos m) as Hnum.
  { unfold F64.num. cbn [cond_Zopp]. replace (Z.max e 0) with 0 by lia.
    by rewrite Z.pow_0_r, Z.mul_1_r. }
  assert (F64.den (S754_finite false m e) = 2 ^ (- e)) as Hden.
  { unfold F64.den. by replace (Z.max (- e) 0) with (- e) by lia. }
  rewrite Hnum, Hden.
  destruct (Z.eq_dec e (-53)) as [->|Hne].
  - (* t in [1/2, 1) *)
    specialize (Hd53 eq_refl).
    destruct (sub_one_exact m Hd53) as (mz & -> & Hmz & HdM & HMb).
    change (- -53) with 53.
    destruct (div_large m mz (2 ^ 53 - Z.pos m) _ Hd53 eq_refl HdM HMb Hmz)
      as (mf & ef & -> & Hef & Htr).
    destruct (truncate_finite_nonpos_exp mf ef Hef) as [-> ->].
    rewrite Htr. eexists. split; [done|]. split; [done|]. split; [|done].
    split; [apply Z.div_pos; lia|].
    apply Z.div_lt_upper_bound; [lia|]. nia.
  - (* t below 1/2 *)
    destruct (sub_one_rounded m e ltac:(lia) Hd) as (m2 & e2 & -> & Hd2 & He2).
    assert (2 ^ 53 <= 2 ^ (- e - 1)) as Hpow by (apply Z.pow_le_mono_r; lia).
    assert (2 ^ (- e) = 2 * 2 ^ (- e - 1)) as Hsplit.
    { rewrite <- Z.pow_succ_r by lia. f_equal. lia. }
    assert (Z.pos m / (2 ^ (- e) - Z.pos m) = 0) as ->
      by (apply Z.div_small; lia).
    destruct (div_small m m2 e e2 ltac:(lia) Hd Hd2 He2)
      as [->|(mf & ef & -> & Hef & Htr)].
    + exists 0. split; [done|]. split; [done|]. lia.
    + destruct (truncate_finite_nonpos_exp mf ef Hef) as [-> ->].
      eexists. split; [done|]. split; [done|]. lia.
Qed.

(** The floor of the exact quotient [t / (1 - t)], in integers. *)
Lemma exact_quotient_floor (t : spec_float) :
  F64.valid t = true -> F64.ltb F64.zero t = true -> F64.ltb t F64.one = true ->
  Qfloor (F64.toQ t / (1 - F64.toQ t)) = F64.num t / (F64.den t - F64.num t).
Proof.
  intros Hv H0 H1.
  destruct (below_one_shape t Hv H0 H1) as (m & e & -> & He & Hd & _).
  pose proof (digits2_bounds m) as [_ Hhi].
  assert (Z.pos m < 2 ^ 53) as Hm.
  { eapply Z.lt_le_trans; [exact Hhi|]. apply Z.pow_le_mono_r; lia. }
  assert (2 ^ 53 <= 2 ^ (- e)) as Hpow by (apply Z.pow_le_mono_r; lia).
  unfold F64.toQ.
  assert (F64.num (S754_finite false m e) = Z.pos m) as ->.
  { unfold F64.num. cbn [cond_Zopp]. replace (Z.max e 0) with 0 by lia.
    by rewrite Z.pow_0_r, Z.mul_1_r. }
  assert (F64.den (S754_finite false m e) = 2 ^ (- e)) as ->.
  { unfold F64.den. by replace (Z.max (- e) 0) with (- e) by lia. }
  destruct (2 ^ (- e)) as [|b|b] eqn:Hb; [lia| |lia].
  cbn [Z.to_pos].
  unfold Qdiv, Qminus, Qplus, Qopp, Qmult, Qinv, Qfloor. cbn [Qnum Qden].
  replace (1 * Z.pos b + - Z.pos m * 1) with (Z.pos b - Z.pos m) by lia.
  destruct (Z.pos b - Z.pos m) as [|c|c] eqn:Hc; [lia| |lia].
  cbn [Qnum Qden]. rewrite Pos.mul_1_l.
  rewrite Pos2Z.inj_mul. rewrite (Z.mul_comm (Z.pos m)).
  apply Z.div_mul_cancel_l; lia.
Qed.

End Quotient.

End Binary64.

(** ** Properties of the threshold policy *)

Section PolicyProperties.
Context `{Platform}.

Lemma max_Zmax (a b : Z) : max a b = Z.max a b.
Proof. unfold max. destruct (Z.gtb_spec a b); lia. Qed.

(** A threshold below [1.0] does not take the [threshold == 1.0] branch. *)
Lemma ltb_one_not_eqb (t : spec_float) :
  F64.ltb t F64.one = true → F64.eqb t F64.one = false.
Proof.
  unfold F64.ltb, F64.eqb, SFltb, SFeqb.
  by destruct (SFcompare t F64.one) as [[]|].
Qed.

(** The constants are the doubles the literals denote. *)
Lemma literals_round :
  F64.rounds 1 1 F64.one = true ∧ F64.rounds 5 10 F64.lit_0_5 = true ∧
  F64.rounds 8 10 F64.lit_0_8 = true ∧ F64.rounds 3 10 F64.lit_0_3 = true.
Proof. by vm_compute. Qed.

(** C2. [computeQ(1.0)] is 10.  For every float64 threshold [t] with
    [0 < t < 1], [computeQ(t)] is [max(1, floor(t / (1 - t)))], both with
    the quotient taken exactly, over the rationals, and with the quotient as
    the program computes it in float64 arithmetic (which is finite).
    [computeQ(0.8) = 4], [computeQ(0.5) = 1], [computeQ(0.3) = 1], and the
    result is at least 1 for every threshold, those in (0, 1] among them. *)
Theorem computeQ_spec :
  computeQ F64.one = 10 ∧
  (∀ t, F64.valid t = true → F64.ltb F64.zero t = true → F64.ltb t F64.one = true →
     computeQ t = Z.max 1 (Qfloor (F64.toQ t / (1 - F64.toQ t))) ∧
     ∃ z, F64.floor (F64.div t (F64.sub F64.one t)) = Some z ∧
          computeQ t = Z.max 1 z) ∧
  computeQ F64.lit_0_8 = 4 ∧
  computeQ F64.lit_0_5 = 1 ∧
  computeQ F64.lit_0_3 = 1 ∧
  (∀ t, 1 ≤ computeQ t).
Proof.
  split; [by vm_compute|]. split; [|split; [|split; [|split]]].
  - intros t Hv H0 H1.
    destruct (quotient_integer_part t Hv H0 H1) as (z & Htr & Hfl & Hz & Hmax).
    assert (computeQ t = Z.max 1 z) as Hq.
    { unfold computeQ. rewrite (ltb_one_not_eqb t H1), max_Zmax.
      unfold F64.toInt. rewrite Htr.
      unfold F64.int_min, F64.int_max.
      destruct (Z.leb_spec (- 2 ^ 63) z); [|lia].
      destruct (Z.leb_spec z (2 ^ 63 - 1)); [done|lia]. }
    split; [|by exists z].
    by rewrite Hq, Hmax, (exact_quotient_floor t Hv H0 H1).
  - by vm_compute.
  - by vm_compute.
  - by vm_compute.
  - intros t. unfold computeQ. destruct (F64.eqb t F64.one); [lia|].
    rewrite max_Zmax. lia.
Qed.

End PolicyProperties.

(** ** Concrete runs *)

Section Runs.
#[local] Existing Instance Demo.artifacts.
#[local] Existing Instance Demo.collaborators.
#[local] Existing Instance Demo.platform.

Lemma dict_ab_built : Demo.dict_ab = addAll ["a"; "b"; "a"] newDictionary.
Proof. vm_compute. reflexivity. Qed.

Lemma dict_ab_inv : dict_inv Demo.dict_ab.
Proof. rewrite dict_ab_built. apply addAll_inv, newDictionary_inv. Qed.

(** The end-to-end scenario of the spec: the corpus document "a b a" under
    ("lic", "mit", ""), then the target "a c". *)
Example end_to_end :
  generateIndexedDocument Demo.aba true Demo.fresh = Some (Demo.aba_indexed, Demo.grown) ∧
  generateIndexedDocument Demo.ac false Demo.grown = Some (Demo.ac_indexed, Demo.grown) ∧
  ∃ σ1 e,
    addDocument "lic" "mit" "" Demo.aba Demo.fresh = Some (tt, σ1) ∧
    heap σ1 = heap Demo.grown ∧
    getIndexedDocument "lic" "mit" "" σ1 = Some (Some e, σ1) ∧
    IndexedDocument.norm e = "a b a" ∧
    generateIndexedDocument Demo.ac false σ1 = Some (Demo.ac_indexed, σ1).
Proof.
  split; [vm_compute; reflexivity|]. split; [vm_compute; reflexivity|].
  eexists _, _. split; [vm_compute; reflexivity|].
  split; [vm_compute; reflexivity|]. split; [vm_compute; reflexivity|].
  split; vm_compute; reflexivity.
Qed.

Example space_literal : " " = String space "".
Proof. reflexivity. Qed.

(** C1, as the spec has it, fails: already for the empty document in
    resolve mode the result carries a frequency table. *)
Lemma generateIndexedDocument_attaches_frequencies :
  ¬ (∀ id σ', generateIndexedDocument Demo.empty false Demo.fresh = Some (id, σ') →
       IndexedDocument.f id = None ∧ IndexedDocument.s id = None).
Proof.
  intros Hclaim.
  assert (generateIndexedDocument Demo.empty false Demo.fresh
          = Some (Demo.empty_indexed, Demo.fresh)) as Hrun
    by (vm_compute; reflexivity).
  destruct (Hclaim _ _ Hrun) as [Hf _]. discriminate Hf.
Qed.

Lemma generateIndexedDocument_artifacts_witness :
  generateIndexedDocument Demo.aba true Demo.fresh = Some (Demo.aba_indexed, Demo.grown) ∧
  IndexedDocument.f Demo.aba_indexed
    = Some (frequenciesOf (IndexedDocument.ids Demo.aba_indexed)) ∧
  IndexedDocument.s Demo.aba_indexed = None ∧
  ∀ q, IndexedDocument.s (generateSearchSet Demo.aba_indexed q)
       = Some (newSearchSet Demo.aba_indexed q).
Proof.
  assert (generateIndexedDocument Demo.aba true Demo.fresh
          = Some (Demo.aba_indexed, Demo.grown)) as Hrun
    by (vm_compute; reflexivity).
  split; [exact Hrun|].
  exact (generateIndexedDocument_artifacts Demo.aba true Demo.fresh Demo.grown
           Demo.aba_indexed Hrun).
Defined.

Lemma add_round_trip_witness :
  dict_inv Demo.dict_ab ∧
  (getIndex "c" (add "c" Demo.dict_ab).2).1 = (add "c" Demo.dict_ab).1 ∧
  (getWord (add "c" Demo.dict_ab).1 (add "c" Demo.dict_ab).2).1 = "c" ∧
  add "c" (add "c" Demo.dict_ab).2 = ((add "c" Demo.dict_ab).1, (add "c" Demo.dict_ab).2).
Proof.
  split; [exact dict_ab_inv|].
  exact (add_round_trip Demo.dict_ab "c" dict_ab_inv).
Defined.

Lemma add_allocates_witness :
  dict_inv Demo.dict_ab ∧
  (∀ i, Indices Demo.dict_ab !! "c" = Some i → add "c" Demo.dict_ab = (i, Demo.dict_ab)) ∧
  (Indices Demo.dict_ab !! "c" = None →
   add "c" Demo.dict_ab =
     (Z.of_nat (size (Words Demo.dict_ab)) + 1,
      {| Words := <[Z.of_nat (size (Words Demo.dict_ab)) + 1 := "c"]> (Words Demo.dict_ab);
         Indices := <["c" := Z.of_nat (size (Words Demo.dict_ab)) + 1]>
                      (Indices Demo.dict_ab) |})) ∧
  (add "c" newDictionary).1 = 1 ∧
  dict_inv (add "c" Demo.dict_ab).2 ∧
  (∀ w' i, Indices Demo.dict_ab !! w' = Some i →
     1 ≤ i ≤ Z.of_nat (size (Words Demo.dict_ab)) ∧
     (Indices Demo.dict_ab !! "c" = None → i < (add "c" Demo.dict_ab).1) ∧
     Indices (add "c" Demo.dict_ab).2 !! w' = Some i ∧
     Words (add "c" Demo.dict_ab).2 !! i = Some w') ∧
  (∀ ws k w', ws !! k = Some w' → w' ∉ take k ws →
     Indices (addAll ws newDictionary) !! w' =
     Some (Z.of_nat (size (list_to_set (take k ws) : gset string)) + 1)).
Proof.
  split; [exact dict_ab_inv|].
  exact (add_allocates Demo.dict_ab "c" dict_ab_inv).
Defined.

Lemma lookup_sentinels_witness :
  dict_inv Demo.dict_ab ∧
  (∀ w, Indices Demo.dict_ab !! w = None → getIndex w Demo.dict_ab = (0, Demo.dict_ab)) ∧
  (∀ ws w, w ∉ ws →
     getIndex w (addAll ws newDictionary) = (0, addAll ws newDictionary)) ∧
  getWord 0 Demo.dict_ab = ("UNKNOWN", Demo.dict_ab) ∧
  (∀ i, ¬ (1 ≤ i ≤ Z.of_nat (size (Words Demo.dict_ab))) →
     getWord i Demo.dict_ab = ("UNKNOWN", Demo.dict_ab)) ∧
  (∀ (σ : session) p w i, heap σ !! p = Some Demo.dict_ab →
     call p (getIndex w) σ = Some ((getIndex w Demo.dict_ab).1, σ) ∧
     call p (getWord i) σ = Some ((getWord i Demo.dict_ab).1, σ)).
Proof.
  split; [exact dict_ab_inv|].
  exact (lookup_sentinels Demo.dict_ab dict_ab_inv).
Defined.

Lemma generateIndexedDocument_tokens_witness :
  heap Demo.grown !! Dict (this Demo.grown) = Some Demo.dict_ab ∧
  (∃ id σ', generateIndexedDocument Demo.ac false Demo.grown = Some (id, σ') ∧
     length (IndexedDocument.Tokens id) = length (document.Tokens Demo.ac) ∧
     ∀ k t, document.Tokens Demo.ac !! k = Some t →
       IndexedDocument.Tokens id !! k =
       Some {| indexedToken.Index := token.Index t;
               indexedToken.Line := token.Line t;
               indexedToken.ID :=
                 if false
                 then (add (token.Text t)
                         (addAll (token.Text <$> take k (document.Tokens Demo.ac))
                                 Demo.dict_ab)).1
                 else (getIndex (token.Text t) Demo.dict_ab).1 |}) ∧
  (∀ (σ0 : session), ∃ id,
     generateIndexedDocument (document.mk []) false σ0 = Some (id, σ0) ∧
     IndexedDocument.Tokens id = [] ∧ IndexedDocument.norm id = "").
Proof.
  split; [reflexivity|].
  exact (generateIndexedDocument_tokens Demo.ac false Demo.grown Demo.dict_ab eq_refl).
Defined.

Lemma resolve_mode_frame_witness :
  heap Demo.grown !! Dict (this Demo.grown) = Some Demo.dict_ab ∧
  (∃ id, generateIndexedDocument Demo.ac false Demo.grown = Some (id, Demo.grown)) ∧
  (∃ id, createTargetIndexedDocument [] Demo.grown = Some (id, Demo.grown)).
Proof.
  split; [reflexivity|].
  exact (proj2 (proj2 (resolve_mode_frame Demo.ac [] Demo.grown)) Demo.dict_ab eq_refl).
Defined.

Lemma normalized_spec_witness :
  heap Demo.grown !! IndexedDocument.dict Demo.ac_indexed = Some Demo.dict_ab ∧
  ∃ n, normalized Demo.ac_indexed Demo.grown = Some (n, Demo.grown) ∧
    n = String.concat " " (wordsOf Demo.dict_ab (IndexedDocument.Tokens Demo.ac_indexed)) ∧
    n = String.concat " "
          ((λ t, default "UNKNOWN" (Words Demo.dict_ab !! indexedToken.ID t))
             <$> IndexedDocument.Tokens Demo.ac_indexed) ∧
    (∀ k t w, IndexedDocument.Tokens Demo.ac_indexed !! k = Some t →
       Words Demo.dict_ab !! indexedToken.ID t = Some w →
       wordsOf Demo.dict_ab (IndexedDocument.Tokens Demo.ac_indexed) !! k = Some w) ∧
    (∀ k t, IndexedDocument.Tokens Demo.ac_indexed !! k = Some t →
       Words Demo.dict_ab !! indexedToken.ID t = None →
       wordsOf Demo.dict_ab (IndexedDocument.Tokens Demo.ac_indexed) !! k = Some "UNKNOWN") ∧
    (dict_inv Demo.dict_ab → ∀ k t w, IndexedDocument.Tokens Demo.ac_indexed !! k = Some t →
       Indices Demo.dict_ab !! w = Some (indexedToken.ID t) →
       wordsOf Demo.dict_ab (IndexedDocument.Tokens Demo.ac_indexed) !! k = Some w) ∧
    (IndexedDocument.Tokens Demo.ac_indexed = [] → n = "") ∧
    spaces n = (total spaces (wordsOf Demo.dict_ab (IndexedDocument.Tokens Demo.ac_indexed)) +
                (length (IndexedDocument.Tokens Demo.ac_indexed) - 1))%nat ∧
    String.length n =
      (total String.length (wordsOf Demo.dict_ab (IndexedDocument.Tokens Demo.ac_indexed)) +
       (length (IndexedDocument.Tokens Demo.ac_indexed) - 1))%nat ∧
    (dict_inv Demo.dict_ab → ∀ k t, IndexedDocument.Tokens Demo.ac_indexed !! k = Some t →
       indexedToken.ID t = 0 →
       wordsOf Demo.dict_ab (IndexedDocument.Tokens Demo.ac_indexed) !! k = Some "UNKNOWN") ∧
    (do n1 <- normalized Demo.ac_indexed; do n2 <- normalized Demo.ac_indexed; ret (n1, n2))
      Demo.grown = Some ((n, n), Demo.grown) ∧
    (∀ (doc0 : IndexedDocument.t) (σ0 : session),
       IndexedDocument.Tokens doc0 = [] → normalized doc0 σ0 = Some ("", σ0)).
Proof.
  split; [reflexivity|].
  exact (normalized_spec Demo.ac_indexed Demo.grown Demo.dict_ab eq_refl).
Defined.

Lemma addDocument_lookup_witness :
  heap Demo.fresh !! Dict (this Demo.fresh) = Some newDictionary ∧
  ∃ σ1 e1 id1 σg1,
    addDocument "lic" "mit" "" Demo.aba Demo.fresh = Some (tt, σ1) ∧
    getIndexedDocument "lic" "mit" "" σ1 = Some (Some e1, σ1) ∧
    generateIndexedDocument Demo.aba true Demo.fresh = Some (id1, σg1) ∧
    IndexedDocument.Tokens e1 = IndexedDocument.Tokens id1 ∧
    IndexedDocument.ids e1 = IndexedDocument.ids id1 ∧
    ∃ σ2 e2 id2 σg2,
      addDocument "lic" "mit" "" Demo.ac σ1 = Some (tt, σ2) ∧
      getIndexedDocument "lic" "mit" "" σ2 = Some (Some e2, σ2) ∧
      generateIndexedDocument Demo.ac true σ1 = Some (id2, σg2) ∧
      IndexedDocument.Tokens e2 = IndexedDocument.Tokens id2 ∧
      IndexedDocument.ids e2 = IndexedDocument.ids id2 ∧
      Docs (this σ2) =
        <[generateDocName "lic" "mit" "" := e2]> (Docs (this Demo.fresh)).
Proof.
  split; [reflexivity|].
  exact (addDocument_lookup "lic" "mit" "" Demo.aba Demo.ac Demo.fresh newDictionary eq_refl).
Defined.

Lemma generateDocName_not_injective_witness :
  generateDocName "lic/mit" "v1" "" = generateDocName "lic" "mit/v1" "" ∧
  heap Demo.fresh !! Dict (this Demo.fresh) = Some newDictionary ∧
  ∃ σ1 σ2 e1 e2 id2 σg2,
    addDocument "lic/mit" "v1" "" Demo.aba Demo.fresh = Some (tt, σ1) ∧
    getIndexedDocument "lic/mit" "v1" "" σ1 = Some (Some e1, σ1) ∧
    addDocument "lic" "mit/v1" "" Demo.ac σ1 = Some (tt, σ2) ∧
    getIndexedDocument "lic/mit" "v1" "" σ2 = Some (Some e2, σ2) ∧
    getIndexedDocument "lic" "mit/v1" "" σ2 = Some (Some e2, σ2) ∧
    generateIndexedDocument Demo.ac true σ1 = Some (id2, σg2) ∧
    IndexedDocument.Tokens e2 = IndexedDocument.Tokens id2 ∧
    Docs (this σ2) =
      <[generateDocName "lic" "mit/v1" "" := e2]> (Docs (this Demo.fresh)).
Proof.
  split; [reflexivity|]. split; [reflexivity|].
  exact (proj2 (proj2 (generateDocName_not_injective "lic" "mit" "v1" ""))
           Demo.aba Demo.ac Demo.fresh newDictionary eq_refl).
Defined.

Lemma computeQ_spec_witness :
  F64.valid F64.lit_0_8 = true ∧
  F64.ltb F64.zero F64.lit_0_8 = true ∧ F64.ltb F64.lit_0_8 F64.one = true ∧
  computeQ F64.lit_0_8 = Z.max 1 (Qfloor (F64.toQ F64.lit_0_8 / (1 - F64.toQ F64.lit_0_8))) ∧
  ∃ z, F64.floor (F64.div F64.lit_0_8 (F64.sub F64.one F64.lit_0_8)) = Some z ∧
       computeQ F64.lit_0_8 = Z.max 1 z.
Proof.
  split; [reflexivity|]. split; [reflexivity|]. split; [reflexivity|].
  exact (proj1 (proj2 computeQ_spec) F64.lit_0_8 eq_refl eq_refl eq_refl).
Defined.

End Runs.

(** * Part III: further properties *)

(** ** The dictionary as a whole *)

Section DictionaryMore.

Lemma add_indices_self (d : Dictionary) (w : string) :
  dict_inv d → Indices (add w d).2 !! w = Some (add w d).1.
Proof.
  intros Hd. destruct (Indices d !! w) as [i|] eqn:Hw.
  - assert (i ≠ 0) as Hi by (intros ->; by apply (inv_no_zero d w Hd)).
    by rewrite (add_present d w i Hw Hi).
  - rewrite (add_absent d w Hw). cbn. by rewrite lookup_insert_eq.
Qed.

Lemma addAll_preserves_words (ws : list string) (d : Dictionary) (i : Z) (w : string) :
  dict_inv d → Words d !! i = Some w → Words (addAll ws d) !! i = Some w.
Proof.
  revert d. induction ws as [|a ws IH]; intros d Hd Hi; [done|].
  cbn. apply IH; [by apply add_inv | by apply add_preserves_words].
Qed.

Lemma add_size_le (d : Dictionary) (w : string) :
  dict_inv d → (size (Words d) ≤ size (Words (add w d).2))%nat.
Proof.
  intros Hd. destruct (Indices d !! w) as [i|] eqn:Hw.
  - assert (i ≠ 0) as Hi by (intros ->; by apply (inv_no_zero d w Hd)).
    by rewrite (add_present d w i Hw Hi).
  - rewrite (add_absent d w Hw). cbn.
    rewrite (map_size_insert_None _ _ _ (inv_next_fresh d Hd)). lia.
Qed.

Lemma addAll_size_le (ws : list string) (d : Dictionary) :
  dict_inv d → (size (Words d) ≤ size (Words (addAll ws d)))%nat.
Proof.
  revert d. induction ws as [|a ws IH]; intros d Hd; [done|].
  cbn. etrans; [by apply add_size_le|]. apply IH. by apply add_inv.
Qed.

(** Adding words that are all present changes nothing. *)
Lemma addAll_present (ws : list string) (d : Dictionary) :
  dict_inv d → (∀ w, w ∈ ws → is_Some (Indices d !! w)) → addAll ws d = d.
Proof.
  intros Hd. induction ws as [|a ws IH]; intros Hall; [done|].
  cbn. destruct (Hall a) as [i Hi]; [by left|].
  assert (i ≠ 0) as Hi0 by (intros ->; by apply (inv_no_zero d a Hd)).
  rewrite (add_present d a i Hi Hi0). cbn. apply IH.
  intros w Hw. apply Hall. by right.
Qed.

(** Entries of a dictionary keep their word however many words are added;
    so does the sentinel. *)
Lemma getWord_addAll (ws : list string) (d : Dictionary) (i : Z) :
  dict_inv d → i ≤ Z.of_nat (size (Words d)) →
  (getWord i (addAll ws d)).1 = (getWord i d).1.
Proof.
  intros Hd Hi. unfold getWord.
  destruct (Words d !! i) as [w|] eqn:Hw.
  - by rewrite (addAll_preserves_words ws d i w Hd Hw).
  - destruct (Words (addAll ws d) !! i) as [w'|] eqn:Hw'; [|done].
    exfalso.
    assert (¬ is_Some (Words d !! i)) as Hn by (rewrite Hw; by intros [? ?]).
    rewrite (inv_dense _ Hd) in Hn.
    assert (is_Some (Words (addAll ws d) !! i)) as Hs by eauto.
    apply (inv_dense _ (addAll_inv ws d Hd)) in Hs. lia.
Qed.

Lemma dom_indices_add (d : Dictionary) (w : string) :
  dict_inv d → dom (Indices (add w d).2) = {[w]} ∪ dom (Indices d).
Proof.
  intros Hd. apply set_eq. intros x.
  rewrite elem_of_union, elem_of_singleton, !elem_of_dom.
  apply add_indices_dom. exact Hd.
Qed.

Lemma dom_indices_addAll (ws : list string) (d : Dictionary) :
  dict_inv d → dom (Indices (addAll ws d)) = list_to_set ws ∪ dom (Indices d).
Proof.
  revert d. induction ws as [|a ws IH]; intros d Hd.
  - cbn. by rewrite union_empty_l_L.
  - change (addAll (a :: ws) d) with (addAll ws (add a d).2).
    rewrite (IH _ (add_inv d a Hd)), (dom_indices_add d a Hd). cbn.
    rewrite (assoc_L (∪)). f_equal. apply (comm_L (∪)).
Qed.

Lemma size_indices_words (d : Dictionary) :
  dict_inv d → size (Indices d) = size (Words d).
Proof.
  intros Hd. destruct (inv_reachable d Hd) as [ws ->].
  rewrite addAll_size, <- size_dom.
  rewrite (dom_indices_addAll ws newDictionary newDictionary_inv).
  cbn. by rewrite dom_empty_L, union_empty_r_L.
Qed.

(** X1. The two maps of a dictionary are inverse to each other, entry by
    entry: [getIndex] after [getWord] gives back every assigned identifier,
    [getWord] after [getIndex] gives back every known word, distinct known
    words have distinct identifiers, distinct identifiers have distinct
    words, and both maps have the same number of entries. *)
Theorem dictionary_inverse (d : Dictionary) :
  dict_inv d →
  (∀ i, 1 ≤ i ≤ Z.of_nat (size (Words d)) → (getIndex (getWord i d).1 d).1 = i) ∧
  (∀ w, (getIndex w d).1 ≠ 0 → (getWord (getIndex w d).1 d).1 = w) ∧
  (∀ w1 w2, (getIndex w1 d).1 = (getIndex w2 d).1 → (getIndex w1 d).1 ≠ 0 → w1 = w2) ∧
  (∀ i j, 1 ≤ i ≤ Z.of_nat (size (Words d)) → 1 ≤ j ≤ Z.of_nat (size (Words d)) →
     (getWord i d).1 = (getWord j d).1 → i = j) ∧
  size (Indices d) = size (Words d).
Proof.
  intros Hd.
  assert (∀ i, 1 ≤ i ≤ Z.of_nat (size (Words d)) →
            ∃ w, Words d !! i = Some w ∧ Indices d !! w = Some i) as Hin.
  { intros i Hi. apply (inv_dense _ Hd) in Hi as [w Hw].
    exists w. split; [done|]. by apply (inv_words_indices _ Hd). }
  assert (∀ w, (getIndex w d).1 ≠ 0 →
            ∃ i, Indices d !! w = Some i ∧ Words d !! i = Some w ∧ (getIndex w d).1 = i)
    as Hout.
  { intros w. unfold getIndex. destruct (Indices d !! w) as [i|] eqn:Hw; [|done].
    intros _. exists i. split; [done|]. split; [|done].
    by apply (inv_indices_words _ Hd). }
  split; [|split; [|split; [|split]]].
  - intros i Hi. destruct (Hin i Hi) as (w & Hw & Hi').
    unfold getWord, getIndex. rewrite Hw. cbn. by rewrite Hi'.
  - intros w Hw. destruct (Hout w Hw) as (i & Hi & Hw' & ->).
    unfold getWord. by rewrite Hw'.
  - intros w1 w2 Heq Hne.
    destruct (Hout w1 Hne) as (i & _ & Hw1 & Hi1).
    rewrite Heq in Hne. destruct (Hout w2 Hne) as (j & _ & Hw2 & Hi2).
    congruence.
  - intros i j Hi Hj Heq.
    destruct (Hin i Hi) as (w & Hw & Hwi). destruct (Hin j Hj) as (w' & Hw' & Hwj).
    unfold getWord in Heq. rewrite Hw, Hw' in Heq. cbn in Heq. congruence.
  - by apply size_indices_words.
Qed.

(** X2. A batch of adds grows the dictionary by exactly the number of
    distinct words of the batch that were not yet present, never shrinks it,
    and makes every word of the batch known. *)
Theorem addAll_growth (ws : list string) (d : Dictionary) :
  dict_inv d →
  size (Words (addAll ws d)) =
    (size (Words d) + size (list_to_set ws ∖ dom (Indices d) : gset string))%nat ∧
  (size (Words d) ≤ size (Words (addAll ws d)))%nat ∧
  (∀ w, w ∈ ws → (getIndex w (addAll ws d)).1 ≠ 0).
Proof.
  intros Hd. pose proof (addAll_inv ws d Hd) as Hd'.
  split; [|split].
  - rewrite <- (size_indices_words _ Hd'), <- (size_indices_words _ Hd).
    rewrite <- !size_dom, (dom_indices_addAll ws d Hd).
    rewrite (comm_L _ (list_to_set ws)), size_union_alt. done.
  - by apply addAll_size_le.
  - intros w Hw.
    assert (is_Some (Indices (addAll ws d) !! w)) as [i Hi]
      by (apply (addAll_indices ws d w Hd); by left).
    unfold getIndex. rewrite Hi. cbn. intros ->.
    by apply (inv_no_zero _ w Hd').
Qed.

(** X18. The invariant describes exactly the dictionaries the program can
    build: a dictionary has inverse maps with identifiers [1 .. len(Words)]
    if and only if it is [newDictionary] followed by a sequence of [add]s. *)
Theorem dict_inv_iff_reachable (d : Dictionary) :
  dict_inv d ↔ ∃ ws, d = addAll ws newDictionary.
Proof.
  split; [apply inv_reachable|].
  intros [ws ->]. apply addAll_inv, newDictionary_inv.
Qed.

End DictionaryMore.

(** ** Indexing against a consistent dictionary *)

Section IndexingMore.
Context `{Collaborators}.

Lemma getIndex_range (d : Dictionary) (w : string) :
  dict_inv d → 0 ≤ (getIndex w d).1 ≤ Z.of_nat (size (Words d)).
Proof.
  intros Hd. unfold getIndex, unknownIndex.
  destruct (Indices d !! w) as [i|] eqn:Hw; cbn; [|lia].
  assert (is_Some (Words d !! i)) as Hs
    by (rewrite (inv_indices_words _ Hd _ _ Hw); eauto).
  apply (inv_dense _ Hd) in Hs. lia.
Qed.

Lemma getIndex_zero (d : Dictionary) (w : string) :
  dict_inv d → (getIndex w d).1 = 0 ↔ Indices d !! w = None.
Proof.
  intros Hd. unfold getIndex. destruct (Indices d !! w) as [i|] eqn:Hw; cbn; [|done].
  split; [|done]. intros ->. by destruct (inv_no_zero d w Hd).
Qed.

Lemma getIndex_pair (d : Dictionary) (w : string) :
  getIndex w d = ((getIndex w d).1, d).
Proof. unfold getIndex. by destruct (Indices d !! w). Qed.

Lemma getWord_pair (d : Dictionary) (i : Z) :
  getWord i d = ((getWord i d).1, d).
Proof. unfold getWord. by destruct (Words d !! i). Qed.

(** The word shown for a resolved text. *)
Lemma getWord_getIndex (d : Dictionary) (w : string) :
  dict_inv d → (getWord (getIndex w d).1 d).1 = rendered d w.
Proof.
  intros Hd. unfold getIndex, rendered.
  destruct (Indices d !! w) as [i|] eqn:Hw; cbn.
  - unfold getWord. by rewrite (inv_indices_words _ Hd _ _ Hw).
  - unfold getWord. destruct (Words d !! unknownIndex) as [x|] eqn:Hx; [|done].
    exfalso. assert (is_Some (Words d !! 0)) as Hs by eauto.
    apply (inv_dense _ Hd) in Hs. lia.
Qed.

(** In grow mode every token gets the identifier its text has in the
    dictionary the loop leaves behind. *)
Lemma indexTokens_grow_ids (ts : list token.t) (d : Dictionary) :
  dict_inv d →
  (indexTokens true ts d).1 =
  (λ t, {| indexedToken.Index := token.Index t;
           indexedToken.Line := token.Line t;
           indexedToken.ID := (getIndex (token.Text t) (addAll (token.Text <$> ts) d)).1 |})
    <$> ts.
Proof.
  revert d. induction ts as [|t ts IH]; intros d Hd; [done|].
  cbn [indexTokens fst snd fmap list_fmap].
  change (addAll (token.Text t :: (token.Text <$> ts)) d)
    with (addAll (token.Text <$> ts) (add (token.Text t) d).2).
  pose proof (add_inv d (token.Text t) Hd) as Hd1.
  f_equal.
  - f_equal. unfold getIndex at 1.
    by rewrite (addAll_preserves_indices _ _ _ _ Hd1 (add_indices_self d (token.Text t) Hd)).
  - by rewrite (IH _ Hd1).
Qed.

Lemma indexTokens_resolve_ids (ts : list token.t) (d : Dictionary) :
  dict_inv d →
  (indexTokens true ts d).1 = (indexTokens false ts (addAll (token.Text <$> ts) d)).1.
Proof.
  intros Hd. by rewrite indexTokens_grow_ids, indexTokens_resolve.
Qed.

Lemma addAll_idempotent (ws : list string) (d : Dictionary) :
  dict_inv d → addAll ws (addAll ws d) = addAll ws d.
Proof.
  intros Hd. apply addAll_present; [by apply addAll_inv|].
  intros w Hw. apply (addAll_indices ws d w Hd). by left.
Qed.

Lemma wordsOf_rendered (d : Dictionary) (ts : list token.t) :
  dict_inv d →
  wordsOf d ((λ t, {| indexedToken.Index := token.Index t;
                      indexedToken.Line := token.Line t;
                      indexedToken.ID := (getIndex (token.Text t) d).1 |}) <$> ts)
  = rendered d <$> (token.Text <$> ts).
Proof.
  intros Hd. unfold wordsOf. rewrite <- !list_fmap_compose.
  apply list_fmap_ext. intros k t Ht. cbn. by apply getWord_getIndex.
Qed.

Lemma rendered_present (d : Dictionary) (ws : list string) :
  (∀ w, w ∈ ws → is_Some (Indices d !! w)) → rendered d <$> ws = ws.
Proof.
  intros Hall. induction ws as [|w ws IH]; [done|].
  cbn. rewrite IH by (intros x Hx; apply Hall; by right).
  unfold rendered. destruct (Hall w) as [i ->]; [by left|]. done.
Qed.

End IndexingMore.

Section IndexingTheorems.
Context `{Collaborators}.

(** The tokens a grow-mode run leaves, and the dictionary after it. *)
Lemma generateIndexedDocument_grow (d : document.t) (σ : session) (dd : Dictionary) :
  heap σ !! Dict (this σ) = Some dd → dict_inv dd →
  generateIndexedDocument d true σ =
  Some (indexedOf (Dict (this σ))
          ((λ t, {| indexedToken.Index := token.Index t;
                    indexedToken.Line := token.Line t;
                    indexedToken.ID :=
                      (getIndex (token.Text t)
                         (addAll (token.Text <$> document.Tokens d) dd)).1 |})
             <$> document.Tokens d)
          (String.concat " " (token.Text <$> document.Tokens d)),
        {| this := this σ;
           heap := <[Dict (this σ) := addAll (token.Text <$> document.Tokens d) dd]>
                     (heap σ) |}).
Proof.
  intros Hh Hd. rewrite (generateIndexedDocument_run d true σ dd Hh).
  rewrite indexTokens_grow_state, (indexTokens_grow_ids _ _ Hd).
  set (dd' := addAll (token.Text <$> document.Tokens d) dd).
  assert (dict_inv dd') as Hd' by (by apply addAll_inv).
  rewrite (wordsOf_rendered dd' _ Hd').
  rewrite rendered_present; [done|].
  intros w Hw. apply (addAll_indices _ dd w Hd). by left.
Qed.

Lemma generateIndexedDocument_resolve (d : document.t) (σ : session) (dd : Dictionary) :
  heap σ !! Dict (this σ) = Some dd → dict_inv dd →
  generateIndexedDocument d false σ =
  Some (indexedOf (Dict (this σ))
          ((λ t, {| indexedToken.Index := token.Index t;
                    indexedToken.Line := token.Line t;
                    indexedToken.ID := (getIndex (token.Text t) dd).1 |})
             <$> document.Tokens d)
          (String.concat " " (rendered dd <$> (token.Text <$> document.Tokens d))),
        σ).
Proof.
  intros Hh Hd. rewrite (generateIndexedDocument_run d false σ dd Hh).
  rewrite indexTokens_resolve_state, indexTokens_resolve, (insert_id _ _ _ Hh).
  rewrite (wordsOf_rendered dd _ Hd). by destruct σ.
Qed.

(** X3. Grow mode is complete: on a consistent dictionary the run returns,
    leaves the dictionary with the document's words added (and still
    consistent), and gives every token a non-sentinel identifier that
    [getIndex] maps its text to and [getWord] maps back to the text. *)
Theorem grow_mode_complete (d : document.t) (σ : session) (dd : Dictionary) :
  heap σ !! Dict (this σ) = Some dd → dict_inv dd →
  ∃ id,
    generateIndexedDocument d true σ =
      Some (id, {| this := this σ;
                   heap := <[Dict (this σ) := addAll (token.Text <$> document.Tokens d) dd]>
                             (heap σ) |}) ∧
    dict_inv (addAll (token.Text <$> document.Tokens d) dd) ∧
    ∀ k t, document.Tokens d !! k = Some t →
      ∃ it, IndexedDocument.Tokens id !! k = Some it ∧
        1 ≤ indexedToken.ID it
          ≤ Z.of_nat (size (Words (addAll (token.Text <$> document.Tokens d) dd))) ∧
        getIndex (token.Text t) (addAll (token.Text <$> document.Tokens d) dd)
          = (indexedToken.ID it, addAll (token.Text <$> document.Tokens d) dd) ∧
        getWord (indexedToken.ID it) (addAll (token.Text <$> document.Tokens d) dd)
          = (token.Text t, addAll (token.Text <$> document.Tokens d) dd).
Proof.
  intros Hh Hd. eexists. split; [by apply generateIndexedDocument_grow|].
  set (dd' := addAll (token.Text <$> document.Tokens d) dd).
  assert (dict_inv dd') as Hd' by (by apply addAll_inv).
  split; [exact Hd'|]. intros k t Hk.
  rewrite indexedOf_Tokens, list_lookup_fmap, Hk. cbn [fmap option_fmap option_map].
  eexists. split; [reflexivity|]. cbn [indexedToken.ID].
  assert (is_Some (Indices dd' !! token.Text t)) as [i Hi].
  { apply (addAll_indices _ dd _ Hd). left.
    apply list_elem_of_fmap. exists t. split; [done|]. by eapply list_elem_of_lookup_2. }
  pose proof (getIndex_range dd' (token.Text t) Hd') as Hr.
  assert ((getIndex (token.Text t) dd').1 ≠ 0) as Hne.
  { rewrite (getIndex_zero _ _ Hd'), Hi. done. }
  split; [lia|]. split.
  - apply getIndex_pair.
  - pose proof (getWord_getIndex dd' (token.Text t) Hd') as Hw.
    unfold rendered in Hw. rewrite Hi in Hw.
    by rewrite getWord_pair, Hw.
Qed.

(** X4. The cached normalized text of a grow-indexed document is the
    document's token texts joined by single spaces. *)
Theorem grow_mode_norm (d : document.t) (σ : session) (dd : Dictionary) :
  heap σ !! Dict (this σ) = Some dd → dict_inv dd →
  ∃ id σ', generateIndexedDocument d true σ = Some (id, σ') ∧
    IndexedDocument.norm id = String.concat " " (token.Text <$> document.Tokens d).
Proof.
  intros Hh Hd. eexists _, _. split; [by apply generateIndexedDocument_grow|].
  by rewrite indexedOf_norm.
Qed.

(** X5. Resolve mode on a consistent dictionary: a token gets the sentinel
    identifier exactly when its text is not in the dictionary, every other
    identifier is an assigned one, and the normalized text joins, in order,
    the text of each known token and "UNKNOWN" for each unknown one. *)
Theorem resolve_mode_rendering (d : document.t) (σ : session) (dd : Dictionary) :
  heap σ !! Dict (this σ) = Some dd → dict_inv dd →
  ∃ id, generateIndexedDocument d false σ = Some (id, σ) ∧
    (∀ k t, document.Tokens d !! k = Some t →
       ∃ it, IndexedDocument.Tokens id !! k = Some it ∧
         (indexedToken.ID it = 0 ↔ Indices dd !! token.Text t = None) ∧
         0 ≤ indexedToken.ID it ≤ Z.of_nat (size (Words dd)) ∧
         (Indices dd !! token.Text t = Some (indexedToken.ID it) ∨
          Indices dd !! token.Text t = None)) ∧
    IndexedDocument.norm id =
      String.concat " " (rendered dd <$> (token.Text <$> document.Tokens d)).
Proof.
  intros Hh Hd. eexists. split; [by apply generateIndexedDocument_resolve|].
  split; [|by rewrite indexedOf_norm].
  intros k t Hk.
  rewrite indexedOf_Tokens, list_lookup_fmap, Hk. cbn [fmap option_fmap option_map].
  eexists. split; [reflexivity|]. cbn [indexedToken.ID].
  split; [by apply getIndex_zero|]. split; [by apply getIndex_range|].
  unfold getIndex. destruct (Indices dd !! token.Text t); [by left|by right].
Qed.

End IndexingTheorems.

Section IndexingComposition.
Context `{Collaborators}.

Lemma rendered_unknownWord (d : Dictionary) : rendered d "UNKNOWN" = "UNKNOWN".
Proof. unfold rendered. by destruct (Indices d !! "UNKNOWN"). Qed.

(** X6. The sentinel word is an ordinary string: a token spelled "UNKNOWN"
    and a token whose text the dictionary does not hold are rendered alike,
    so two target documents that differ only in such positions get the same
    normalized text, although (once "UNKNOWN" is in the dictionary) their
    identifiers differ there. *)
Theorem unknown_word_collision (d1 d2 : document.t) (σ : session) (dd : Dictionary) :
  heap σ !! Dict (this σ) = Some dd → dict_inv dd →
  Forall2 (λ a b, token.Text a = token.Text b ∨
                  (token.Text a = "UNKNOWN" ∧ Indices dd !! token.Text b = None))
          (document.Tokens d1) (document.Tokens d2) →
  ∃ id1 id2,
    generateIndexedDocument d1 false σ = Some (id1, σ) ∧
    generateIndexedDocument d2 false σ = Some (id2, σ) ∧
    IndexedDocument.norm id1 = IndexedDocument.norm id2 ∧
    (is_Some (Indices dd !! "UNKNOWN") →
     ∀ k a b, document.Tokens d1 !! k = Some a → document.Tokens d2 !! k = Some b →
       token.Text a ≠ token.Text b →
       ∃ i1 i2, IndexedDocument.Tokens id1 !! k = Some i1 ∧
                IndexedDocument.Tokens id2 !! k = Some i2 ∧
                indexedToken.ID i1 ≠ 0 ∧ indexedToken.ID i2 = 0).
Proof.
  intros Hh Hd Hrel. eexists _, _.
  split; [by apply generateIndexedDocument_resolve|].
  split; [by apply generateIndexedDocument_resolve|].
  rewrite !indexedOf_norm, !indexedOf_Tokens. split.
  - f_equal. induction Hrel as [|a b l1 l2 Hab _ IH]; [done|].
    cbn. rewrite IH. f_equal.
    destruct Hab as [->|[-> Hb]]; [done|].
    rewrite rendered_unknownWord. unfold rendered. by rewrite Hb.
  - intros Hunk k a b Ha Hb Hne.
    pose proof (Forall2_lookup_lr _ _ _ _ _ _ Hrel Ha Hb) as [?|[Hta Htb]]; [done|].
    rewrite !list_lookup_fmap, Ha, Hb. cbn.
    eexists _, _. split; [reflexivity|]. split; [reflexivity|]. cbn.
    split.
    + rewrite (getIndex_zero _ _ Hd), Hta. destruct Hunk as [i ->]. done.
    + by apply getIndex_zero.
Qed.

(** X7. Indexing is stable once the words are in: after a grow-mode run, a
    second grow-mode run of the same document and a resolve-mode run of it
    both return the very same indexed document and leave the session as the
    first run left it. *)
Theorem grow_then_resolve (d : document.t) (σ : session) (dd : Dictionary) :
  heap σ !! Dict (this σ) = Some dd → dict_inv dd →
  ∃ id σ',
    generateIndexedDocument d true σ = Some (id, σ') ∧
    generateIndexedDocument d true σ' = Some (id, σ') ∧
    generateIndexedDocument d false σ' = Some (id, σ').
Proof.
  intros Hh Hd. eexists _, _.
  split; [by apply generateIndexedDocument_grow|].
  set (ws := token.Text <$> document.Tokens d).
  set (dd' := addAll ws dd).
  assert (dict_inv dd') as Hd' by (by apply addAll_inv).
  set (σ' := {| this := this σ; heap := <[Dict (this σ) := dd']> (heap σ) |}).
  assert (heap σ' !! Dict (this σ') = Some dd') as Hh'
    by (cbn; by rewrite lookup_insert_eq).
  split.
  - rewrite (generateIndexedDocument_grow d σ' dd' Hh' Hd').
    fold ws. unfold dd'. rewrite (addAll_idempotent ws dd Hd). fold dd'.
    cbn [this heap σ']. by rewrite insert_insert_eq.
  - rewrite (generateIndexedDocument_resolve d σ' dd' Hh' Hd').
    fold ws. rewrite (rendered_present dd' ws); [done|].
    intros w Hw. apply (addAll_indices ws dd w Hd). by left.
Qed.

Lemma wordsOf_addAll (ws : list string) (d : Dictionary) (its : list indexedToken.t) :
  dict_inv d →
  (∀ it, it ∈ its → indexedToken.ID it ≤ Z.of_nat (size (Words d))) →
  wordsOf (addAll ws d) its = wordsOf d its.
Proof.
  intros Hd Hall. unfold wordsOf. apply list_fmap_ext.
  intros k it Hk. apply getWord_addAll; [done|].
  apply Hall. by eapply list_elem_of_lookup_2.
Qed.

(** X8. The cached [norm] stays valid while the dictionary grows: for the
    document a run of [generateIndexedDocument] returns (either mode), a
    later [normalized], against the dictionary extended by any further
    words, computes the cached string again. *)
Theorem norm_stable (d : document.t) (addWords : bool) (σ : session) (dd : Dictionary) :
  heap σ !! Dict (this σ) = Some dd → dict_inv dd →
  ∃ id σ' dd',
    generateIndexedDocument d addWords σ = Some (id, σ') ∧
    heap σ' !! Dict (this σ') = Some dd' ∧ dict_inv dd' ∧
    ∀ (ws : list string) (σ2 : session),
      heap σ2 !! IndexedDocument.dict id = Some (addAll ws dd') →
      normalized id σ2 = Some (IndexedDocument.norm id, σ2).
Proof.
  intros Hh Hd.
  assert (∀ dd' ts ws (σ2 : session) n, dict_inv dd' →
            heap σ2 !! Dict (this σ) = Some (addAll ws dd') →
            n = String.concat " " (rendered dd' <$> (token.Text <$> ts)) →
            normalized
              (indexedOf (Dict (this σ))
                 ((λ t, {| indexedToken.Index := token.Index t;
                           indexedToken.Line := token.Line t;
                           indexedToken.ID := (getIndex (token.Text t) dd').1 |}) <$> ts) n)
              σ2
            = Some (n, σ2)) as Hnorm.
  { intros dd' ts ws σ2 n Hd' H2 ->.
    rewrite (normalized_run _ σ2 (addAll ws dd')) by exact H2.
    rewrite indexedOf_Tokens, (wordsOf_addAll ws dd' _ Hd').
    - by rewrite (wordsOf_rendered dd' ts Hd').
    - intros it Hit. apply list_elem_of_fmap in Hit as (t & -> & _). cbn.
      apply (getIndex_range dd' _ Hd'). }
  destruct addWords.
  - eexists _, _, _. split; [by apply generateIndexedDocument_grow|].
    set (dd' := addAll (token.Text <$> document.Tokens d) dd).
    assert (dict_inv dd') as Hd' by (by apply addAll_inv).
    split; [cbn; by rewrite lookup_insert_eq|]. split; [exact Hd'|].
    intros ws σ2 H2. rewrite indexedOf_norm.
    apply (Hnorm dd' _ ws σ2 _ Hd' H2).
    rewrite rendered_present; [done|].
    intros w Hw. apply (addAll_indices _ dd w Hd). by left.
  - eexists _, _, _. split; [by apply generateIndexedDocument_resolve|].
    split; [exact Hh|]. split; [exact Hd|].
    intros ws σ2 H2. rewrite indexedOf_norm.
    by apply (Hnorm dd _ ws σ2 _ Hd H2).
Qed.

End IndexingComposition.

(** ** Further properties of the registry *)

Section RegistryMore.
Context `{Collaborators} `{Platform}.

Lemma addDocument_grow category name variant doc (σ : session) dd :
  heap σ !! Dict (this σ) = Some dd → dict_inv dd →
  addDocument category name variant doc σ =
  Some (tt,
        {| this :=
             setDocs (this σ)
               (<[generateDocName category name variant :=
                    corpusEntry
                      (indexedOf (Dict (this σ))
                         ((λ t, {| indexedToken.Index := token.Index t;
                                   indexedToken.Line := token.Line t;
                                   indexedToken.ID :=
                                     (getIndex (token.Text t)
                                        (addAll (token.Text <$> document.Tokens doc) dd)).1 |})
                            <$> document.Tokens doc)
                         (String.concat " " (token.Text <$> document.Tokens doc)))
                      (Q (this σ))
                      (generateDocName category name variant)]>
                  (Docs (this σ)));
           heap := <[Dict (this σ) := addAll (token.Text <$> document.Tokens doc) dd]>
                     (heap σ) |}).
Proof.
  intros Hh Hd. unfold addDocument. unfold bind at 1.
  rewrite (generateIndexedDocument_grow doc σ dd Hh Hd).
  reflexivity.
Qed.

Lemma entry_ok_addAll (ws : list string) (dd : Dictionary) (p : loc) (key : string)
    (e : IndexedDocument.t) :
  dict_inv dd → entry_ok dd p key e → entry_ok (addAll ws dd) p key e.
Proof.
  intros Hd (Hp & Hs & Hids & Hn).
  split; [done|]. split; [done|]. split.
  - intros it Hit. pose proof (Hids it Hit). pose proof (addAll_size_le ws dd Hd). lia.
  - rewrite Hn. f_equal. symmetry. apply wordsOf_addAll; [done|].
    intros it Hit. apply (Hids it Hit).
Qed.

Lemma registry_ok_empty (σ : session) :
  heap σ !! Dict (this σ) = Some newDictionary → Docs (this σ) = ∅ → registry_ok σ.
Proof.
  intros Hh He. exists newDictionary. split; [done|]. split; [apply newDictionary_inv|].
  intros key e. rewrite He, lookup_empty. done.
Qed.

(** X9. What [addDocument] leaves alone: with a dictionary behind [c.Dict]
    it returns and changes the registry at its own key only; [c.Dict] and
    [c.Q] keep their values, the heap changes at [c.Dict] only, where the
    dictionary has gained the document's words, and every word known before
    keeps its identifier. *)
Theorem addDocument_frame (category name variant : string) (doc : document.t)
    (σ : session) (dd : Dictionary) :
  heap σ !! Dict (this σ) = Some dd → dict_inv dd →
  ∃ σ',
    addDocument category name variant doc σ = Some (tt, σ') ∧
    Dict (this σ') = Dict (this σ) ∧
    Q (this σ') = Q (this σ) ∧
    dom (Docs (this σ')) = {[generateDocName category name variant]} ∪ dom (Docs (this σ)) ∧
    (∀ key, key ≠ generateDocName category name variant →
       Docs (this σ') !! key = Docs (this σ) !! key) ∧
    heap σ' = <[Dict (this σ) := addAll (token.Text <$> document.Tokens doc) dd]> (heap σ) ∧
    (∀ p, p ≠ Dict (this σ) → heap σ' !! p = heap σ !! p) ∧
    (∀ w i, Indices dd !! w = Some i →
       Indices (addAll (token.Text <$> document.Tokens doc) dd) !! w = Some i).
Proof.
  intros Hh Hd. eexists. split; [by apply addDocument_grow|]. cbn.
  split; [done|]. split; [done|].
  split; [apply dom_insert_L|].
  split; [intros key Hk; by rewrite lookup_insert_ne|].
  split; [done|].
  split; [intros p Hp; by rewrite lookup_insert_ne|].
  intros w i Hw. by apply addAll_preserves_indices.
Qed.

Lemma registry_ok_step (category name variant : string) (doc : document.t)
    (σ : session) :
  registry_ok σ →
  ∃ σ', addDocument category name variant doc σ = Some (tt, σ') ∧ registry_ok σ'.
Proof.
  intros (dd & Hh & Hd & Hall).
  eexists. split; [by apply addDocument_grow|].
  set (ws := token.Text <$> document.Tokens doc).
  set (dd' := addAll ws dd).
  assert (dict_inv dd') as Hd' by (by apply addAll_inv).
  assert (∀ w, w ∈ ws → is_Some (Indices dd' !! w)) as Hin.
  { intros w Hw. apply (addAll_indices ws dd w Hd). by left. }
  exists dd'. cbn. split; [by rewrite lookup_insert_eq|]. split; [done|].
  intros key e.
  destruct (decide (key = generateDocName category name variant)) as [->|Hne].
  - rewrite lookup_insert_eq. intros [= <-].
    split; [reflexivity|].
    split; [eexists; split; reflexivity|].
    split.
    + intros it Hit. cbn in Hit.
      apply list_elem_of_fmap in Hit as (t & -> & Ht). cbn.
      pose proof (getIndex_range dd' (token.Text t) Hd') as Hr.
      assert ((getIndex (token.Text t) dd').1 ≠ 0); [|lia].
      rewrite (getIndex_zero dd' _ Hd').
      destruct (Hin (token.Text t)) as [i Hi].
      { apply list_elem_of_fmap. by exists t. }
      by rewrite Hi.
    + rewrite corpusEntry_Tokens, indexedOf_Tokens, (wordsOf_rendered dd' _ Hd').
      fold ws. by rewrite (rendered_present dd' ws Hin).
  - rewrite lookup_insert_ne by done. intros He.
    by apply entry_ok_addAll, Hall.
Qed.

(** X10. The registry invariant: if the dictionary behind [c.Dict] is
    well-formed and every stored entry points to it, carries a search set
    tagged with its own key, uses only assigned identifiers and caches the
    string [normalized] computes, then [addDocument] returns and the same
    holds afterwards, for the new entry and for all the old ones. *)
Theorem addDocument_registry_ok (category name variant : string) (doc : document.t)
    (σ : session) :
  registry_ok σ →
  ∃ σ', addDocument category name variant doc σ = Some (tt, σ') ∧ registry_ok σ'.
Proof. apply registry_ok_step. Qed.


(** X11. Matching a text against itself: after [AddContent] of some content,
    [createTargetIndexedDocument] of the same content returns without
    touching the session, and the target carries exactly the tokens and the
    normalized string of the stored corpus entry; no token of it is
    unknown. *)
Theorem AddContent_then_target (category name variant : string) (content : list Byte.byte)
    (σ : session) :
  registry_ok σ →
  ∃ σ' e id,
    AddContent category name variant content σ = Some (tt, σ') ∧
    getIndexedDocument category name variant σ' = Some (Some e, σ') ∧
    createTargetIndexedDocument content σ' = Some (id, σ') ∧
    IndexedDocument.Tokens id = IndexedDocument.Tokens e ∧
    IndexedDocument.norm id = IndexedDocument.norm e ∧
    IndexedDocument.dict id = IndexedDocument.dict e ∧
    (∀ it, it ∈ IndexedDocument.Tokens id → indexedToken.ID it ≠ 0).
Proof.
  intros (dd & Hh & Hd & Hall).
  set (ws := token.Text <$> document.Tokens (tokenize content)).
  set (dd' := addAll ws dd).
  assert (dict_inv dd') as Hd' by (by apply addAll_inv).
  assert (∀ w, w ∈ ws → is_Some (Indices dd' !! w)) as Hin.
  { intros w Hw. apply (addAll_indices ws dd w Hd). by left. }
  eexists _, _, _.
  split; [unfold AddContent; by apply addDocument_grow|].
  split; [rewrite getIndexedDocument_run; cbn; by rewrite lookup_insert_eq|].
  split.
  { unfold createTargetIndexedDocument.
    apply (generateIndexedDocument_resolve _ _ dd'); [|done].
    cbn. by rewrite lookup_insert_eq. }
  fold ws dd'. cbn.
  split; [done|].
  split; [by rewrite (rendered_present dd' ws Hin)|].
  split; [done|].
  intros it Hit. apply list_elem_of_fmap in Hit as (t & -> & Ht). cbn.
  rewrite (getIndex_zero dd' _ Hd').
  destruct (Hin (token.Text t)) as [i Hi].
  { apply list_elem_of_fmap. by exists t. }
  by rewrite Hi.
Qed.

(** X12. What a lookup returns under the registry invariant: an entry found
    by [getIndexedDocument] has a search set whose origin is the key built
    from the triple, and [normalized] on it returns its cached [norm]. *)
Theorem getIndexedDocument_entry (category name variant : string) (σ : session)
    (e : IndexedDocument.t) :
  registry_ok σ →
  getIndexedDocument category name variant σ = Some (Some e, σ) →
  (∃ ss, IndexedDocument.s e = Some ss ∧
         SearchSet.origin ss = generateDocName category name variant) ∧
  normalized e σ = Some (IndexedDocument.norm e, σ) ∧
  (∀ it, it ∈ IndexedDocument.Tokens e → indexedToken.ID it ≠ 0).
Proof.
  intros (dd & Hh & Hd & Hall). rewrite getIndexedDocument_run. intros [= He].
  destruct (Hall _ _ He) as (Hp & Hs & Hids & Hn).
  split; [done|]. split.
  - rewrite (normalized_run e σ dd) by (by rewrite Hp). by rewrite Hn.
  - intros it Hit. pose proof (Hids it Hit). lia.
Qed.

Lemma split_unique (c : Ascii.ascii) (a b x y : string) :
  occurs c a = false → occurs c b = false →
  a +:+ String c x = b +:+ String c y → a = b ∧ x = y.
Proof.
  revert b. induction a as [|ca a IH]; intros [|cb b] Ha Hb Heq.
  - cbn in Heq. by injection Heq.
  - rewrite string_app_cons in Heq. cbn in Heq. injection Heq as Hc _.
    cbn in Hb. subst cb. by rewrite Ascii.eqb_refl in Hb.
  - rewrite string_app_cons in Heq. cbn in Heq. injection Heq as Hc _.
    cbn in Ha. subst ca. by rewrite Ascii.eqb_refl in Ha.
  - rewrite !string_app_cons in Heq. injection Heq as Hc Hrest.
    cbn in Ha, Hb. apply orb_false_iff in Ha as [_ Ha]. apply orb_false_iff in Hb as [_ Hb].
    destruct (IH b Ha Hb Hrest) as [-> ->]. by subst.
Qed.

(** X13. Keys are unambiguous when the first two parts are free of the
    separator: if neither the categories nor the names contain
    [os.PathSeparator], two triples with the same document name are the same
    triple (the variant may contain separators). *)
Theorem generateDocName_injective (c1 n1 v1 c2 n2 v2 : string) :
  occurs PathSeparator c1 = false → occurs PathSeparator c2 = false →
  occurs PathSeparator n1 = false → occurs PathSeparator n2 = false →
  generateDocName c1 n1 v1 = generateDocName c2 n2 v2 →
  c1 = c2 ∧ n1 = n2 ∧ v1 = v2.
Proof.
  intros Hc1 Hc2 Hn1 Hn2 Heq. unfold generateDocName in Heq.
  destruct (split_unique _ _ _ _ _ Hc1 Hc2 Heq) as [-> Heq'].
  destruct (split_unique _ _ _ _ _ Hn1 Hn2 Heq') as [-> ->]. done.
Qed.

End RegistryMore.

(** ** Further properties of the threshold policy *)

Section PolicyMore.
Context `{Platform}.

Lemma valid_canonical (s : bool) (m : positive) (e : Z) :
  F64.valid (S754_finite s m e) = true →
  Z.max (Z.pos (digits2_pos m) + e - 53) (-1074) = e ∧ e ≤ 971.
Proof.
  unfold F64.valid, valid_binary, bounded, canonical_mantissa.
  intros Hv. apply andb_true_iff in Hv as [Hc He].
  apply Z.eqb_eq in Hc. rewrite fexp_eq in Hc.
  apply Z.leb_le in He. unfold F64.emax, F64.prec in He. lia.
Qed.

(** The exact fraction behind a threshold in (0, 1). *)
Lemma unit_interval_fraction (t : spec_float) :
  F64.valid t = true → F64.ltb F64.zero t = true → F64.ltb t F64.one = true →
  ∃ m e, t = S754_finite false m e ∧ -1074 ≤ e ≤ -53 ∧
    F64.num t = Z.pos m ∧ F64.den t = 2 ^ (- e) ∧ Z.pos m < 2 ^ 53 ∧
    0 < F64.num t < F64.den t.
Proof.
  intros Hv H0 H1.
  destruct (below_one_shape t Hv H0 H1) as (m & e & -> & He & Hd & _).
  pose proof (digits2_bounds m) as [_ Hhi].
  assert (Z.pos m < 2 ^ 53) as Hm.
  { eapply Z.lt_le_trans; [exact Hhi|]. apply Z.pow_le_mono_r; lia. }
  assert (2 ^ 53 ≤ 2 ^ (- e)) as Hpow by (apply Z.pow_le_mono_r; lia).
  exists m, e. split; [done|]. split; [done|].
  assert (F64.num (S754_finite false m e) = Z.pos m) as Hnum.
  { unfold F64.num. cbn [cond_Zopp]. replace (Z.max e 0) with 0 by lia.
    by rewrite Z.pow_0_r, Z.mul_1_r. }
  assert (F64.den (S754_finite false m e) = 2 ^ (- e)) as Hden.
  { unfold F64.den. by replace (Z.max (- e) 0) with (- e) by lia. }
  rewrite Hnum, Hden. repeat split; lia.
Qed.

(** [computeQ] on (0, 1), in integers. *)
Lemma computeQ_fraction (t : spec_float) :
  F64.valid t = true → F64.ltb F64.zero t = true → F64.ltb t F64.one = true →
  computeQ t = Z.max 1 (F64.num t / (F64.den t - F64.num t)) ∧
  computeQ t < 2 ^ 53.
Proof.
  intros Hv H0 H1.
  destruct (quotient_integer_part t Hv H0 H1) as (z & Htr & _ & Hz & Hmax).
  assert (computeQ t = Z.max 1 z) as Hq.
  { unfold computeQ. rewrite (ltb_one_not_eqb t H1), max_Zmax.
    unfold F64.toInt. rewrite Htr.
    unfold F64.int_min, F64.int_max.
    destruct (Z.leb_spec (- 2 ^ 63) z); [|lia].
    destruct (Z.leb_spec z (2 ^ 63 - 1)); [done|lia]. }
  split; [by rewrite Hq, Hmax|]. rewrite Hq. lia.
Qed.

(** The order of two thresholds in (0, 1) is the order of their values. *)
Lemma ltb_fraction (t1 t2 : spec_float) :
  F64.valid t1 = true → F64.ltb F64.zero t1 = true → F64.ltb t1 F64.one = true →
  F64.valid t2 = true → F64.ltb F64.zero t2 = true → F64.ltb t2 F64.one = true →
  F64.ltb t1 t2 = true →
  F64.num t1 * F64.den t2 < F64.num t2 * F64.den t1.
Proof.
  intros Hv1 H01 H11 Hv2 H02 H12 Hlt.
  destruct (unit_interval_fraction t1 Hv1 H01 H11)
    as (m1 & e1 & -> & He1 & -> & -> & Hm1 & _).
  destruct (unit_interval_fraction t2 Hv2 H02 H12)
    as (m2 & e2 & -> & He2 & -> & -> & Hm2 & _).
  destruct (valid_canonical _ _ _ Hv2) as [Hc2 _].
  unfold F64.ltb, SFltb, SFcompare in Hlt.
  destruct (Z.compare_spec e1 e2) as [Heq|Hlte|Hgt]; [| |done].
  - subst e2. rewrite Pos.compare_cont_spec in Hlt. cbn [Pos.switch_Eq] in Hlt.
    destruct (Pos.compare_spec m1 m2) as [?|Hm|?]; try discriminate Hlt.
    apply Pos2Z.pos_lt_pos in Hm.
    apply Z.mul_lt_mono_pos_r; [|done]. apply Z.pow_pos_nonneg; lia.
  - assert (Z.pos (digits2_pos m2) = 53) as Hd2 by lia.
    pose proof (digits2_bounds m2) as [Hlo _]. rewrite Hd2 in Hlo.
    change (53 - 1) with 52 in Hlo.
    assert (0 < 2 ^ (- e2)) by (apply Z.pow_pos_nonneg; lia).
    assert (0 < 2 ^ (- e1)) by (apply Z.pow_pos_nonneg; lia).
    apply Z.lt_le_trans with (2 ^ 53 * 2 ^ (- e2)).
    { apply Z.mul_lt_mono_pos_r; done. }
    apply Z.le_trans with (2 ^ 52 * 2 ^ (- e1)).
    { rewrite <- !Z.pow_add_r by lia. apply Z.pow_le_mono_r; lia. }
    apply Z.mul_le_mono_nonneg_r; lia.
Qed.

Lemma ltb_positive_shape (x t : spec_float) :
  F64.ltb F64.zero x = true ∨ x = F64.zero → F64.ltb x t = true →
  t = S754_infinity false ∨ ∃ m e, t = S754_finite false m e.
Proof.
  intros Hx Hlt.
  destruct t as [[]|[]| |[] m e]; eauto; exfalso;
    destruct x as [[]|[]| |[] mx ex]; destruct Hx as [Hx|Hx];
    discriminate Hx || discriminate Hlt.
Qed.

Lemma ltb_finite_positive (m1 m2 : positive) (e1 e2 : Z) :
  SFltb (S754_finite false m1 e1) (S754_finite false m2 e2) = true ↔
  e1 < e2 ∨ (e1 = e2 ∧ (m1 < m2)%positive).
Proof.
  unfold SFltb, SFcompare.
  destruct (Z.compare_spec e1 e2) as [He|He|He].
  - rewrite Pos.compare_cont_spec. cbn [Pos.switch_Eq].
    destruct (Pos.compare_spec m1 m2) as [Hm|Hm|Hm]; split; intros Hx;
      try discriminate Hx; try reflexivity; lia.
  - split; [lia|done].
  - split; intros Hx; [discriminate Hx|lia].
Qed.

Lemma div_le_cross (n1 D1 n2 D2 : Z) :
  0 ≤ n1 → 0 < D1 → 0 < D2 → n1 * D2 ≤ n2 * D1 → n1 / D1 ≤ n2 / D2.
Proof.
  intros Hn1 HD1 HD2 Hc.
  apply Z.div_le_lower_bound; [done|].
  assert (D1 * (n1 / D1) ≤ n1) as Hq by (apply Z.mul_div_le; done).
  assert (0 ≤ n1 / D1) as Hq0 by (apply Z.div_pos; lia).
  apply (Z.mul_le_mono_pos_r _ _ D1); [done|].
  apply Z.le_trans with (n1 * D2); [|done].
  replace (D2 * (n1 / D1) * D1) with (D1 * (n1 / D1) * D2) by ring.
  apply Z.mul_le_mono_nonneg_r; lia.
Qed.

(** X14. Where [computeQ] steps: for a float64 threshold [t] in (0, 1) and
    [n >= 2], the result reaches [n] exactly when [t] is at least
    [n / (n + 1)]; so it is 1 below 2/3, 2 from 2/3 up to (not including)
    3/4, and so on. *)
Theorem computeQ_steps (t : spec_float) (n : Z) :
  F64.valid t = true → F64.ltb F64.zero t = true → F64.ltb t F64.one = true →
  2 ≤ n →
  (n ≤ computeQ t ↔ (n # Z.to_pos (n + 1) <= F64.toQ t)%Q).
Proof.
  intros Hv H0 H1 Hn.
  destruct (computeQ_fraction t Hv H0 H1) as [-> _].
  destruct (unit_interval_fraction t Hv H0 H1) as (m & e & _ & _ & _ & _ & _ & Hnd).
  unfold F64.toQ, Qle. cbn [Qnum Qden].
  rewrite !Z2Pos.id by lia.
  set (a := F64.num t) in *. set (b := F64.den t) in *.
  split.
  - intros Hq. assert (n ≤ a / (b - a)) as Hq' by lia.
    assert ((b - a) * (a / (b - a)) ≤ a) by (apply Z.mul_div_le; lia).
    assert ((b - a) * n ≤ (b - a) * (a / (b - a)))
      by (apply Z.mul_le_mono_nonneg_l; lia).
    lia.
  - intros Hc. assert (n ≤ a / (b - a)); [|lia].
    apply Z.div_le_lower_bound; lia.
Qed.

Lemma computeQ_monotone_unit (t1 t2 : spec_float) :
  F64.valid t1 = true → F64.ltb F64.zero t1 = true →
  F64.valid t2 = true → F64.ltb t2 F64.one = true →
  F64.ltb t1 t2 = true →
  computeQ t1 ≤ computeQ t2.
Proof.
  intros Hv1 H01 Hv2 H12 Hlt.
  assert (F64.ltb t1 F64.one = true ∧ F64.ltb F64.zero t2 = true) as [H11 H02].
  { destruct (ltb_positive_shape F64.zero t1 (or_intror eq_refl) H01) as [->|(m1 & e1 & ->)].
    { by destruct t2 as [[]|[]| |[] ? ?]. }
    destruct (ltb_positive_shape _ t2 (or_introl H01) Hlt) as [->|(m2 & e2 & ->)]; [done|].
    split; [|done].
    unfold F64.ltb, F64.one in *.
    apply ltb_finite_positive in Hlt, H12. apply ltb_finite_positive.
    clear Hv1 Hv2 H01.
    destruct H12 as [He2|[-> Hm2]].
    - left. destruct Hlt as [?|[-> _]]; lia.
    - destruct Hlt as [?|[-> Hm]]; [left; clear Hm2; lia|right].
      split; [reflexivity|]. exact (Pos.lt_trans _ _ _ Hm Hm2). }
  destruct (computeQ_fraction t1 Hv1 H01 H11) as [-> _].
  destruct (computeQ_fraction t2 Hv2 H02 H12) as [-> _].
  pose proof (ltb_fraction t1 t2 Hv1 H01 H11 Hv2 H02 H12 Hlt) as Hc.
  destruct (unit_interval_fraction t1 Hv1 H01 H11) as (? & ? & _ & _ & _ & _ & _ & Hnd1).
  destruct (unit_interval_fraction t2 Hv2 H02 H12) as (? & ? & _ & _ & _ & _ & _ & Hnd2).
  apply Z.max_le_compat_l.
  apply div_le_cross; [lia|lia|lia|]. lia.
Qed.

(** X17. The special case breaks monotonicity at the top: every float64
    threshold from 11/12 up to, not including, 1.0 gives a q above the 10
    that [threshold == 1.0] returns. *)
Theorem computeQ_drop_at_one (t : spec_float) :
  F64.valid t = true → F64.ltb t F64.one = true →
  (11 # 12 <= F64.toQ t)%Q →
  computeQ F64.one < computeQ t.
Proof.
  intros Hv H1 Hq.
  assert (F64.ltb F64.zero t = true) as H0.
  { destruct t as [s|s| |s m e].
    1-3: exfalso; revert Hq; unfold F64.toQ, Qle; cbn; lia.
    destruct s; [|reflexivity]. exfalso. revert Hq.
      unfold F64.toQ, Qle, F64.num, F64.den. cbn [cond_Zopp Qnum Qden].
      assert (0 < 2 ^ Z.max e 0) by (apply Z.pow_pos_nonneg; lia).
      assert (0 < 2 ^ Z.max (- e) 0) by (apply Z.pow_pos_nonneg; lia).
      rewrite Z2Pos.id by done. lia. }
  destruct (computeQ_fraction t Hv H0 H1) as [-> _].
  destruct (unit_interval_fraction t Hv H0 H1) as (m & e & _ & _ & _ & _ & _ & Hnd).
  change (computeQ F64.one) with 10.
  revert Hq. unfold F64.toQ, Qle. cbn [Qnum Qden].
  rewrite Z2Pos.id by lia. intros Hq.
  assert (11 ≤ F64.num t / (F64.den t - F64.num t)); [|lia].
  apply Z.div_le_lower_bound; lia.
Qed.

End PolicyMore.

(** ** The threshold policy on the whole float64 line *)

Section Magnitude.

Lemma Zdigits2_bounds (a : Z) : 0 < a → 2 ^ (Zdigits2 a - 1) ≤ a < 2 ^ Zdigits2 a.
Proof.
  intros Ha. destruct a as [|p|p]; [lia| |lia].
  rewrite Zdigits2_pos. apply digits2_bounds.
Qed.

Lemma Zdigits2_pos_ge_1 (a : Z) : 0 < a → 1 ≤ Zdigits2 a.
Proof.
  intros Ha. destruct a as [|p|p]; [lia| |lia]. rewrite Zdigits2_pos. lia.
Qed.

Lemma Zdigits2_mono (a b : Z) : 0 ≤ a ≤ b → Zdigits2 a ≤ Zdigits2 b.
Proof.
  intros [Ha Hab]. destruct (Z.eq_dec b 0) as [->|Hb].
  { by replace a with 0 by lia. }
  pose proof (Zdigits2_bounds b ltac:(lia)) as [_ Hhi].
  apply Zdigits2_le; [apply Zdigits2_nonneg|lia].
Qed.

(** A lower bound on the value gives a lower bound on the digit count. *)
Lemma Zdigits2_ge (a d : Z) : 0 ≤ d → 2 ^ d ≤ a → d + 1 ≤ Zdigits2 a.
Proof.
  intros Hd Ha.
  assert (0 < a) as Hpos by (pose proof (Z.pow_pos_nonneg 2 d); lia).
  pose proof (Zdigits2_bounds a Hpos) as [_ Hhi].
  destruct (Z.le_gt_cases (d + 1) (Zdigits2 a)) as [?|Hlt]; [done|].
  exfalso.
  assert (2 ^ Zdigits2 a ≤ 2 ^ d) by (apply Z.pow_le_mono_r; lia).
  lia.
Qed.

Lemma Zdigits2_shift (a k : Z) : 0 < a → 0 ≤ k → Zdigits2 (a * 2 ^ k) = Zdigits2 a + k.
Proof.
  intros Ha Hk.
  pose proof (Zdigits2_bounds a Ha) as [Hlo Hhi].
  pose proof (Zdigits2_pos_ge_1 a Ha) as Hd.
  assert (0 < 2 ^ k) as Hp by (apply Z.pow_pos_nonneg; lia).
  destruct (a * 2 ^ k) as [|p|p] eqn:Hprod; [nia| |nia].
  rewrite Zdigits2_pos. apply digits2_unique. rewrite <- Hprod.
  replace (Zdigits2 a + k - 1) with (Zdigits2 a - 1 + k) by lia.
  rewrite !Z.pow_add_r by lia. split.
  - apply Z.mul_le_mono_nonneg_r; lia.
  - apply Z.mul_lt_mono_pos_r; lia.
Qed.

(** Dropping [k] low bits drops [k] digits, as long as some are left. *)
Lemma Zdigits2_div (a k : Z) :
  0 ≤ a → 0 ≤ k → Zdigits2 (a / 2 ^ k) + k ≤ Z.max (Zdigits2 a) k.
Proof.
  intros Ha Hk.
  assert (0 < 2 ^ k) as Hp by (apply Z.pow_pos_nonneg; lia).
  assert (0 ≤ a / 2 ^ k) as Hq by (apply Z.div_pos; lia).
  destruct (Z.eq_dec (a / 2 ^ k) 0) as [->|Hne]; [cbn; lia|].
  rewrite <- Zdigits2_shift by lia.
  etrans; [|apply Z.le_max_l].
  apply Zdigits2_mono. split; [lia|].
  rewrite Z.mul_comm. apply Z.mul_div_le; lia.
Qed.

Lemma Zdigits2_div_ge (a k : Z) :
  0 < a → 0 ≤ k → Zdigits2 a - k ≤ Zdigits2 (a / 2 ^ k).
Proof.
  intros Ha Hk.
  pose proof (Zdigits2_bounds a Ha) as [Hlo _].
  pose proof (Zdigits2_nonneg (a / 2 ^ k)) as Hnn.
  destruct (Z.le_gt_cases (Zdigits2 a) k) as [?|Hlt].
  { revert Hnn. generalize (Zdigits2 (a / 2 ^ k)). intros. lia. }
  assert (Zdigits2 a - 1 - k + 1 ≤ Zdigits2 (a / 2 ^ k)) as Hx.
  2:{ revert Hx. generalize (Zdigits2 (a / 2 ^ k)). intros. lia. }
  apply Zdigits2_ge; [lia|].
  apply Z.div_le_lower_bound; [apply Z.pow_pos_nonneg; lia|].
  rewrite <- Z.pow_add_r by lia.
  by replace (k + (Zdigits2 a - 1 - k)) with (Zdigits2 a - 1) by lia.
Qed.

Lemma Zdigits2_succ (a : Z) : 0 ≤ a → Zdigits2 (a + 1) ≤ Zdigits2 a + 1.
Proof.
  intros Ha. destruct (Z.eq_dec a 0) as [->|Hne]; [by vm_compute|].
  pose proof (Zdigits2_bounds a ltac:(lia)) as [_ Hhi].
  pose proof (Zdigits2_nonneg a) as Hnn.
  apply Zdigits2_le; [lia|].
  rewrite Z.pow_add_r, Z.pow_1_r by lia. lia.
Qed.

End Magnitude.

Section LooseRounding.

(** Rounding raises the magnitude by at most one binade and cannot overflow
    from a moderate magnitude. *)
Lemma binary_round_aux_upper (s : bool) (m e : Z) (l : location) (μ : Z) :
  0 ≤ m → Zdigits2 m + e ≤ μ → e ≤ μ → -1074 ≤ μ → μ ≤ 1000 → e ≤ 971 →
  binary_round_aux F64.prec F64.emax s m e l = S754_zero s ∨
  ∃ mf ef, binary_round_aux F64.prec F64.emax s m e l = S754_finite s mf ef ∧
    Zdigits2 (Z.pos mf) + ef ≤ μ + 1.
Proof.
  intros Hm Hmag Heμ Hμlo Hμhi He.
  rewrite binary_round_aux_finish.
  destruct (shr_fexp_m m e l Hm) as [Hm1 He1]. rewrite Hm1, He1. clear Hm1 He1.
  rewrite fexp_eq.
  set (k := Z.max 0 (Z.max (Zdigits2 m + e - 53) (-1074) - e)).
  assert (0 ≤ k) as Hk by lia.
  assert (0 < 2 ^ k) as Hpk by (apply Z.pow_pos_nonneg; lia).
  set (m1 := m / 2 ^ k).
  assert (0 ≤ m1) as Hm1 by (apply Z.div_pos; lia).
  pose proof (Zdigits2_div m k Hm Hk) as Hd1. fold m1 in Hd1.
  set (m' := round_nearest_even m1 _).
  pose proof (round_nearest_even_bounds m1
                (loc_of_shr_record (shr_fexp F64.prec F64.emax m e l).1)) as Hr.
  fold m' in Hr.
  assert (Zdigits2 m' ≤ Zdigits2 m1 + 1) as Hd'.
  { etrans; [apply (Zdigits2_mono m' (m1 + 1)); lia|]. by apply Zdigits2_succ. }
  assert (0 ≤ m') as Hm' by lia.
  rewrite (finish_spec s m' (e + k) Hm'). rewrite fexp_eq.
  set (k' := Z.max 0 (Z.max (Zdigits2 m' + (e + k) - 53) (-1074) - (e + k))).
  assert (0 ≤ k') as Hk' by lia.
  assert (0 < 2 ^ k') as Hpk' by (apply Z.pow_pos_nonneg; lia).
  pose proof (Zdigits2_div m' k' Hm' Hk') as Hdf.
  assert (0 ≤ m' / 2 ^ k') as Hq by (apply Z.div_pos; lia).
  destruct (m' / 2 ^ k') as [|mf|mf] eqn:Hmf; [by left| |lia].
  right. exists mf, (e + k + k').
  assert (e + k + k' ≤ 971) as Hef by lia.
  unfold F64.emax, F64.prec.
  destruct (Z.leb_spec (e + k + k') (1024 - 53)) as [_|?]; [|lia].
  split; [done|]. lia.
Qed.

(** Rounding an integer of normal magnitude keeps its magnitude (or
    overflows). *)
Lemma binary_round_lower (s : bool) (mx : positive) (ex ν : Z) :
  -1021 ≤ ν → ν ≤ Z.pos (digits2_pos mx) + ex →
  binary_round F64.prec F64.emax s mx ex = S754_infinity s ∨
  ∃ mf ef, binary_round F64.prec F64.emax s mx ex = S754_finite s mf ef ∧
    ν ≤ Zdigits2 (Z.pos mf) + ef.
Proof.
  intros Hν Hmag. rewrite binary_round_unfold, fexp_eq.
  set (g := Z.pos (digits2_pos mx) + ex) in *.
  destruct (shl_align_spec mx ex (Z.max (g - 53) (-1074))) as [He Hmz].
  rewrite He. clear He.
  set (mz := Z.pos (shl_align mx ex (Z.max (g - 53) (-1074))).1) in *.
  set (ez := Z.min ex (Z.max (g - 53) (-1074))) in *.
  assert (0 < mz) as Hmzpos by (unfold mz; lia).
  assert (Zdigits2 mz = g - ez) as Hdz.
  { rewrite Hmz, Zdigits2_shift by lia. rewrite Zdigits2_pos. unfold g. lia. }
  rewrite binary_round_aux_finish.
  destruct (shr_fexp_m mz ez loc_Exact ltac:(lia)) as [Hm1 He1].
  rewrite Hm1, He1. clear Hm1 He1. rewrite fexp_eq, Hdz.
  replace (Z.max 0 (Z.max (g - ez + ez - 53) (-1074) - ez)) with (g - 53 - ez) by lia.
  set (k := g - 53 - ez). assert (0 ≤ k) as Hk by lia.
  set (m1 := mz / 2 ^ k).
  pose proof (Zdigits2_div_ge mz k Hmzpos Hk) as Hd1. fold m1 in Hd1.
  assert (0 < 2 ^ k) as Hpk by (apply Z.pow_pos_nonneg; lia).
  assert (0 ≤ m1) as Hm1 by (apply Z.div_pos; lia).
  set (m' := round_nearest_even m1 _).
  pose proof (round_nearest_even_bounds m1
                (loc_of_shr_record (shr_fexp F64.prec F64.emax mz ez loc_Exact).1)) as Hr.
  fold m' in Hr.
  assert (Zdigits2 m1 ≤ Zdigits2 m') as Hd' by (apply Zdigits2_mono; lia).
  assert (0 ≤ m') as Hm' by lia.
  rewrite (finish_spec s m' (ez + k) Hm'). rewrite fexp_eq.
  replace (Z.max 0 (Z.max (Zdigits2 m' + (ez + k) - 53) (-1074) - (ez + k)))
    with (Zdigits2 m' - 53) by lia.
  set (k' := Zdigits2 m' - 53). assert (0 ≤ k') as Hk' by lia.
  assert (0 < m') as Hm'pos.
  { destruct (Z.eq_dec m' 0) as [Hz|?]; [|lia]. rewrite Hz in Hd'. cbn in Hd'. lia. }
  pose proof (Zdigits2_div_ge m' k' Hm'pos Hk') as Hdf.
  assert (0 < 2 ^ k') as Hpk' by (apply Z.pow_pos_nonneg; lia).
  assert (0 ≤ m' / 2 ^ k') as Hq by (apply Z.div_pos; lia).
  destruct (m' / 2 ^ k') as [|mf|mf] eqn:Hmf; [cbn in Hdf; lia| |lia].
  destruct (ez + k + k' <=? F64.emax - F64.prec); [right|by left].
  exists mf, (ez + k + k'). split; [done|]. lia.
Qed.

End LooseRounding.

Section OutsideUnitInterval.

Lemma sub_one_unfold_general (s : bool) (m : positive) (e : Z) :
  F64.sub F64.one (S754_finite s m e) =
  binary_normalize F64.prec F64.emax
    (2 ^ 52 * 2 ^ (-52 - Z.min (-52) e)
     - cond_Zopp s (Z.pos m * 2 ^ (e - Z.min (-52) e)))
    (Z.min (-52) e) false.
Proof.
  unfold F64.sub, SFsub, F64.one.
  destruct (shl_align_spec 4503599627370496 (-52) (Z.min (-52) e)) as [_ H1].
  destruct (shl_align_spec m e (Z.min (-52) e)) as [_ H2].
  rewrite H1, H2. cbn [cond_Zopp].
  replace (Z.min (-52) (Z.min (-52) e)) with (Z.min (-52) e) by lia.
  replace (Z.min e (Z.min (-52) e)) with (Z.min (-52) e) by lia.
  reflexivity.
Qed.

Lemma div_unfold_signed (s1 s2 : bool) (m1 m2 : positive) (e1 e2 : Z) :
  let e' := Z.min (fexp F64.prec F64.emax
                     (Z.pos (digits2_pos m1) + e1 - (Z.pos (digits2_pos m2) + e2)))
                  (e1 - e2) in
  let s := e1 - e2 - e' in
  F64.div (S754_finite s1 m1 e1) (S754_finite s2 m2 e2) =
  binary_round_aux F64.prec F64.emax (xorb s1 s2)
    (Z.pos m1 * 2 ^ s / Z.pos m2) e'
    (new_location (Z.pos m2) (Z.pos m1 * 2 ^ s mod Z.pos m2)).
Proof.
  intros e' s. unfold F64.div, SFdiv, SFdiv_core_binary.
  rewrite !Zdigits2_pos. fold e'. fold s.
  assert (0 <= s) as Hs by (unfold s, e'; lia).
  assert (match s with
          | 0 => Z.pos m1
          | Z.pos _ => Z.shiftl (Z.pos m1) s
          | Z.neg _ => 0
          end = Z.pos m1 * 2 ^ s) as ->.
  { destruct s as [|p|p] eqn:Hp; [lia| |lia].
    by rewrite Z.shiftl_mul_pow2 by lia. }
  unfold Z.div, Z.modulo.
  by destruct (Z.div_eucl (Z.pos m1 * 2 ^ s) (Z.pos m2)).
Qed.

(** The integer part of a negative float of moderate magnitude. *)
Lemma truncate_negative (mf : positive) (ef : Z) :
  Zdigits2 (Z.pos mf) + ef ≤ 62 →
  ∃ z, F64.truncate (S754_finite true mf ef) = Some z ∧ - 2 ^ 63 < z ≤ 0.
Proof.
  intros Hmag. unfold F64.truncate, F64.is_finite, F64.num, F64.den.
  cbn [cond_Zopp]. eexists. split; [reflexivity|].
  pose proof (Zdigits2_bounds (Z.pos mf) ltac:(lia)) as [_ Hhi].
  pose proof (Zdigits2_pos_ge_1 (Z.pos mf) ltac:(lia)) as Hd.
  set (dm := Zdigits2 (Z.pos mf)) in *.
  set (a := Z.pos mf * 2 ^ Z.max ef 0).
  set (b := 2 ^ Z.max (- ef) 0).
  assert (0 < 2 ^ Z.max ef 0) as Hpa by (apply Z.pow_pos_nonneg; lia).
  assert (0 < b) as Hb by (apply Z.pow_pos_nonneg; lia).
  assert (0 < a) as Ha by (unfold a; lia).
  replace (- Z.pos mf * 2 ^ Z.max ef 0) with (- a) by (unfold a; lia).
  rewrite Z.quot_opp_l by lia. rewrite Z.quot_div_nonneg by lia.
  assert (0 ≤ a / b) by (apply Z.div_pos; lia).
  assert (a / b < 2 ^ 63); [|lia].
  apply Z.div_lt_upper_bound; [done|].
  unfold a, b.
  apply Z.lt_le_trans with (2 ^ dm * 2 ^ Z.max ef 0).
  { apply Z.mul_lt_mono_pos_r; done. }
  rewrite (Z.mul_comm (2 ^ Z.max (- ef) 0)).
  rewrite <- !Z.pow_add_r by lia. apply Z.pow_le_mono_r; lia.
Qed.

(** Dividing by a number of comparable magnitude and opposite sign gives a
    non-positive quotient that fits an [int]. *)
Lemma div_opposite (s sD : bool) (m : positive) (e : Z) (D : spec_float) :
  xorb s sD = true → e ≤ 971 →
  (D = S754_infinity sD ∨
   ∃ mD eD, D = S754_finite sD mD eD ∧
     Z.pos (digits2_pos m) + e - 52 ≤ Z.pos (digits2_pos mD) + eD) →
  ∃ z, F64.truncate (F64.div (S754_finite s m e) D) = Some z ∧ - 2 ^ 63 < z ≤ 0.
Proof.
  intros Hs He [->|(mD & eD & -> & Hmag)].
  { exists 0. split; [|lia]. unfold F64.div, SFdiv. rewrite Hs. reflexivity. }
  rewrite div_unfold_signed, Hs, fexp_eq.
  set (d := Z.pos (digits2_pos m)) in *. set (dD := Z.pos (digits2_pos mD)) in *.
  set (e' := Z.min (Z.max (d + e - (dD + eD) - 53) (-1074)) (e - eD)).
  set (s' := e - eD - e'). assert (0 ≤ s') as Hs' by lia.
  assert (0 < 2 ^ s') as Hps by (apply Z.pow_pos_nonneg; lia).
  set (Q0 := Z.pos m * 2 ^ s' / Z.pos mD).
  assert (0 ≤ Q0) as HQ0 by (apply Z.div_pos; lia).
  assert (Zdigits2 Q0 + e' ≤ 53) as HmagQ.
  { destruct (Z.eq_dec Q0 0) as [->|Hne]; [cbn; lia|].
    assert (Zdigits2 Q0 + (dD - 1) ≤ d + s'); [|lia].
    pose proof (Zdigits2_bounds (Z.pos mD) ltac:(lia)) as [HloD _].
    rewrite Zdigits2_pos in HloD. fold dD in HloD.
    assert (1 ≤ dD) by (unfold dD; lia).
    rewrite <- (Zdigits2_shift Q0 (dD - 1)) by lia.
    replace (d + s') with (Zdigits2 (Z.pos m * 2 ^ s'))
      by (rewrite Zdigits2_shift by lia; by rewrite Zdigits2_pos).
    apply Zdigits2_mono.
    assert (0 < 2 ^ (dD - 1)) by (apply Z.pow_pos_nonneg; lia).
    split; [lia|].
    apply Z.le_trans with (Q0 * Z.pos mD).
    - apply Z.mul_le_mono_nonneg_l; lia.
    - unfold Q0. rewrite Z.mul_comm. apply Z.mul_div_le. lia. }
  destruct (binary_round_aux_upper true Q0 e'
              (new_location (Z.pos mD) (Z.pos m * 2 ^ s' mod Z.pos mD)) 53
              HQ0 HmagQ ltac:(lia) ltac:(lia) ltac:(lia) ltac:(lia))
    as [->|(mf & ef & -> & Hf)].
  - exists 0. split; [reflexivity|lia].
  - apply truncate_negative. lia.
Qed.

(** [t / (1.0 - t)] for a finite [t] below zero or above one. *)
Lemma quotient_outside (s : bool) (m : positive) (e : Z) :
  F64.valid (S754_finite s m e) = true →
  s = true ∨ F64.ltb F64.one (S754_finite s m e) = true →
  ∃ z, F64.truncate (F64.div (S754_finite s m e)
                       (F64.sub F64.one (S754_finite s m e))) = Some z ∧
       - 2 ^ 63 < z ≤ 0.
Proof.
  intros Hv Hcase.
  destruct (valid_canonical _ _ _ Hv) as [Hcan He].
  set (d := Z.pos (digits2_pos m)) in *.
  assert (1 ≤ d) as Hd1 by (unfold d; lia).
  pose proof (digits2_bounds m) as [Hlo Hhi]. fold d in Hlo, Hhi.
  rewrite sub_one_unfold_general.
  set (ez := Z.min (-52) e).
  assert (0 < 2 ^ (e - ez)) as Hp1 by (apply Z.pow_pos_nonneg; lia).
  assert (0 < 2 ^ (-52 - ez)) as Hp2 by (apply Z.pow_pos_nonneg; lia).
  destruct s.
  - (* t < 0: the difference is 1 + |t| *)
    cbn [cond_Zopp].
    set (M := 2 ^ 52 * 2 ^ (-52 - ez) - - (Z.pos m * 2 ^ (e - ez))).
    assert (Z.pos m * 2 ^ (e - ez) ≤ M) as HM by (unfold M; lia).
    assert (d + (e - ez) ≤ Zdigits2 M) as HdM.
    { replace (d + (e - ez)) with (Zdigits2 (Z.pos m * 2 ^ (e - ez)))
        by (rewrite Zdigits2_shift by lia; by rewrite Zdigits2_pos).
      apply Zdigits2_mono. lia. }
    assert (- ez + 1 ≤ Zdigits2 M) as HdM1.
    { apply Zdigits2_ge; [lia|]. unfold M.
      rewrite <- Z.pow_add_r by lia. replace (52 + (-52 - ez)) with (- ez) by lia. lia. }
    destruct M as [|p|p] eqn:HMp; [lia| |lia].
    unfold binary_normalize. rewrite Zdigits2_pos in HdM, HdM1.
    apply (div_opposite true false); [done|done|].
    destruct (binary_round_lower false p ez (Z.max 1 (d + e)) ltac:(lia) ltac:(lia))
      as [->|(mD & eD & -> & HD)]; [by left|right].
    exists mD, eD. split; [done|]. rewrite Zdigits2_pos in HD. fold d. lia.
  - (* t > 1: the difference is -(t - 1) *)
    destruct Hcase as [?|H1]; [done|].
    unfold F64.ltb, F64.one in H1. apply ltb_finite_positive in H1.
    cbn [cond_Zopp].
    assert (ez = -52) as Hez by (unfold ez; lia). rewrite Hez in *.
    change (-52 - -52) with 0. rewrite Z.pow_0_r, Z.mul_1_r.
    assert (d = 53) as Hd53.
    { destruct H1 as [?|[? _]]; lia. }
    rewrite Hd53 in *. change (2 ^ (53 - 1)) with (2 ^ 52) in Hlo.
    set (M := Z.pos m * 2 ^ (e - -52) - 2 ^ 52).
    assert (0 < M ∧ e + 53 ≤ Zdigits2 M) as [HMpos HdM].
    { destruct H1 as [Hgt|[Heq Hm]].
      - assert (2 ^ 52 * 2 ≤ Z.pos m * 2 ^ (e - -52)) as Hbig.
        { apply Z.mul_le_mono_nonneg; [lia|lia|lia|].
          change 2 with (2 ^ 1) at 1. apply Z.pow_le_mono_r; lia. }
        split; [unfold M; lia|].
        assert (e - -52 - 1 + 52 + 1 ≤ Zdigits2 M); [|lia].
        apply Zdigits2_ge; [lia|].
        rewrite Z.pow_add_r by lia. unfold M.
        assert (2 ^ (e - -52) = 2 * 2 ^ (e - -52 - 1)) as Hsplit.
        { rewrite <- Z.pow_succ_r by lia. f_equal. lia. }
        assert (0 < 2 ^ (e - -52 - 1)) by (apply Z.pow_pos_nonneg; lia).
        rewrite Hsplit in *. nia.
      - subst e. change (-52 - -52) with 0 in *. unfold M.
        rewrite Z.pow_0_r, Z.mul_1_r.
        assert (2 ^ 52 < Z.pos m) as Hm'.
        { apply Pos2Z.pos_lt_pos in Hm. exact Hm. }
        split; [lia|].
        apply (Zdigits2_pos_ge_1 (Z.pos m - 2 ^ 52)). lia. }
    replace (2 ^ 52 - Z.pos m * 2 ^ (e - -52)) with (- M) by (unfold M; lia).
    destruct M as [|p|p] eqn:HMp; [lia| |lia].
    unfold binary_normalize. change (- Z.pos p) with (Z.neg p). cbv iota.
    rewrite Zdigits2_pos in HdM.
    apply (div_opposite false true); [done|done|].
    destruct (binary_round_lower true p (-52) (e + 1) ltac:(lia) ltac:(lia))
      as [->|(mD & eD & -> & HD)]; [by left|right].
    exists mD, eD. split; [done|]. rewrite Zdigits2_pos in HD. fold d. lia.
Qed.

End OutsideUnitInterval.

Section PolicyWhole.
Context `{Platform}.

Lemma eqb_finite_positive (m1 m2 : positive) (e1 e2 : Z) :
  SFeqb (S754_finite false m1 e1) (S754_finite false m2 e2) = true ↔
  e1 = e2 ∧ m1 = m2.
Proof.
  unfold SFeqb, SFcompare.
  destruct (Z.compare_spec e1 e2) as [He|He|He].
  - rewrite Pos.compare_cont_spec. cbn [Pos.switch_Eq].
    destruct (Pos.compare_spec m1 m2) as [Hm|Hm|Hm]; split; intros Hx;
      try discriminate Hx; try reflexivity; try done.
    + destruct Hx as [_ ->]. by apply Pos.lt_irrefl in Hm.
    + destruct Hx as [_ ->]. by apply Pos.lt_irrefl in Hm.
  - split; [done|lia].
  - split; [done|lia].
Qed.

Lemma compare_one_cases (m : positive) (e : Z) :
  F64.ltb (S754_finite false m e) F64.one = true ∨
  F64.eqb (S754_finite false m e) F64.one = true ∨
  F64.ltb F64.one (S754_finite false m e) = true.
Proof.
  unfold F64.ltb, F64.eqb, F64.one.
  rewrite !ltb_finite_positive, eqb_finite_positive.
  generalize 4503599627370496%positive. intros c.
  destruct (Z.lt_trichotomy e (-52)) as [?|[->|?]]; [by left; left| |by right; right; left].
  destruct (Pos.lt_total m c) as [?|[->|?]].
  - left. by right.
  - right. by left.
  - right. right. by right.
Qed.

Lemma computeQ_constant_outside (t : spec_float) :
  F64.valid t = true → F64.is_finite t = true →
  F64.ltb F64.zero t = false ∨ F64.ltb F64.one t = true →
  computeQ t = 1.
Proof.
  intros Hv Hf Hcase.
  destruct t as [s|s| |s m e]; [by destruct s|done|done|].
  assert (s = true ∨ F64.ltb F64.one (S754_finite s m e) = true) as Hcase'.
  { destruct s; [by left|]. destruct Hcase as [?|?]; [done|by right]. }
  destruct (quotient_outside s m e Hv Hcase') as (z & Htr & Hz).
  assert (F64.eqb (S754_finite s m e) F64.one = false) as Heq.
  { destruct s; [reflexivity|]. destruct Hcase' as [?|H1]; [done|].
    destruct (F64.eqb (S754_finite false m e) F64.one) eqn:E; [|done].
    exfalso. unfold F64.eqb, F64.ltb, F64.one in *.
    apply eqb_finite_positive in E as [-> ->].
    apply ltb_finite_positive in H1 as [?|[_ Hlt]]; [lia|].
    by apply Pos.lt_irrefl in Hlt. }
  unfold computeQ. rewrite Heq, max_Zmax. unfold F64.toInt. rewrite Htr.
  unfold F64.int_min, F64.int_max.
  destruct (Z.leb_spec (- 2 ^ 63) z); [|lia].
  destruct (Z.leb_spec z (2 ^ 63 - 1)); [cbn [andb]; lia|lia].
Qed.

(** X19. Outside the unit interval the policy is constant: for every finite
    float64 threshold that is zero, negative or above 1.0 the quotient
    [t / (1.0 - t)] is a non-positive number that fits an [int], and
    [computeQ] returns 1. *)
Theorem computeQ_outside (t : spec_float) :
  F64.valid t = true → F64.is_finite t = true →
  F64.ltb F64.zero t = false ∨ F64.ltb F64.one t = true →
  computeQ t = 1.
Proof. apply computeQ_constant_outside. Qed.

(** X16. [computeQ] is monotone below 1.0: for finite float64 thresholds
    [t1 < t2 < 1.0] (negative ones and zero included) a larger threshold
    never gives a smaller q, float rounding of the subtraction and of the
    division included. *)
Theorem computeQ_monotone (t1 t2 : spec_float) :
  F64.valid t1 = true → F64.is_finite t1 = true →
  F64.valid t2 = true → F64.ltb t2 F64.one = true →
  F64.ltb t1 t2 = true →
  computeQ t1 ≤ computeQ t2.
Proof.
  intros Hv1 Hf1 Hv2 H12 Hlt.
  destruct (F64.ltb F64.zero t1) eqn:H01.
  - by apply computeQ_monotone_unit.
  - rewrite (computeQ_constant_outside t1 Hv1 Hf1 (or_introl H01)).
    unfold computeQ. destruct (F64.eqb t2 F64.one); [lia|].
    rewrite max_Zmax. lia.
Qed.

End PolicyWhole.

(** The quotient of a finite threshold other than 1.0 has an integer part
    within the range of a 64-bit [int]. *)
Lemma quotient_in_range (t : spec_float) :
  F64.valid t = true → F64.is_finite t = true → F64.eqb t F64.one = false →
  ∃ z, F64.truncate (F64.div t (F64.sub F64.one t)) = Some z ∧
       - 2 ^ 63 < z < 2 ^ 53.
Proof.
  intros Hv Hf Hne.
  destruct t as [s|s| |s m e]; [|done|done|].
  { exists 0. split; [by destruct s|lia]. }
  destruct s.
  - destruct (quotient_outside true m e Hv (or_introl eq_refl)) as (z & Hz & Hr).
    exists z. split; [done|lia].
  - destruct (compare_one_cases m e) as [H1|[H1|H1]].
    + destruct (quotient_integer_part _ Hv eq_refl H1) as (z & Hz & _ & Hr & _).
      exists z. split; [done|lia].
    + congruence.
    + destruct (quotient_outside false m e Hv (or_intror H1)) as (z & Hz & Hr).
      exists z. split; [done|lia].
Qed.

(** X15. Taking [int] as 64 bits wide, the conversion [int(...)] in
    [computeQ] is always defined on finite thresholds: for every finite
    float64 [t] other than 1.0 the quotient [t / (1.0 - t)] is finite and
    its integer part lies within the range of [int], so the result is
    [max(1, _)] of that integer part whatever the implementation returns
    for an unrepresentable value; the result of [computeQ] lies between 1
    and [2 ^ 53 - 1].  For NaN and the infinities the quotient is NaN, and
    the result is the implementation's conversion of NaN, raised to at
    least 1.  The width matters: at [1 - 2 ^ -53], the largest float64
    below 1.0, the integer part is [2 ^ 53 - 1], more than a 32-bit [int]
    holds. *)
Theorem computeQ_conversion_defined (t : spec_float) :
  (F64.valid t = true → F64.is_finite t = true →
   (F64.eqb t F64.one = false →
    ∃ z, F64.truncate (F64.div t (F64.sub F64.one t)) = Some z ∧
         F64.int_min ≤ z ≤ F64.int_max ∧
         ∀ P : Platform, @computeQ P t = Z.max 1 z) ∧
   (∀ P1 P2 : Platform, @computeQ P1 t = @computeQ P2 t) ∧
   (∀ P : Platform, 1 ≤ @computeQ P t ≤ 2 ^ 53 - 1)) ∧
  (F64.is_finite t = false →
   ∀ P : Platform, @computeQ P t = Z.max 1 (@intOfUnrepresentable P S754_nan)) ∧
  F64.truncate (F64.div (S754_finite false 9007199254740991 (-53))
                  (F64.sub F64.one (S754_finite false 9007199254740991 (-53))))
    = Some (2 ^ 53 - 1).
Proof.
  split; [|split; [|by vm_compute]].
  - intros Hv Hf. destruct (F64.eqb t F64.one) eqn:E.
    + assert (∀ P : Platform, @computeQ P t = 10) as Hall
        by (intros P; unfold computeQ; by rewrite E).
      split; [done|]. split; [intros P1 P2; by rewrite !Hall|].
      intros P. rewrite Hall. lia.
    + destruct (quotient_in_range t Hv Hf E) as (z & Htr & Hz).
      assert (∀ P : Platform, @computeQ P t = Z.max 1 z) as Hall.
      { intros P. unfold computeQ. rewrite E, max_Zmax.
        unfold F64.toInt. rewrite Htr. unfold F64.int_min, F64.int_max.
        destruct (Z.leb_spec (- 2 ^ 63) z); [|lia].
        destruct (Z.leb_spec z (2 ^ 63 - 1)); [done|lia]. }
      split.
      { intros _. exists z. split; [done|]. split; [|done].
        unfold F64.int_min, F64.int_max. lia. }
      split; [intros P1 P2; by rewrite !Hall|].
      intros P. rewrite Hall. lia.
  - intros Hf P. unfold computeQ. rewrite max_Zmax.
    destruct t as [s|s| |s m e]; [done| |reflexivity|done].
    by destruct s.
Qed.

(** ** Failure *)

Section Failure.
Context `{Collaborators} `{Platform}.

Lemma normalized_dangling (id : IndexedDocument.t) (σ : session) :
  heap σ !! IndexedDocument.dict id = None → IndexedDocument.Tokens id ≠ [] →
  normalized id σ = None.
Proof.
  intros Hd Hts. unfold normalized.
  destruct (IndexedDocument.Tokens id) as [|t ts]; [done|].
  cbn [forRange]. unfold bind at 1. unfold writeWord at 1. unfold bind at 1.
  by rewrite call_None.
Qed.

Lemma addDocument_dangling category name variant (d : document.t) (σ : session) :
  heap σ !! Dict (this σ) = None → document.Tokens d ≠ [] →
  addDocument category name variant d σ = None.
Proof.
  intros Hd Hts. unfold addDocument. unfold bind at 1.
  by rewrite (generateIndexedDocument_dangling d true σ Hd Hts).
Qed.

(** X20. A classifier whose [c.Dict] points to no dictionary fails on the
    first token: [generateIndexedDocument] (either mode), [addDocument],
    [AddContent] and [createTargetIndexedDocument] panic on every document
    that has a token, and so does [normalized] on a document with a token
    whose [dict] is that pointer.  A document without tokens never reaches
    the dictionary: [generateIndexedDocument] returns it, empty, with the
    session untouched. *)
Theorem dangling_dictionary_panics (σ : session) :
  heap σ !! Dict (this σ) = None →
  (∀ (d : document.t) (addWords : bool), document.Tokens d ≠ [] →
     generateIndexedDocument d addWords σ = None) ∧
  (∀ category name variant (d : document.t), document.Tokens d ≠ [] →
     addDocument category name variant d σ = None) ∧
  (∀ category name variant (content : list Byte.byte),
     document.Tokens (tokenize content) ≠ [] →
     AddContent category name variant content σ = None ∧
     createTargetIndexedDocument content σ = None) ∧
  (∀ (id : IndexedDocument.t), IndexedDocument.dict id = Dict (this σ) →
     IndexedDocument.Tokens id ≠ [] → normalized id σ = None) ∧
  (∀ (d : document.t) (addWords : bool), document.Tokens d = [] →
     ∃ id, generateIndexedDocument d addWords σ = Some (id, σ) ∧
       IndexedDocument.Tokens id = [] ∧ IndexedDocument.norm id = "").
Proof.
  intros Hd. split; [|split; [|split; [|split]]].
  - intros d addWords Hts. by apply generateIndexedDocument_dangling.
  - intros category name variant d Hts. by apply addDocument_dangling.
  - intros category name variant content Hts. split.
    + unfold AddContent. by apply addDocument_dangling.
    + unfold createTargetIndexedDocument. by apply generateIndexedDocument_dangling.
  - intros id Hp Hts. apply normalized_dangling; [by rewrite Hp|done].
  - intros d addWords Hts. eexists.
    split; [by apply generateIndexedDocument_empty|].
    by rewrite indexedOf_Tokens, indexedOf_norm.
Qed.

End Failure.

(** ** Further concrete runs *)

Section FurtherRuns.
#[local] Existing Instance Demo.artifacts.
#[local] Existing Instance Demo.collaborators.
#[local] Existing Instance Demo.platform.

Lemma fresh_registry_ok : registry_ok Demo.fresh.
Proof. by apply registry_ok_empty. Qed.

Lemma dictionary_inverse_witness :
  dict_inv Demo.dict_ab ∧
  (∀ i, 1 ≤ i ≤ Z.of_nat (size (Words Demo.dict_ab)) →
     (getIndex (getWord i Demo.dict_ab).1 Demo.dict_ab).1 = i) ∧
  (∀ w, (getIndex w Demo.dict_ab).1 ≠ 0 →
     (getWord (getIndex w Demo.dict_ab).1 Demo.dict_ab).1 = w).
Proof.
  split; [exact dict_ab_inv|].
  destruct (dictionary_inverse Demo.dict_ab dict_ab_inv) as (H1 & H2 & _).
  exact (conj H1 H2).
Defined.

Lemma addAll_growth_witness :
  dict_inv Demo.dict_ab ∧
  size (Words (addAll ["a"; "c"; "c"] Demo.dict_ab)) =
    (size (Words Demo.dict_ab) +
     size (list_to_set ["a"; "c"; "c"] ∖ dom (Indices Demo.dict_ab) : gset string))%nat.
Proof.
  split; [exact dict_ab_inv|].
  exact (proj1 (addAll_growth ["a"; "c"; "c"] Demo.dict_ab dict_ab_inv)).
Defined.

Lemma grow_mode_complete_witness :
  heap Demo.fresh !! Dict (this Demo.fresh) = Some newDictionary ∧
  dict_inv newDictionary ∧
  ∃ id,
    generateIndexedDocument Demo.aba true Demo.fresh =
      Some (id, {| this := this Demo.fresh;
                   heap := <[Dict (this Demo.fresh) :=
                               addAll (token.Text <$> document.Tokens Demo.aba) newDictionary]>
                             (heap Demo.fresh) |}) ∧
    dict_inv (addAll (token.Text <$> document.Tokens Demo.aba) newDictionary).
Proof.
  split; [reflexivity|]. split; [exact newDictionary_inv|].
  destruct (grow_mode_complete Demo.aba Demo.fresh newDictionary eq_refl newDictionary_inv)
    as (id & Hrun & Hinv & _).
  exact (ex_intro _ id (conj Hrun Hinv)).
Defined.

Lemma grow_mode_norm_witness :
  heap Demo.fresh !! Dict (this Demo.fresh) = Some newDictionary ∧
  dict_inv newDictionary ∧
  ∃ id σ', generateIndexedDocument Demo.aba true Demo.fresh = Some (id, σ') ∧
    IndexedDocument.norm id = String.concat " " (token.Text <$> document.Tokens Demo.aba).
Proof.
  split; [reflexivity|]. split; [exact newDictionary_inv|].
  exact (grow_mode_norm Demo.aba Demo.fresh newDictionary eq_refl newDictionary_inv).
Defined.

Lemma resolve_mode_rendering_witness :
  heap Demo.grown !! Dict (this Demo.grown) = Some Demo.dict_ab ∧
  dict_inv Demo.dict_ab ∧
  ∃ id, generateIndexedDocument Demo.ac false Demo.grown = Some (id, Demo.grown) ∧
    IndexedDocument.norm id =
      String.concat " " (rendered Demo.dict_ab <$> (token.Text <$> document.Tokens Demo.ac)).
Proof.
  split; [reflexivity|]. split; [exact dict_ab_inv|].
  destruct (resolve_mode_rendering Demo.ac Demo.grown Demo.dict_ab eq_refl dict_ab_inv)
    as (id & Hrun & _ & Hn).
  exact (ex_intro _ id (conj Hrun Hn)).
Defined.

Lemma unknown_word_collision_witness :
  let dd := addAll ["UNKNOWN"] newDictionary in
  let σ : session := {| this := this Demo.fresh; heap := {[ 1%positive := dd ]} |} in
  let d1 := document.mk [token.mk "UNKNOWN" 0 1 ""] in
  let d2 := document.mk [token.mk "zzz" 0 1 ""] in
  heap σ !! Dict (this σ) = Some dd ∧ dict_inv dd ∧
  Forall2 (λ a b, token.Text a = token.Text b ∨
                  (token.Text a = "UNKNOWN" ∧ Indices dd !! token.Text b = None))
          (document.Tokens d1) (document.Tokens d2) ∧
  is_Some (Indices dd !! "UNKNOWN") ∧
  ∃ id1 id2,
    generateIndexedDocument d1 false σ = Some (id1, σ) ∧
    generateIndexedDocument d2 false σ = Some (id2, σ) ∧
    IndexedDocument.norm id1 = IndexedDocument.norm id2.
Proof.
  intros dd σ d1 d2.
  assert (heap σ !! Dict (this σ) = Some dd) as Hh by reflexivity.
  assert (dict_inv dd) as Hd by apply addAll_inv, newDictionary_inv.
  assert (Forall2 (λ a b, token.Text a = token.Text b ∨
                    (token.Text a = "UNKNOWN" ∧ Indices dd !! token.Text b = None))
            (document.Tokens d1) (document.Tokens d2)) as Hrel.
  { constructor; [|constructor]. right. split; [reflexivity|]. vm_compute. reflexivity. }
  split; [exact Hh|]. split; [exact Hd|]. split; [exact Hrel|].
  split; [exists 1; vm_compute; reflexivity|].
  destruct (unknown_word_collision d1 d2 σ dd Hh Hd Hrel) as (id1 & id2 & H1 & H2 & Hn & _).
  exact (ex_intro _ id1 (ex_intro _ id2 (conj H1 (conj H2 Hn)))).
Defined.

Lemma grow_then_resolve_witness :
  heap Demo.fresh !! Dict (this Demo.fresh) = Some newDictionary ∧
  dict_inv newDictionary ∧
  ∃ id σ',
    generateIndexedDocument Demo.aba true Demo.fresh = Some (id, σ') ∧
    generateIndexedDocument Demo.aba true σ' = Some (id, σ') ∧
    generateIndexedDocument Demo.aba false σ' = Some (id, σ').
Proof.
  split; [reflexivity|]. split; [exact newDictionary_inv|].
  exact (grow_then_resolve Demo.aba Demo.fresh newDictionary eq_refl newDictionary_inv).
Defined.

Lemma norm_stable_witness :
  heap Demo.grown !! Dict (this Demo.grown) = Some Demo.dict_ab ∧
  dict_inv Demo.dict_ab ∧
  ∃ id σ' dd',
    generateIndexedDocument Demo.ac false Demo.grown = Some (id, σ') ∧
    heap σ' !! Dict (this σ') = Some dd' ∧ dict_inv dd' ∧
    ∀ (ws : list string) (σ2 : session),
      heap σ2 !! IndexedDocument.dict id = Some (addAll ws dd') →
      normalized id σ2 = Some (IndexedDocument.norm id, σ2).
Proof.
  split; [reflexivity|]. split; [exact dict_ab_inv|].
  exact (norm_stable Demo.ac false Demo.grown Demo.dict_ab eq_refl dict_ab_inv).
Defined.

Lemma addDocument_frame_witness :
  heap Demo.grown !! Dict (this Demo.grown) = Some Demo.dict_ab ∧
  dict_inv Demo.dict_ab ∧
  ∃ σ',
    addDocument "lic" "mit" "" Demo.ac Demo.grown = Some (tt, σ') ∧
    Dict (this σ') = Dict (this Demo.grown) ∧
    Q (this σ') = Q (this Demo.grown).
Proof.
  split; [reflexivity|]. split; [exact dict_ab_inv|].
  destruct (addDocument_frame "lic" "mit" "" Demo.ac Demo.grown Demo.dict_ab
              eq_refl dict_ab_inv) as (σ' & Hrun & HD & HQ & _).
  exact (ex_intro _ σ' (conj Hrun (conj HD HQ))).
Defined.

Lemma addDocument_registry_ok_witness :
  registry_ok Demo.fresh ∧
  ∃ σ', addDocument "lic" "mit" "" Demo.aba Demo.fresh = Some (tt, σ') ∧ registry_ok σ'.
Proof.
  split; [exact fresh_registry_ok|].
  exact (addDocument_registry_ok "lic" "mit" "" Demo.aba Demo.fresh fresh_registry_ok).
Defined.

Lemma AddContent_then_target_witness :
  let content := [Byte.x61; Byte.x20; Byte.x62; Byte.x20; Byte.x61] in
  tokenize content = Demo.aba ∧
  registry_ok Demo.fresh ∧
  ∃ σ' e id,
    AddContent "lic" "mit" "" content Demo.fresh = Some (tt, σ') ∧
    getIndexedDocument "lic" "mit" "" σ' = Some (Some e, σ') ∧
    createTargetIndexedDocument content σ' = Some (id, σ') ∧
    IndexedDocument.Tokens id = IndexedDocument.Tokens e ∧
    IndexedDocument.norm id = IndexedDocument.norm e ∧
    IndexedDocument.dict id = IndexedDocument.dict e ∧
    (∀ it, it ∈ IndexedDocument.Tokens id → indexedToken.ID it ≠ 0) ∧
    IndexedDocument.Tokens id =
      [indexedToken.mk 0 1 1; indexedToken.mk 1 1 2; indexedToken.mk 2 1 1] ∧
    IndexedDocument.norm id = "a b a".
Proof.
  intros content.
  split; [reflexivity|]. split; [exact fresh_registry_ok|].
  destruct (AddContent_then_target "lic" "mit" "" content Demo.fresh fresh_registry_ok)
    as (σ' & e & id & H1 & H2 & H3 & H4 & H5 & H6 & H7).
  exists σ', e, id.
  split; [exact H1|]. split; [exact H2|]. split; [exact H3|]. split; [exact H4|].
  split; [exact H5|]. split; [exact H6|]. split; [exact H7|].
  unfold AddContent in H1.
  change (tokenize content) with Demo.aba in H1.
  rewrite (addDocument_run "lic" "mit" "" Demo.aba Demo.fresh newDictionary eq_refl) in H1.
  injection H1 as <-.
  unfold createTargetIndexedDocument in H3.
  change (tokenize content) with Demo.aba in H3.
  rewrite (generateIndexedDocument_run Demo.aba false _ Demo.dict_ab) in H3
    by (vm_compute; reflexivity).
  injection H3 as <-.
  split; vm_compute; reflexivity.
Defined.

Lemma getIndexedDocument_entry_witness :
  ∃ (σ : session) e,
    registry_ok σ ∧
    getIndexedDocument "lic" "mit" "" σ = Some (Some e, σ) ∧
    normalized e σ = Some (IndexedDocument.norm e, σ).
Proof.
  destruct (registry_ok_step "lic" "mit" "" Demo.aba Demo.fresh fresh_registry_ok)
    as (σ & Hrun & Hok).
  destruct (Docs (this σ) !! generateDocName "lic" "mit" "") as [e|] eqn:He.
  - exists σ, e.
    assert (getIndexedDocument "lic" "mit" "" σ = Some (Some e, σ)) as Hget
      by (rewrite getIndexedDocument_run; by rewrite He).
    split; [exact Hok|]. split; [exact Hget|].
    exact (proj1 (proj2 (getIndexedDocument_entry "lic" "mit" "" σ e Hok Hget))).
  - exfalso.
    rewrite (addDocument_run "lic" "mit" "" Demo.aba Demo.fresh newDictionary eq_refl) in Hrun.
    injection Hrun as <-. cbn in He. by rewrite lookup_insert_eq in He.
Defined.

Lemma generateDocName_injective_witness :
  occurs PathSeparator "lic" = false ∧ occurs PathSeparator "mit" = false ∧
  generateDocName "lic" "mit" "a/b" = generateDocName "lic" "mit" "a/b" ∧
  "lic" = "lic" ∧ "mit" = "mit" ∧ "a/b" = "a/b".
Proof.
  split; [reflexivity|]. split; [reflexivity|]. split; [reflexivity|].
  exact (generateDocName_injective "lic" "mit" "a/b" "lic" "mit" "a/b"
           eq_refl eq_refl eq_refl eq_refl eq_refl).
Defined.

Lemma computeQ_steps_witness :
  F64.valid F64.lit_0_8 = true ∧
  F64.ltb F64.zero F64.lit_0_8 = true ∧ F64.ltb F64.lit_0_8 F64.one = true ∧
  2 ≤ 4 ∧
  (4 ≤ computeQ F64.lit_0_8 ↔ (4 # Z.to_pos (4 + 1) <= F64.toQ F64.lit_0_8)%Q).
Proof.
  split; [reflexivity|]. split; [reflexivity|]. split; [reflexivity|].
  split; [lia|].
  exact (computeQ_steps F64.lit_0_8 4 eq_refl eq_refl eq_refl ltac:(lia)).
Defined.

Lemma computeQ_monotone_witness :
  F64.valid F64.lit_0_5 = true ∧ F64.is_finite F64.lit_0_5 = true ∧
  F64.valid F64.lit_0_8 = true ∧ F64.ltb F64.lit_0_8 F64.one = true ∧
  F64.ltb F64.lit_0_5 F64.lit_0_8 = true ∧
  computeQ F64.lit_0_5 ≤ computeQ F64.lit_0_8.
Proof.
  split; [reflexivity|]. split; [reflexivity|]. split; [reflexivity|].
  split; [reflexivity|]. split; [reflexivity|].
  exact (computeQ_monotone F64.lit_0_5 F64.lit_0_8 eq_refl eq_refl eq_refl eq_refl eq_refl).
Defined.

Lemma computeQ_drop_at_one_witness :
  let t := S754_finite false 8444249301319680 (-53) in
  F64.valid t = true ∧ F64.ltb t F64.one = true ∧ (11 # 12 <= F64.toQ t)%Q ∧
  computeQ F64.one < computeQ t.
Proof.
  intros t.
  assert (11 # 12 <= F64.toQ t)%Q as Hq by (vm_compute; discriminate).
  split; [reflexivity|]. split; [reflexivity|]. split; [exact Hq|].
  exact (computeQ_drop_at_one t eq_refl eq_refl Hq).
Defined.

Lemma computeQ_conversion_defined_witness :
  let P2 := {| PathSeparator := PathSeparator; intOfUnrepresentable := λ _, 0 |} in
  F64.valid F64.lit_0_8 = true ∧ F64.is_finite F64.lit_0_8 = true ∧
  F64.eqb F64.lit_0_8 F64.one = false ∧
  (∃ z, F64.truncate (F64.div F64.lit_0_8 (F64.sub F64.one F64.lit_0_8)) = Some z ∧
        F64.int_min ≤ z ≤ F64.int_max ∧
        ∀ P : Platform, @computeQ P F64.lit_0_8 = Z.max 1 z) ∧
  @computeQ Demo.platform F64.lit_0_8 = @computeQ P2 F64.lit_0_8 ∧
  1 ≤ @computeQ Demo.platform F64.lit_0_8 ≤ 2 ^ 53 - 1.
Proof.
  intros P2.
  split; [reflexivity|]. split; [reflexivity|]. split; [reflexivity|].
  destruct (proj1 (computeQ_conversion_defined F64.lit_0_8) eq_refl eq_refl)
    as (Hz & Heq & Hb).
  exact (conj (Hz eq_refl) (conj (Heq Demo.platform P2) (Hb Demo.platform))).
Defined.

Lemma computeQ_outside_witness :
  let t := S754_finite false 6755399441055744 (-52) in
  F64.valid t = true ∧ F64.is_finite t = true ∧ F64.ltb F64.one t = true ∧
  computeQ t = 1.
Proof.
  intros t.
  split; [reflexivity|]. split; [reflexivity|]. split; [reflexivity|].
  exact (computeQ_outside t eq_refl eq_refl (or_intror eq_refl)).
Defined.

Lemma dangling_dictionary_panics_witness :
  let σ : session := {| this := this Demo.fresh; heap := ∅ |} in
  heap σ !! Dict (this σ) = None ∧
  document.Tokens Demo.aba ≠ [] ∧
  generateIndexedDocument Demo.aba true σ = None ∧
  generateIndexedDocument Demo.aba false σ = None ∧
  addDocument "lic" "mit" "" Demo.aba σ = None ∧
  ∃ id, generateIndexedDocument Demo.empty true σ = Some (id, σ) ∧
    IndexedDocument.Tokens id = [] ∧ IndexedDocument.norm id = "".
Proof.
  intros σ.
  assert (heap σ !! Dict (this σ) = None) as Hd by reflexivity.
  assert (document.Tokens Demo.aba ≠ []) as Hts by discriminate.
  destruct (dangling_dictionary_panics σ Hd) as (Hg & Ha & _ & _ & He).
  split; [exact Hd|]. split; [exact Hts|].
  split; [exact (Hg Demo.aba true Hts)|].
  split; [exact (Hg Demo.aba false Hts)|].
  split; [exact (Ha "lic" "mit" "" Demo.aba Hts)|].
  exact (He Demo.empty true eq_refl).
Defined.

End FurtherRuns.
